(** * A six-axis robot arm simulator: kinematics, trajectory files and playback

    A shallow embedding of [src/services/kinematics.ts] (the classes
    [KinematicsService] and [ParserService]) and of the playback component
    and path generators of the application file (src/unnamed/part_000).

    Numbers.  The kinematics computes with JavaScript numbers through
    [Math.sin], [Math.cos] and [Math.sqrt]; here these are the real numbers
    of the Standard Library, so every statement about the kinematics is a
    statement in exact real arithmetic: there is no rounding, no NaN and no
    infinity.  The parser reads numbers from decimal text; they are kept as
    exact rationals, with one extra value for the NaN that [parseFloat]
    returns on text that starts no number.

    Arrays.  A [number[]] is a list.  A read past the end gives [undefined]
    in JavaScript, which arithmetic turns into NaN; the theorems on functions
    that read arrays carry the length hypotheses (six joint angles, seven
    entries per DH sequence) under which no such read happens. *)

From Stdlib Require Import Reals Lra Lia List Bool Arith ZArith QArith.
From Stdlib Require Import Strings.String Strings.Ascii.
From Stdlib Require DecimalString DecimalNat.
Import ListNotations.

(** ** The part of three.js the program calls

    three.js is an external package; the definitions below follow its
    [Vector3], [Quaternion], [Euler] and [Matrix4] classes.  A method that
    mutates its receiver and returns it is a function returning the new
    value; [clone] is then the identity and is left out. *)

Module Three.
Local Open Scope R_scope.

Record Vector3 : Type := mkVector3 { vx : R; vy : R; vz : R }.

Record Quaternion : Type := mkQuaternion { qx : R; qy : R; qz : R; qw : R }.

(** Euler angles in the default order XYZ. *)
Record Euler : Type := mkEuler { ex : R; ey : R; ez : R }.

(** A 4x4 matrix, [nij] being row i, column j (the argument order of
    [Matrix4.set]); [elements[12..14]] are [n14], [n24], [n34]. *)
Record Matrix4 : Type := mkMatrix4 {
  n11 : R; n12 : R; n13 : R; n14 : R;
  n21 : R; n22 : R; n23 : R; n24 : R;
  n31 : R; n32 : R; n33 : R; n34 : R;
  n41 : R; n42 : R; n43 : R; n44 : R }.

(** Comparisons of numbers as booleans. *)
Definition Rltb (u v : R) : bool := if Rlt_dec u v then true else false.
Definition Reqb (u v : R) : bool := if Req_dec_T u v then true else false.

(** *** Vector3 *)

Definition subVectors (u v : Vector3) : Vector3 :=
  mkVector3 (vx u - vx v) (vy u - vy v) (vz u - vz v).

Definition multiplyScalar (v : Vector3) (s : R) : Vector3 :=
  mkVector3 (vx v * s) (vy v * s) (vz v * s).

Definition divideScalar (v : Vector3) (s : R) : Vector3 :=
  multiplyScalar v (1 / s).

Definition dot (u v : Vector3) : R :=
  vx u * vx v + vy u * vy v + vz u * vz v.

Definition length (v : Vector3) : R :=
  sqrt (vx v * vx v + vy v * vy v + vz v * vz v).

(** [divideScalar(this.length() || 1)]: a zero length divides by 1. *)
Definition normalize (v : Vector3) : Vector3 :=
  divideScalar v (if Reqb (length v) 0 then 1 else length v).

Definition crossVectors (u v : Vector3) : Vector3 :=
  mkVector3 (vy u * vz v - vz u * vy v)
            (vz u * vx v - vx u * vz v)
            (vx u * vy v - vy u * vx v).

Definition lerpVectors (v1 v2 : Vector3) (alpha : R) : Vector3 :=
  mkVector3 (vx v1 + (vx v2 - vx v1) * alpha)
            (vy v1 + (vy v2 - vy v1) * alpha)
            (vz v1 + (vz v2 - vz v1) * alpha).

(** The quaternion is taken to have unit length, as three.js does. *)
Definition applyQuaternion (v : Vector3) (q : Quaternion) : Vector3 :=
  let tx := 2 * (qy q * vz v - qz q * vy v) in
  let ty := 2 * (qz q * vx v - qx q * vz v) in
  let tz := 2 * (qx q * vy v - qy q * vx v) in
  mkVector3 (vx v + qw q * tx + qy q * tz - qz q * ty)
            (vy v + qw q * ty + qz q * tx - qx q * tz)
            (vz v + qw q * tz + qx q * ty - qy q * tx).

Definition setFromMatrixPosition (m : Matrix4) : Vector3 :=
  mkVector3 (n14 m) (n24 m) (n34 m).

(** *** Quaternion *)

(** [Quaternion.invert] is the conjugate. *)
Definition qinvert (q : Quaternion) : Quaternion :=
  mkQuaternion (- qx q) (- qy q) (- qz q) (qw q).

Definition qmultiply (a b : Quaternion) : Quaternion :=
  mkQuaternion
    (qx a * qw b + qw a * qx b + qy a * qz b - qz a * qy b)
    (qy a * qw b + qw a * qy b + qz a * qx b - qx a * qz b)
    (qz a * qw b + qw a * qz b + qx a * qy b - qy a * qx b)
    (qw a * qw b - qx a * qx b - qy a * qy b - qz a * qz b).

(** The upper left 3x3 block of [m] is taken to be a pure rotation. *)
Definition setFromRotationMatrix (m : Matrix4) : Quaternion :=
  let trace := n11 m + n22 m + n33 m in
  if Rltb 0 trace then
    let s := 0.5 / sqrt (trace + 1) in
    mkQuaternion ((n32 m - n23 m) * s) ((n13 m - n31 m) * s)
                 ((n21 m - n12 m) * s) (0.25 / s)
  else if Rltb (n22 m) (n11 m) && Rltb (n33 m) (n11 m) then
    let s := 2 * sqrt (1 + n11 m - n22 m - n33 m) in
    mkQuaternion (0.25 * s) ((n12 m + n21 m) / s)
                 ((n13 m + n31 m) / s) ((n32 m - n23 m) / s)
  else if Rltb (n33 m) (n22 m) then
    let s := 2 * sqrt (1 + n22 m - n11 m - n33 m) in
    mkQuaternion ((n12 m + n21 m) / s) (0.25 * s)
                 ((n23 m + n32 m) / s) ((n13 m - n31 m) / s)
  else
    let s := 2 * sqrt (1 + n33 m - n11 m - n22 m) in
    mkQuaternion ((n13 m + n31 m) / s) ((n23 m + n32 m) / s)
                 (0.25 * s) ((n21 m - n12 m) / s).

(** [Quaternion.setFromEuler], order XYZ. *)
Definition setFromEuler (e : Euler) : Quaternion :=
  let c1 := cos (ex e / 2) in let c2 := cos (ey e / 2) in
  let c3 := cos (ez e / 2) in
  let s1 := sin (ex e / 2) in let s2 := sin (ey e / 2) in
  let s3 := sin (ez e / 2) in
  mkQuaternion (s1 * c2 * c3 + c1 * s2 * s3)
               (c1 * s2 * c3 - s1 * c2 * s3)
               (c1 * c2 * s3 + s1 * s2 * c3)
               (c1 * c2 * c3 - s1 * s2 * s3).

(** *** Matrix4 *)

Definition identity : Matrix4 :=
  mkMatrix4 1 0 0 0  0 1 0 0  0 0 1 0  0 0 0 1.

Definition zero : Matrix4 :=
  mkMatrix4 0 0 0 0  0 0 0 0  0 0 0 0  0 0 0 0.

Definition makeTranslation (x y z : R) : Matrix4 :=
  mkMatrix4 1 0 0 x  0 1 0 y  0 0 1 z  0 0 0 1.

Definition makeRotationX (theta : R) : Matrix4 :=
  let c := cos theta in let s := sin theta in
  mkMatrix4 1 0 0 0  0 c (- s) 0  0 s c 0  0 0 0 1.

Definition makeRotationY (theta : R) : Matrix4 :=
  let c := cos theta in let s := sin theta in
  mkMatrix4 c 0 s 0  0 1 0 0  (- s) 0 c 0  0 0 0 1.

Definition makeRotationZ (theta : R) : Matrix4 :=
  let c := cos theta in let s := sin theta in
  mkMatrix4 c (- s) 0 0  s c 0 0  0 0 1 0  0 0 0 1.

(** [a.multiply(b)] is the product a * b. *)
Definition multiply (a b : Matrix4) : Matrix4 :=
  mkMatrix4
    (n11 a * n11 b + n12 a * n21 b + n13 a * n31 b + n14 a * n41 b)
    (n11 a * n12 b + n12 a * n22 b + n13 a * n32 b + n14 a * n42 b)
    (n11 a * n13 b + n12 a * n23 b + n13 a * n33 b + n14 a * n43 b)
    (n11 a * n14 b + n12 a * n24 b + n13 a * n34 b + n14 a * n44 b)
    (n21 a * n11 b + n22 a * n21 b + n23 a * n31 b + n24 a * n41 b)
    (n21 a * n12 b + n22 a * n22 b + n23 a * n32 b + n24 a * n42 b)
    (n21 a * n13 b + n22 a * n23 b + n23 a * n33 b + n24 a * n43 b)
    (n21 a * n14 b + n22 a * n24 b + n23 a * n34 b + n24 a * n44 b)
    (n31 a * n11 b + n32 a * n21 b + n33 a * n31 b + n34 a * n41 b)
    (n31 a * n12 b + n32 a * n22 b + n33 a * n32 b + n34 a * n42 b)
    (n31 a * n13 b + n32 a * n23 b + n33 a * n33 b + n34 a * n43 b)
    (n31 a * n14 b + n32 a * n24 b + n33 a * n34 b + n34 a * n44 b)
    (n41 a * n11 b + n42 a * n21 b + n43 a * n31 b + n44 a * n41 b)
    (n41 a * n12 b + n42 a * n22 b + n43 a * n32 b + n44 a * n42 b)
    (n41 a * n13 b + n42 a * n23 b + n43 a * n33 b + n44 a * n43 b)
    (n41 a * n14 b + n42 a * n24 b + n43 a * n34 b + n44 a * n44 b).

Definition determinant (m : Matrix4) : R :=
  let '(mkMatrix4 n11 n12 n13 n14 n21 n22 n23 n24
                  n31 n32 n33 n34 n41 n42 n43 n44) := m in
  n41 * (n14 * n23 * n32 - n13 * n24 * n32 - n14 * n22 * n33
         + n12 * n24 * n33 + n13 * n22 * n34 - n12 * n23 * n34)
  + n42 * (n11 * n23 * n34 - n11 * n24 * n33 + n14 * n21 * n33
           - n13 * n21 * n34 + n13 * n24 * n31 - n14 * n23 * n31)
  + n43 * (n11 * n24 * n32 - n11 * n22 * n34 - n14 * n21 * n32
           + n12 * n21 * n34 + n14 * n22 * n31 - n12 * n24 * n31)
  + n44 * (- n13 * n22 * n31 - n11 * n23 * n32 + n11 * n22 * n33
           + n13 * n21 * n32 - n12 * n21 * n33 + n12 * n23 * n31).

(** The first column of cofactors in [Matrix4.invert]; their combination
    with the first column of the matrix is the determinant it tests. *)
Definition invert_t11 (m : Matrix4) : R :=
  n23 m * n34 m * n42 m - n24 m * n33 m * n42 m + n24 m * n32 m * n43 m
  - n22 m * n34 m * n43 m - n23 m * n32 m * n44 m + n22 m * n33 m * n44 m.
Definition invert_t12 (m : Matrix4) : R :=
  n14 m * n33 m * n42 m - n13 m * n34 m * n42 m - n14 m * n32 m * n43 m
  + n12 m * n34 m * n43 m + n13 m * n32 m * n44 m - n12 m * n33 m * n44 m.
Definition invert_t13 (m : Matrix4) : R :=
  n13 m * n24 m * n42 m - n14 m * n23 m * n42 m + n14 m * n22 m * n43 m
  - n12 m * n24 m * n43 m - n13 m * n22 m * n44 m + n12 m * n23 m * n44 m.
Definition invert_t14 (m : Matrix4) : R :=
  n14 m * n23 m * n32 m - n13 m * n24 m * n32 m - n14 m * n22 m * n33 m
  + n12 m * n24 m * n33 m + n13 m * n22 m * n34 m - n12 m * n23 m * n34 m.

Definition invert_det (m : Matrix4) : R :=
  n11 m * invert_t11 m + n21 m * invert_t12 m
  + n31 m * invert_t13 m + n41 m * invert_t14 m.

(** [Matrix4.invert]: the adjugate over the determinant, and the zero matrix
    when the determinant is 0. *)
Definition invert (m : Matrix4) : Matrix4 :=
  let det := invert_det m in
  if Reqb det 0 then zero else
  let detInv := 1 / det in
  let '(mkMatrix4 n11 n12 n13 n14 n21 n22 n23 n24
                  n31 n32 n33 n34 n41 n42 n43 n44) := m in
  mkMatrix4
    (invert_t11 m * detInv)
    (invert_t12 m * detInv)
    (invert_t13 m * detInv)
    (invert_t14 m * detInv)
    ((n24 * n33 * n41 - n23 * n34 * n41 - n24 * n31 * n43
      + n21 * n34 * n43 + n23 * n31 * n44 - n21 * n33 * n44) * detInv)
    ((n13 * n34 * n41 - n14 * n33 * n41 + n14 * n31 * n43
      - n11 * n34 * n43 - n13 * n31 * n44 + n11 * n33 * n44) * detInv)
    ((n14 * n23 * n41 - n13 * n24 * n41 - n14 * n21 * n43
      + n11 * n24 * n43 + n13 * n21 * n44 - n11 * n23 * n44) * detInv)
    ((n13 * n24 * n31 - n14 * n23 * n31 + n14 * n21 * n33
      - n11 * n24 * n33 - n13 * n21 * n34 + n11 * n23 * n34) * detInv)
    ((n22 * n34 * n41 - n24 * n32 * n41 + n24 * n31 * n42
      - n21 * n34 * n42 - n22 * n31 * n44 + n21 * n32 * n44) * detInv)
    ((n14 * n32 * n41 - n12 * n34 * n41 - n14 * n31 * n42
      + n11 * n34 * n42 + n12 * n31 * n44 - n11 * n32 * n44) * detInv)
    ((n12 * n24 * n41 - n14 * n22 * n41 + n14 * n21 * n42
      - n11 * n24 * n42 - n12 * n21 * n44 + n11 * n22 * n44) * detInv)
    ((n14 * n22 * n31 - n12 * n24 * n31 - n14 * n21 * n32
      + n11 * n24 * n32 + n12 * n21 * n34 - n11 * n22 * n34) * detInv)
    ((n23 * n32 * n41 - n22 * n33 * n41 - n23 * n31 * n42
      + n21 * n33 * n42 + n22 * n31 * n43 - n21 * n32 * n43) * detInv)
    ((n12 * n33 * n41 - n13 * n32 * n41 + n13 * n31 * n42
      - n11 * n33 * n42 - n12 * n31 * n43 + n11 * n32 * n43) * detInv)
    ((n13 * n22 * n41 - n12 * n23 * n41 - n13 * n21 * n42
      + n11 * n23 * n42 + n12 * n21 * n43 - n11 * n22 * n43) * detInv)
    ((n12 * n23 * n31 - n13 * n22 * n31 + n13 * n21 * n32
      - n11 * n23 * n32 - n12 * n21 * n33 + n11 * n22 * n33) * detInv).

(** [Matrix4.compose(position, quaternion, scale)]. *)
Definition compose (p : Vector3) (q : Quaternion) (s : Vector3) : Matrix4 :=
  let x2 := qx q + qx q in let y2 := qy q + qy q in let z2 := qz q + qz q in
  let xx := qx q * x2 in let xy := qx q * y2 in let xz := qx q * z2 in
  let yy := qy q * y2 in let yz := qy q * z2 in let zz := qz q * z2 in
  let wx := qw q * x2 in let wy := qw q * y2 in let wz := qw q * z2 in
  mkMatrix4
    ((1 - (yy + zz)) * vx s) ((xy - wz) * vy s) ((xz + wy) * vz s) (vx p)
    ((xy + wz) * vx s) ((1 - (xx + zz)) * vy s) ((yz - wx) * vz s) (vy p)
    ((xz - wy) * vx s) ((yz + wx) * vy s) ((1 - (xx + yy)) * vz s) (vz p)
    0 0 0 1.

Definition makeRotationFromQuaternion (q : Quaternion) : Matrix4 :=
  compose (mkVector3 0 0 0) q (mkVector3 1 1 1).

(** The three outputs of [Matrix4.decompose].

    [decompose] divides the columns of the rotation block by the scales it
    finds.  For a matrix with a zero column three.js divides by zero, and
    NaN enters the quaternion; a division by zero of real numbers has a
    value here, so the definition below follows the code only for matrices
    whose three columns are not zero ([Spec.regularTarget]).  The frames of
    the chain and the flange targets are rigid transforms, with scale 1. *)
Record Decomposed : Type := mkDecomposed {
  position : Vector3; quaternion : Quaternion; scale : Vector3 }.

Definition decompose (m : Matrix4) : Decomposed :=
  let sx0 := length (mkVector3 (n11 m) (n21 m) (n31 m)) in
  let sy := length (mkVector3 (n12 m) (n22 m) (n32 m)) in
  let sz := length (mkVector3 (n13 m) (n23 m) (n33 m)) in
  let sx := if Rltb (determinant m) 0 then - sx0 else sx0 in
  let invSX := 1 / sx in
  let invSY := 1 / sy in
  let invSZ := 1 / sz in
  let m1 := mkMatrix4
    (n11 m * invSX) (n12 m * invSY) (n13 m * invSZ) (n14 m)
    (n21 m * invSX) (n22 m * invSY) (n23 m * invSZ) (n24 m)
    (n31 m * invSX) (n32 m * invSY) (n33 m * invSZ) (n34 m)
    (n41 m) (n42 m) (n43 m) (n44 m) in
  mkDecomposed (setFromMatrixPosition m) (setFromRotationMatrix m1)
               (mkVector3 sx sy sz).

(** [Math.atan2] on reals (there are no signed zeros here). *)
Definition atan2 (y x : R) : R :=
  if Rltb 0 x then atan (y / x)
  else if Rltb x 0 then
    (if Rltb y 0 then atan (y / x) - PI else atan (y / x) + PI)
  else if Rltb 0 y then PI / 2
  else if Rltb y 0 then - (PI / 2)
  else 0.

Definition clamp (v lo hi : R) : R := Rmax lo (Rmin hi v).

(** [Euler.setFromRotationMatrix], order XYZ. *)
Definition eulerFromRotationMatrix (m : Matrix4) : Euler :=
  let y := asin (clamp (n13 m) (-1) 1) in
  if Rltb (Rabs (n13 m)) 0.9999999 then
    mkEuler (atan2 (- n23 m) (n33 m)) y (atan2 (- n12 m) (n11 m))
  else
    mkEuler (atan2 (n32 m) (n22 m)) y 0.

(** [Euler.setFromQuaternion]. *)
Definition eulerFromQuaternion (q : Quaternion) : Euler :=
  eulerFromRotationMatrix (makeRotationFromQuaternion q).

End Three.

(** ** [PoseData] and [RobotGlobalConfig] (the parser's interfaces)

    One interface for the parser, which fills it with numbers read from
    text, and for the kinematics, which computes with it: the number type is
    a parameter. *)

Module Pose.

Record PoseData {num : Type} : Type := mkPose {
  x : num; y : num; z : num;
  a : num;   (* Rotation A (usually Z) *)
  b : num;   (* Rotation B (usually Y) *)
  c : num    (* Rotation C (usually X) *) }.
Arguments PoseData num : clear implicits.
Arguments mkPose {num} x y z a b c.

Record RobotGlobalConfig {num : Type} : Type := mkGlobalConfig {
  world : PoseData num;
  tool : PoseData num }.
Arguments RobotGlobalConfig num : clear implicits.
Arguments mkGlobalConfig {num} world tool.

End Pose.

(** ** [KinematicsService] *)

Module Kinematics.
Import Three.
Import Pose (PoseData).
Local Open Scope R_scope.

Record DHParameterConfig : Type := mkDH {
  d : list R;
  a : list R;
  alpha : list R;
  offsets : list R }.

(** The field initialisers of the class: the configuration of a fresh
    service.  The instance fields [d], [a], [alpha], [jointOffsets] are
    passed to each method as one [DHParameterConfig]. *)
Definition defaultConfig : DHParameterConfig :=
  mkDH [0; 563; -180; 180; 160; 0; 0]
       [0; 220; 900; 0; 1013.5; 200; 0]
       [0; 0; 0; 0; 0; 0; 0]
       [-90; 0; 90; 0; 0; 45; 0].

(** [getDHConfig] and [setDHConfig] copy the four arrays. *)
Definition getDHConfig (this : DHParameterConfig) : DHParameterConfig :=
  mkDH (d this) (a this) (alpha this) (offsets this).

Definition setDHConfig (config : DHParameterConfig) : DHParameterConfig :=
  mkDH (d config) (a config) (alpha config) (offsets config).

(** An array read [arr[i]]; within the array's length. *)
Definition get (arr : list R) (i : nat) : R := nth i arr 0.

Definition getRad (deg : R) : R := deg * (PI / 180).

Definition poseToMatrix (pose : PoseData R) : Matrix4 :=
  let m := identity in
  let translation :=
    makeTranslation (Pose.x pose) (Pose.y pose) (Pose.z pose) in
  let rotA := makeRotationZ (getRad (Pose.a pose)) in
  let rotB := makeRotationY (getRad (Pose.b pose)) in
  let rotC := makeRotationX (getRad (Pose.c pose)) in
  let rotation := multiply (multiply rotA rotB) rotC in
  multiply (multiply m translation) rotation.

Record FlangeTarget : Type := mkFlangeTarget {
  ft_position : Vector3;
  ft_matrix : Matrix4 }.

Definition calculateFlangeTarget
    (point worldOffset toolOffset : PoseData R) : FlangeTarget :=
  let matWorld := poseToMatrix worldOffset in
  let matPoint := poseToMatrix point in
  let matTool := poseToMatrix toolOffset in
  let matTCP := multiply matWorld matPoint in
  let matFlange := multiply matTCP (invert matTool) in
  let position := setFromMatrixPosition matFlange in
  mkFlangeTarget position matFlange.

Inductive Axis : Type := AxisX | AxisY | AxisZ.

Definition applyTransforms (mat : Matrix4) (trans : Vector3)
    (angleDeg : R) (axis : Axis) : Matrix4 :=
  let t := makeTranslation (vx trans) (vy trans) (vz trans) in
  let mat := multiply mat t in
  let rad := getRad angleDeg in
  let r := match axis with
           | AxisX => makeRotationX rad
           | AxisY => makeRotationY rad
           | AxisZ => makeRotationZ rad
           end in
  multiply mat r.

Definition forwardKinematicsChain (this : DHParameterConfig)
    (jointAnglesDeg : list R) : list Matrix4 :=
  let currentMat := identity in
  let jVars := 0 :: jointAnglesDeg in
  (* Link 0 *)
  let m0 := currentMat in
  let m0 := applyTransforms m0 (mkVector3 0 0 (get (d this) 0))
              (get jVars 0 + get (offsets this) 0) AxisZ in
  let m0 := applyTransforms m0 (mkVector3 (get (a this) 0) 0 0)
              (get (alpha this) 0) AxisX in
  (* Link 1 *)
  let m1 := m0 in
  let m1 := applyTransforms m1 (mkVector3 0 0 (get (d this) 1))
              (get jVars 1 + get (offsets this) 1) AxisZ in
  let m1 := applyTransforms m1 (mkVector3 (get (a this) 1) 0 0)
              (get (alpha this) 1) AxisX in
  let m1_adj := multiply m1 (makeRotationX (getRad 90)) in
  (* Link 2 *)
  let m2 := m1_adj in
  let m2 := applyTransforms m2 (mkVector3 0 0 (get (d this) 2))
              (get jVars 2 + get (offsets this) 2) AxisZ in
  let m2 := applyTransforms m2 (mkVector3 (get (a this) 2) 0 0)
              (get (alpha this) 2) AxisX in
  (* Link 3 *)
  let m3 := m2 in
  let m3 := applyTransforms m3 (mkVector3 0 0 (get (d this) 3))
              (get jVars 3 + get (offsets this) 3) AxisZ in
  let m3 := applyTransforms m3 (mkVector3 (get (a this) 3) 0 0)
              (get (alpha this) 3) AxisX in
  let m3_adj := multiply m3 (makeRotationY (getRad 90)) in
  let m3_adj := multiply m3_adj (makeRotationZ (getRad (-90))) in
  (* Link 4.  NOTE: This joint rotates around local X *)
  let m4 := m3_adj in
  let m4 := applyTransforms m4 (mkVector3 0 0 (get (d this) 4))
              (get jVars 4 + get (offsets this) 4) AxisX in
  let m4 := applyTransforms m4 (mkVector3 (get (a this) 4) 0 0)
              (get (alpha this) 4) AxisX in
  let m4_adj := multiply m4 (makeRotationX (getRad (-90))) in
  (* Link 5 *)
  let m5 := m4_adj in
  let m5 := applyTransforms m5 (mkVector3 0 0 (get (d this) 5))
              (get jVars 5 + get (offsets this) 5) AxisZ in
  let m5 := applyTransforms m5 (mkVector3 (get (a this) 5) 0 0)
              (get (alpha this) 5) AxisX in
  let m5_adj := multiply m5 (makeRotationX (getRad (-90))) in
  let m5_adj := multiply m5_adj (makeRotationY (getRad 90)) in
  (* Link 6 *)
  let m6 := m5_adj in
  let m6 := applyTransforms m6 (mkVector3 0 0 (get (d this) 6))
              (get jVars 6 + get (offsets this) 6) AxisZ in
  let m6 := applyTransforms m6 (mkVector3 (get (a this) 6) 0 0)
              (get (alpha this) 6) AxisX in
  (* Tool *)
  let mTool := m6 in
  let mTool := multiply mTool (makeTranslation 0 0 386.63) in
  let mTool := multiply mTool (makeTranslation (-124) 0 0) in
  [m0; m1; m2; m3; m4; m5; m6; mTool].

(** [chain[chain.length - 1]]; an empty chain has no such element (the
    chain built above never is empty). *)
Definition lastFrame (chain : list Matrix4) : Matrix4 :=
  nth (List.length chain - 1) chain identity.

Record EndEffectorPose : Type := mkEndEffectorPose {
  ee_position : Vector3;
  ee_rotation : Euler;
  ee_matrix : Matrix4 }.

Definition getEndEffectorPose (this : DHParameterConfig)
    (jointAnglesDeg : list R) : EndEffectorPose :=
  let chain := forwardKinematicsChain this jointAnglesDeg in
  let endMatrix := lastFrame chain in
  let dec := decompose endMatrix in
  let euler := eulerFromQuaternion (quaternion dec) in
  mkEndEffectorPose (position dec) euler endMatrix.

(** *** Inverse kinematics (Jacobian transpose) *)

(** The number [x] with its fraction dropped, towards zero. *)
Definition trunc (x : R) : Z :=
  if Rle_dec 0 x then Int_part x else (- Int_part (- x))%Z.

(** The remainder operator [u % v] of JavaScript for [v <> 0]: the result
    has the sign of [u] and is smaller than [v] in magnitude. *)
Definition fmod (u v : R) : R := u - v * IZR (trunc (u / v)).

(** The function mapped over the angles on return. *)
Definition normalizeAngle (a : R) : R :=
  let angle := fmod a 360 in
  let angle := if Rltb 180 angle then angle - 360 else angle in
  let angle := if Rltb angle (-180) then angle + 360 else angle in
  angle.

Definition maxIterations : nat := 200.
Definition learningRate : R := 0.5.
Definition posThreshold : R := 0.1.
Definition rotThreshold : R := 0.001.

(** Step 2 of the loop body: the position error and the rotation error of
    the end effector matrix against the decomposed target. *)
Definition errorVectors (targetPos : Vector3) (targetQuat : Quaternion)
    (endEffectorMatrix : Matrix4) : Vector3 * Vector3 :=
  let dec := decompose endEffectorMatrix in
  let currentPos := position dec in
  let currentQuat := quaternion dec in
  let errPos := subVectors targetPos currentPos in
  let errQuat := qmultiply targetQuat (qinvert currentQuat) in
  let errRot := mkVector3 (qx errQuat) (qy errQuat) (qz errQuat) in
  let errRot :=
    if Rltb (qw errQuat) 0 then multiplyScalar errRot (-1) else errRot in
  let errRot := multiplyScalar errRot 2 in
  (errPos, errRot).

(** The convergence check. *)
Definition converged (errPos errRot : Vector3) : bool :=
  Rltb (length errPos) posThreshold && Rltb (length errRot) rotThreshold.

(** Step 3 for one joint [j]: its column of the Jacobian against the
    error. *)
Definition contribution (chain : list Matrix4) (currentPos : Vector3)
    (errPos errRot : Vector3) (j : nat) : R :=
  let pivotIdx := j in
  let pivotMatrix := nth pivotIdx chain identity in
  let pivotPos := setFromMatrixPosition pivotMatrix in
  let pivotRot := setFromRotationMatrix pivotMatrix in
  let localAxis :=
    if Nat.eqb j 3 then mkVector3 1 0 0   (* Joint 4 rotates around X *)
    else mkVector3 0 0 1 in
  let jointAxis := normalize (applyQuaternion localAxis pivotRot) in
  let p_e := subVectors currentPos pivotPos in
  let J_v := crossVectors jointAxis p_e in
  let J_w := jointAxis in
  dot J_v errPos + dot J_w errRot * 100.

(** [arr[j] += v], within the array's length. *)
Fixpoint addAt (arr : list R) (j : nat) (v : R) : list R :=
  match arr, j with
  | [], _ => []
  | h :: t, O => (h + v) :: t
  | h :: t, S j' => h :: addAt t j' v
  end.

(** The inner loop [for (let j = 0; j < 6; j++)]. *)
Definition jacobianStep (chain : list Matrix4) (currentPos : Vector3)
    (errPos errRot : Vector3) (newAngles : list R) : list R :=
  fold_left
    (fun angles j =>
       addAt angles j
         (contribution chain currentPos errPos errRot j
          * learningRate * 0.00005))
    (seq 0 6) newAngles.

(** What a run of the loop leaves: the angles, how many times the body was
    entered (a pass that ends in [break] counts), and whether it ended in
    [break]. *)
Record IKRun : Type := mkIKRun {
  ik_angles : list R;
  ik_iterations : nat;
  ik_break : bool }.

(** The loop [for (let iter = 0; iter < maxIterations; iter++)], with
    [remaining = maxIterations - iter]. *)
Fixpoint ikLoop (this : DHParameterConfig) (targetPos : Vector3)
    (targetQuat : Quaternion) (remaining iter : nat) (newAngles : list R)
    : IKRun :=
  match remaining with
  | O => mkIKRun newAngles iter false
  | S remaining' =>
      let chain := forwardKinematicsChain this newAngles in
      let endEffectorMatrix := lastFrame chain in
      let currentPos := position (decompose endEffectorMatrix) in
      let '(errPos, errRot) :=
        errorVectors targetPos targetQuat endEffectorMatrix in
      if converged errPos errRot then mkIKRun newAngles (S iter) true
      else
        ikLoop this targetPos targetQuat remaining' (S iter)
          (jacobianStep chain currentPos errPos errRot newAngles)
  end.

Definition inverseKinematicsRun (this : DHParameterConfig)
    (targetMatrix : Matrix4) (currentAnglesDeg : list R) : IKRun :=
  let newAngles := currentAnglesDeg in
  let dec := decompose targetMatrix in
  ikLoop this (position dec) (quaternion dec) maxIterations 0 newAngles.

Definition inverseKinematics (this : DHParameterConfig)
    (targetMatrix : Matrix4) (currentAnglesDeg : list R) : list R :=
  map normalizeAngle
    (ik_angles (inverseKinematicsRun this targetMatrix currentAnglesDeg)).

End Kinematics.

(** ** [ParserService]

    Text is a [string] of characters U+0000 to U+00FF (one character per
    [ascii]); the text files of the robot controller stay within it. *)

Module Parser.
Import Pose.
Local Open Scope string_scope.
Local Open Scope char_scope.

(** A number read from text: an exact decimal value, or the NaN of
    [parseFloat]. *)
Inductive number : Type :=
| Num (q : Q)
| NaN.

Definition zeroNum : number := Num 0.

(** *** The string methods and the regular expression *)

(** White space for [\s] and for [trim]: tab, line feed, vertical tab, form
    feed, carriage return, space and the no-break space. *)
Definition isWhiteSpace (ch : ascii) : bool :=
  match nat_of_ascii ch with
  | 9 | 10 | 11 | 12 | 13 | 32 | 160 => true
  | _ => false
  end%nat.

(** [\d] *)
Definition isDigit (ch : ascii) : bool :=
  (48 <=? nat_of_ascii ch)%nat && (nat_of_ascii ch <=? 57)%nat.

(** The class [[-\d.]] *)
Definition isNumChar (ch : ascii) : bool :=
  Ascii.eqb ch "-" || isDigit ch || Ascii.eqb ch ".".

(** Case folding of the flag [i], for the letters a to z. *)
Definition upper (ch : ascii) : ascii :=
  let n := nat_of_ascii ch in
  if ((97 <=? n) && (n <=? 122))%nat then ascii_of_nat (n - 32) else ch.

(** [text.split('\n')] *)
Fixpoint split (text : string) : list string :=
  match text with
  | EmptyString => [EmptyString]
  | String ch rest =>
      if Ascii.eqb ch "010" then EmptyString :: split rest
      else match split rest with
           | line :: lines => String ch line :: lines
           | [] => [String ch EmptyString]
           end
  end.

Fixpoint trimStart (s : string) : string :=
  match s with
  | EmptyString => EmptyString
  | String ch rest => if isWhiteSpace ch then trimStart rest else s
  end.

Fixpoint trimEnd (s : string) : string :=
  match s with
  | EmptyString => EmptyString
  | String ch rest =>
      match trimEnd rest with
      | EmptyString =>
          if isWhiteSpace ch then EmptyString else String ch EmptyString
      | kept => String ch kept
      end
  end.

Definition trim (s : string) : string := trimEnd (trimStart s).

Fixpoint startsWith (s searchString : string) : bool :=
  match searchString, s with
  | EmptyString, _ => true
  | String p searchString', String ch s' =>
      Ascii.eqb p ch && startsWith s' searchString'
  | String _ _, EmptyString => false
  end.

Fixpoint includes (s searchString : string) : bool :=
  startsWith s searchString
  || match s with
     | EmptyString => false
     | String _ s' => includes s' searchString
     end.

(** The key at the head of [text], letters compared without case; what
    follows it.  The key stands for itself in the pattern: every caller
    passes one of the letters x, y, z, a, b, c. *)
Fixpoint matchKey (key text : string) : option string :=
  match key, text with
  | EmptyString, _ => Some text
  | String k key', String ch text' =>
      if Ascii.eqb (upper k) (upper ch) then matchKey key' text' else None
  | String _ _, EmptyString => None
  end.

(** [\s*]: what follows the longest run of white space. *)
Fixpoint skipSpaces (text : string) : string :=
  match text with
  | EmptyString => EmptyString
  | String ch rest => if isWhiteSpace ch then skipSpaces rest else text
  end.

(** [[-\d.]*]: the longest run of characters of the class. *)
Fixpoint takeNumChars (text : string) : string :=
  match text with
  | EmptyString => EmptyString
  | String ch rest =>
      if isNumChar ch then String ch (takeNumChars rest) else EmptyString
  end.

(** The literal [lit] at the head of [text]; what follows it. *)
Fixpoint matchLiteral (lit text : string) : option string :=
  match lit, text with
  | EmptyString, _ => Some text
  | String l lit', String ch text' =>
      if Ascii.eqb l ch then matchLiteral lit' text' else None
  | String _ _, EmptyString => None
  end.

(** A match of [key\s*:=\s*([-\d.]+)] that starts at the head of [text]:
    its group 1.  Each star is followed by a character outside its class,
    so the greedy match is the only one. *)
Definition matchAt (key text : string) : option string :=
  match matchKey key text with
  | None => None
  | Some afterKey =>
      match matchLiteral ":="%string (skipSpaces afterKey) with
      | None => None
      | Some afterOp =>
          match takeNumChars (skipSpaces afterOp) with
          | EmptyString => None
          | group => Some group
          end
      end
  end.

(** [text.match(regex)]: the leftmost match; its group 1. *)
Fixpoint regexMatch (key text : string) : option string :=
  match matchAt key text with
  | Some group => Some group
  | None =>
      match text with
      | EmptyString => None
      | String _ rest => regexMatch key rest
      end
  end.

(** *** [parseFloat] on the text a group holds (signs, digits and dots) *)

Fixpoint takeDigits (s : string) : string :=
  match s with
  | EmptyString => EmptyString
  | String ch rest =>
      if isDigit ch then String ch (takeDigits rest) else EmptyString
  end.

Fixpoint dropDigits (s : string) : string :=
  match s with
  | EmptyString => EmptyString
  | String ch rest => if isDigit ch then dropDigits rest else s
  end.

(** The value of a run of digits read after [acc]. *)
Fixpoint digitsValue (acc : Z) (s : string) : Z :=
  match s with
  | EmptyString => acc
  | String ch rest =>
      digitsValue (10 * acc + (Z.of_nat (nat_of_ascii ch) - 48))%Z rest
  end.

Fixpoint pow10 (n : nat) : positive :=
  match n with
  | O => 1%positive
  | S n' => (10 * pow10 n')%positive
  end.

(** The decimal [whole.frac]. *)
Definition decimalValue (whole frac : string) : Q :=
  Qred (Qmake (digitsValue 0 (whole ++ frac)%string)
              (pow10 (String.length frac))).

(** The longest prefix that is a decimal literal gives the value; no such
    prefix gives NaN. *)
Definition parseFloat (s : string) : number :=
  let '(negative, body) :=
    match s with
    | String "-" rest => (true, rest)
    | _ => (false, s)
    end in
  let whole := takeDigits body in
  let frac :=
    match dropDigits body with
    | String "." rest => takeDigits rest
    | _ => EmptyString
    end in
  match whole, frac with
  | EmptyString, EmptyString => NaN
  | _, _ =>
      let v := decimalValue whole frac in
      Num (if negative then Qred (- v) else v)
  end.

(** *** The service *)

Definition defaultPose : PoseData number :=
  mkPose zeroNum zeroNum zeroNum zeroNum zeroNum zeroNum.

Definition parseKeyValue (text key : string) : option number :=
  match regexMatch key text with
  | Some group => Some (parseFloat group)
  | None => None
  end.

(** [v ?? 0] *)
Definition orZero (v : option number) : number :=
  match v with
  | Some n => n
  | None => zeroNum
  end.

Definition parseLineToPose (line : string) : PoseData number :=
  mkPose (orZero (parseKeyValue line "x"%string))
         (orZero (parseKeyValue line "y"%string))
         (orZero (parseKeyValue line "z"%string))
         (orZero (parseKeyValue line "a"%string))
         (orZero (parseKeyValue line "b"%string))
         (orZero (parseKeyValue line "c"%string)).

(** The tests of the two branches of the loop of [parseGlobalVars]. *)
Definition isWorldLine (line : string) : bool :=
  startsWith (trim line) "world1"%string.

Definition isToolLine (line : string) : bool :=
  startsWith (trim line) "tool1"%string.

(** The body of that loop. *)
Definition globalVarsStep (config : RobotGlobalConfig number) (line : string)
    : RobotGlobalConfig number :=
  if isWorldLine line then
    mkGlobalConfig (parseLineToPose line) (tool config)
  else if isToolLine line then
    mkGlobalConfig (world config) (parseLineToPose line)
  else config.

Definition parseGlobalVars (text : string) : RobotGlobalConfig number :=
  let config := mkGlobalConfig defaultPose defaultPose in
  let lines := split text in
  fold_left globalVarsStep lines config.

(** The test of the loop of [parseTrajectory]. *)
Definition isWaypoint (line : string) : bool :=
  includes line "CARTPOS"%string && includes line "x :="%string.

Definition parseTrajectory (text : string) : list (PoseData number) :=
  let points : list (PoseData number) := [] in
  let lines := split text in
  fold_left
    (fun (points : list (PoseData number)) line =>
       (* Look for lines defining CARTPOS, typically starting with "cp..." *)
       if isWaypoint line then (points ++ [parseLineToPose line])%list
       else points)
    lines points.

End Parser.

(** ** The application: playback and path generators *)

Module App.
Import Three.
Import Kinematics.
Local Open Scope R_scope.

(** [Math.sign] *)
Definition sign (u : R) : R :=
  if Rltb 0 u then 1 else if Rltb u 0 then -1 else 0.

(** *** [TrajectoryPlayer]

    The component's frame callback, as a function of what it reads (the
    queue, the current angles, the frame's [delta]) to what it leaves: the
    queue after [queue.shift()], the angles given to [setAngles], and
    whether [onFinished] was called. *)

Record PlayerState : Type := mkPlayerState {
  queue : list (list R);
  currentAngles : list R }.

(** The callback of [currentAngles.map], with the variable [reached] it
    assigns passed through. *)
Definition stepJoint (target : list R) (speed : R) (reached : bool)
    (curr : R) (i : nat) : R * bool :=
  let diff := get target i - curr in
  if Rltb 0.1 (Rabs diff) then
    (curr + sign diff * Rmin (Rabs diff) speed, false)
  else (get target i, reached).

(** [currentAngles.map(...)] from index [i] on. *)
Fixpoint mapJoints (target : list R) (speed : R) (i : nat) (reached : bool)
    (angles : list R) : list R * bool :=
  match angles with
  | [] => ([], reached)
  | curr :: rest =>
      let '(next, reached) := stepJoint target speed reached curr i in
      let '(nexts, reached) := mapJoints target speed (S i) reached rest in
      (next :: nexts, reached)
  end.

Definition tick (delta : R) (st : PlayerState) : PlayerState * bool :=
  match queue st with
  | [] => (st, false)
  | target :: rest =>
      let reached := true in
      let speed := 120.0 * delta in
      let '(nextAngles, reached) :=
        mapJoints target speed 0 reached (currentAngles st) in
      if reached then
        (mkPlayerState rest nextAngles,
         match rest with [] => true | _ :: _ => false end)
      else (mkPlayerState (queue st) nextAngles, false)
  end.

(** *** [generateTrajectoryPoints]

    The value is the list given to [setAngleQueue] at the end. *)

Inductive TrajectoryType : Type := Line | SCurve | Spiral.

Definition steps : nat := 60.

(** The helper [addPt], with the two variables it updates, [solutions] and
    [currentSeed], passed through. *)
Definition addPt (dh : DHParameterConfig) (startQuat : Quaternion)
    (acc : list (list R) * list R) (pos : Vector3)
    : list (list R) * list R :=
  let '(solutions, currentSeed) := acc in
  let mat := compose pos startQuat (mkVector3 1 1 1) in
  let sol := inverseKinematics dh mat currentSeed in
  (solutions ++ [sol], sol).

(** The point of step [i] of each path. *)
Definition pathPoint (type : TrajectoryType) (startPos : Vector3)
    (i : nat) : Vector3 :=
  match type with
  | Line =>
      let endPos :=
        mkVector3 (vx startPos + 500) (vy startPos) (vz startPos) in
      lerpVectors startPos endPos (INR i / INR steps)
  | SCurve =>
      let z := vz startPos in
      let centerX := vx startPos in
      let centerY := vy startPos in
      let t := INR i / 20 in
      mkVector3 (centerX + sin t * 200) (centerY + INR i * 10) z
  | Spiral =>
      let centerX := 1200 in
      let centerY := 0 in
      let startZ := 800 in
      let angle := INR i * 0.1 in
      let radius := 200 + INR i * 2 in
      mkVector3 (centerX + cos angle * radius)
                (centerY + sin angle * radius)
                (startZ + INR i * 5)
  end.

(** The bound of the loop [for (let i = 0; i <= last; i++)]. *)
Definition lastStep (type : TrajectoryType) : nat :=
  match type with
  | Line => steps
  | SCurve => steps * 2
  | Spiral => steps * 3
  end.

Definition generateTrajectoryPoints (dh : DHParameterConfig)
    (jointAngles : list R) (type : TrajectoryType) : list (list R) :=
  let startPose := getEndEffectorPose dh jointAngles in
  let startPos := ee_position startPose in
  let startQuat := setFromEuler (ee_rotation startPose) in
  let solutions : list (list R) := [] in
  let currentSeed := jointAngles in
  fst (fold_left
         (fun acc i => addPt dh startQuat acc (pathPoint type startPos i))
         (seq 0 (S (lastStep type)))
         (solutions, currentSeed)).

End App.

(** ** The specification's side of the comparison

    The definitions of this module follow the words of the specification (the
    data model, the forward kinematics algorithm and the pose matrix); the
    theorems compare them with the program above. *)

Module Spec.
Import Three.
Import Kinematics.
Local Open Scope R_scope.

(** A DH parameter set has four sequences of length 7. *)
Definition DHParameterSet (dh : DHParameterConfig) : Prop :=
  List.length (d dh) = 7%nat /\ List.length (a dh) = 7%nat /\
  List.length (alpha dh) = 7%nat /\ List.length (offsets dh) = 7%nat.

(** A joint angle vector has 6 angles. *)
Definition JointAngleVector (angles : list R) : Prop :=
  List.length angles = 6%nat.

(** *** Forward kinematics, as the algorithm of the specification *)

Definition translate (tx ty tz : R) : Matrix4 := makeTranslation tx ty tz.

Definition rotate (axis : Axis) (deg : R) : Matrix4 :=
  match axis with
  | AxisX => makeRotationX (getRad deg)
  | AxisY => makeRotationY (getRad deg)
  | AxisZ => makeRotationZ (getRad deg)
  end.

(** Step 1: 0 for stage 0, else [jointAngles[i-1]]. *)
Definition commandedAngle (jointAngles : list R) (i : nat) : R :=
  match i with
  | O => 0
  | S k => get jointAngles k
  end.

(** Step 2: local Z for every stage except stage 4, which is local X. *)
Definition rotationAxis (i : nat) : Axis :=
  if Nat.eqb i 4 then AxisX else AxisZ.

(** Step 3: the four transforms of stage [i], applied to the running
    transform in order. *)
Definition stage (dh : DHParameterConfig) (jointAngles : list R)
    (running : Matrix4) (i : nat) : Matrix4 :=
  let m := multiply running (translate 0 0 (get (d dh) i)) in
  let m := multiply m (rotate (rotationAxis i)
                         (commandedAngle jointAngles i
                          + get (offsets dh) i)) in
  let m := multiply m (translate (get (a dh) i) 0 0) in
  multiply m (rotate AxisX (get (alpha dh) i)).

(** Step 5: the fixed corrective rotations after stages 1, 3, 4 and 5. *)
Definition correctiveRotations (i : nat) : list (Axis * R) :=
  match i with
  | 1%nat => [(AxisX, 90)]
  | 3%nat => [(AxisY, 90); (AxisZ, -90)]
  | 4%nat => [(AxisX, -90)]
  | 5%nat => [(AxisX, -90); (AxisY, 90)]
  | _ => []
  end.

Definition correct (running : Matrix4) (i : nat) : Matrix4 :=
  fold_left (fun m r => multiply m (rotate (fst r) (snd r)))
            (correctiveRotations i) running.

(** Steps 1 to 5 over the stages listed: each frame is recorded (step 4)
    before the correction that prepares the next stage. *)
Fixpoint stageFrames (dh : DHParameterConfig) (jointAngles : list R)
    (running : Matrix4) (stages : list nat) : list Matrix4 :=
  match stages with
  | [] => []
  | i :: rest =>
      let frame := stage dh jointAngles running i in
      frame :: stageFrames dh jointAngles (correct frame i) rest
  end.

(** Step 6: the tool flange offset. *)
Definition toolOffsetZ : R := 386.63.
Definition toolOffsetX : R := 124.

Definition toolFrame (frame6 : Matrix4) : Matrix4 :=
  multiply (multiply frame6 (translate 0 0 toolOffsetZ))
           (translate (- toolOffsetX) 0 0).

Definition forwardKinematics (dh : DHParameterConfig)
    (jointAngles : list R) : list Matrix4 :=
  let frames := stageFrames dh jointAngles identity (seq 0 7) in
  frames ++ [toolFrame (nth 6 frames identity)].

(** *** The pose matrix T = Translate(x,y,z) . Rz(a) . Ry(b) . Rx(c) *)

Definition poseMatrix (p : Pose.PoseData R) : Matrix4 :=
  multiply
    (multiply
       (multiply (translate (Pose.x p) (Pose.y p) (Pose.z p))
                 (rotate AxisZ (Pose.a p)))
       (rotate AxisY (Pose.b p)))
    (rotate AxisX (Pose.c p)).

(** *** Playback: the band of 0.1 degrees around a target angle *)

Definition inBand (target curr : R) : Prop := Rabs (target - curr) <= 0.1.

(** *** Seed chaining: each point is solved from the solution before it,
    the first from [seed] *)

Fixpoint seedChain (solve : Vector3 -> list R -> list R) (seed : list R)
    (points : list Vector3) : list (list R) :=
  match points with
  | [] => []
  | p :: rest => solve p seed :: seedChain solve (solve p seed) rest
  end.

(** One more point solved and appended, for a solver [solve]. *)
Definition chainStep (solve : Vector3 -> list R -> list R)
    (acc : list (list R) * list R) (pos : Vector3) : list (list R) * list R :=
  (fst acc ++ [solve pos (snd acc)], solve pos (snd acc)).

Definition zeroVector : Vector3 := mkVector3 0 0 0.

(** *** Targets the solver can decompose

    A target of [inverseKinematics] is regular when each of the three
    columns of its rotation block has an entry that is not 0: these are the
    matrices of finite numbers for which [Matrix4.decompose] divides by no
    zero scale.  (Entries are real numbers here, so they are finite.) *)
Definition regularTarget (m : Matrix4) : Prop :=
  (n11 m <> 0 \/ n21 m <> 0 \/ n31 m <> 0) /\
  (n12 m <> 0 \/ n22 m <> 0 \/ n32 m <> 0) /\
  (n13 m <> 0 \/ n23 m <> 0 \/ n33 m <> 0).

End Spec.

(** ** The two grammars, in the words of the specification *)

Module Grammar.
Import Parser.
Local Open Scope string_scope.

(** [s] has [sub] as a substring. *)
Definition contains (s sub : string) : Prop :=
  exists pre post, s = pre ++ sub ++ post.

(** A waypoint record: a line with the substrings CARTPOS and [x :=]. *)
Definition waypointLine (line : string) : Prop :=
  contains line "CARTPOS" /\ contains line "x :=".

(** Every character of [s] satisfies [p]. *)
Fixpoint allOf (p : ascii -> bool) (s : string) : bool :=
  match s with
  | EmptyString => true
  | String ch rest => p ch && allOf p rest
  end.

(** The same letters up to case. *)
Fixpoint sameLetters (key k : string) : bool :=
  match key, k with
  | EmptyString, EmptyString => true
  | String u key', String v k' =>
      Ascii.eqb (upper u) (upper v) && sameLetters key' k'
  | _, _ => false
  end.


End Grammar.

(** ** Further parts of the application *)

(** The trajectory file loop of [handleFilesLoaded].

    The loop works on what the parser returns, so a number may be NaN.  The
    kinematics is modelled on real numbers; a value in which every number
    is NaN is [None] here:
    - a NaN in the waypoint, the world offset or the tool offset makes every
      entry of the flange matrix NaN, and so its position: each entry of a
      matrix product is a sum over a row and a column, a product with NaN
      is NaN also when the other factor is 0, and the last product, with
      the inverse of the tool matrix, takes every column into every entry;
    - with a NaN target or a NaN seed the error vectors of
      [inverseKinematics] are NaN, the convergence test fails in every
      pass and every angle gets a NaN update: all six angles returned are
      NaN. *)
Module FileImport.
Import Three.
Import Kinematics.
Local Open Scope R_scope.

(** A number of the parser as a real number; [None] for NaN. *)
Definition realNumber (n : Parser.number) : option R :=
  match n with
  | Parser.Num q => Some (Q2R q)
  | Parser.NaN => None
  end.

(** A pose of the parser as a pose of real numbers; [None] when one of its
    six numbers is NaN. *)
Definition realPose (p : Pose.PoseData Parser.number)
    : option (Pose.PoseData R) :=
  match realNumber (Pose.x p), realNumber (Pose.y p), realNumber (Pose.z p),
        realNumber (Pose.a p), realNumber (Pose.b p), realNumber (Pose.c p)
  with
  | Some x, Some y, Some z, Some a, Some b, Some c =>
      Some (Pose.mkPose x y z a b c)
  | _, _, _, _, _, _ => None
  end.

(** [kinematics.calculateFlangeTarget(pt, config.world, config.tool)] *)
Definition flangeTarget (config : Pose.RobotGlobalConfig Parser.number)
    (pt : Pose.PoseData Parser.number) : option FlangeTarget :=
  match realPose pt, realPose (Pose.world config),
        realPose (Pose.tool config) with
  | Some point, Some worldOffset, Some toolOffset =>
      Some (calculateFlangeTarget point worldOffset toolOffset)
  | _, _, _ => None
  end.

(** [kinematics.inverseKinematics(result.matrix, currentSeed)] *)
Definition solveFrom (dh : DHParameterConfig) (result : option FlangeTarget)
    (currentSeed : option (list R)) : option (list R) :=
  match result, currentSeed with
  | Some result, Some currentSeed =>
      Some (inverseKinematics dh (ft_matrix result) currentSeed)
  | _, _ => None
  end.

(** The body of the loop of [processFiles] over the waypoints of a
    trajectory file, with the three variables it updates, [baseTargets],
    [solutions] and [currentSeed], passed through. *)
Definition solveStep (dh : DHParameterConfig)
    (config : Pose.RobotGlobalConfig Parser.number)
    (acc : list (option Vector3) * list (option (list R)) * option (list R))
    (pt : Pose.PoseData Parser.number)
    : list (option Vector3) * list (option (list R)) * option (list R) :=
  let '(baseTargets, solutions, currentSeed) := acc in
  let result := flangeTarget config pt in
  (* Solve IK with better precision logic implicitly via service update *)
  let sol := solveFrom dh result currentSeed in
  (baseTargets ++ [option_map ft_position result], solutions ++ [sol], sol).

(** The loop ([step] is 1, so every waypoint is visited): the lists given
    to [setImportedTrajectory] and to [setAngleQueue]. *)
Definition solveImported (dh : DHParameterConfig) (jointAngles : list R)
    (config : Pose.RobotGlobalConfig Parser.number)
    (points : list (Pose.PoseData Parser.number))
    : list (option Vector3) * list (option (list R)) :=
  let baseTargets : list (option Vector3) := [] in
  let solutions : list (option (list R)) := [] in
  let currentSeed := Some jointAngles in
  fst (fold_left (solveStep dh config) points
         (baseTargets, solutions, currentSeed)).

End FileImport.

(** The effect of the application that records the trail of the end
    effector. *)
Module Trail.
Import Three.
Local Open Scope R_scope.

(** [Vector3.distanceTo] *)
Definition distanceTo (u v : Vector3) : R :=
  let dx := vx u - vx v in
  let dy := vy u - vy v in
  let dz := vz u - vz v in
  sqrt (dx * dx + dy * dy + dz * dz).

(** What the effect works on: the state variable [trajectory] and the ref
    [lastPointRef]. *)
Record TrailState : Type := mkTrailState {
  trajectory : list Vector3;
  lastPointRef : option Vector3 }.

(** One run of the effect, with [currentPos] the position of the end
    effector; the update function given to [setTrajectory] is applied to
    the trajectory at hand. *)
Definition trailEffect (showTrail : bool) (st : TrailState)
    (currentPos : Vector3) : TrailState :=
  if negb showTrail then
    mkTrailState
      (if (0 <? List.length (trajectory st))%nat then [] else trajectory st)
      (lastPointRef st)
  else
    (* Optimize trail: only add if moved > 5mm *)
    if match lastPointRef st with
       | None => true
       | Some lastPoint => Rltb 5 (distanceTo lastPoint currentPos)
       end
    then
      let next := trajectory st ++ [currentPos] in
      let next := if (3000 <? List.length next)%nat then tl next else next in
      mkTrailState next (Some currentPos)
    else st.

End Trail.

(** The control panel (src/components/ControlPanel.tsx). *)
Module Panel.
Import Kinematics.
Local Open Scope R_scope.

(** The keys of [DHParameterConfig]. *)
Inductive DHArrayName : Type := ArrayD | ArrayA | ArrayAlpha | ArrayOffsets.

(** [dhParams[arrayName]] *)
Definition dhArray (config : DHParameterConfig) (name : DHArrayName)
    : list R :=
  match name with
  | ArrayD => d config
  | ArrayA => a config
  | ArrayAlpha => alpha config
  | ArrayOffsets => offsets config
  end.

(** [arr[index] = v] for an index within the array.  Past the end
    JavaScript makes the array longer; the fields of the panel are built
    from the array's own indices, and the theorem on [updateDH] carries the
    bound on the index. *)
Fixpoint setAt (arr : list R) (index : nat) (v : R) : list R :=
  match arr, index with
  | [], _ => []
  | _ :: t, O => v :: t
  | h :: t, S i => h :: setAt t i v
  end.

(** [updateDH]: the configuration given to [setDhParams], or the
    configuration as it was when the function returns early.  The number
    [parseFloat(value)] is the argument [num], with [None] for NaN. *)
Definition updateDH (dhParams : DHParameterConfig) (arrayName : DHArrayName)
    (index : nat) (num : option R) : DHParameterConfig :=
  match num with
  | None => dhParams
  | Some num =>
      let updated := setAt (dhArray dhParams arrayName) index num in
      match arrayName with
      | ArrayD =>
          mkDH updated (a dhParams) (alpha dhParams) (offsets dhParams)
      | ArrayA =>
          mkDH (d dhParams) updated (alpha dhParams) (offsets dhParams)
      | ArrayAlpha =>
          mkDH (d dhParams) (a dhParams) updated (offsets dhParams)
      | ArrayOffsets =>
          mkDH (d dhParams) (a dhParams) (alpha dhParams) updated
      end
  end.

End Panel.

(** ** Further notions for the statements *)

Module Notions.
Import Three.
Import Kinematics.
Local Open Scope R_scope.

(** The last row of the matrix is 0 0 0 1. *)
Definition affine (m : Matrix4) : Prop :=
  n41 m = 0 /\ n42 m = 0 /\ n43 m = 0 /\ n44 m = 1.

(** The columns of the upper left 3x3 block have length 1 and are
    perpendicular to each other. *)
Definition orthonormal (m : Matrix4) : Prop :=
  n11 m * n11 m + n21 m * n21 m + n31 m * n31 m = 1 /\
  n12 m * n12 m + n22 m * n22 m + n32 m * n32 m = 1 /\
  n13 m * n13 m + n23 m * n23 m + n33 m * n33 m = 1 /\
  n11 m * n12 m + n21 m * n22 m + n31 m * n32 m = 0 /\
  n11 m * n13 m + n21 m * n23 m + n31 m * n33 m = 0 /\
  n12 m * n13 m + n22 m * n23 m + n32 m * n33 m = 0.

(** A rigid transform: a rotation and a translation, no scale and no
    mirror. *)
Definition rigid (m : Matrix4) : Prop :=
  affine m /\ orthonormal m /\ determinant m = 1.


(** The pose with every component 0. *)
Definition zeroPose : Pose.PoseData R := Pose.mkPose 0 0 0 0 0 0.

(** Seed chaining over items and solutions of any kind. *)
Fixpoint chainOf {A Sol : Type} (solve : A -> Sol -> Sol) (seed : Sol)
    (items : list A) : list Sol :=
  match items with
  | [] => []
  | p :: rest => solve p seed :: chainOf solve (solve p seed) rest
  end.

(** One more item: its base target appended, and its solution from the
    seed. *)
Definition genericStep {A B Sol : Type} (base : A -> B)
    (solve : A -> Sol -> Sol) (acc : list B * list Sol * Sol) (pt : A)
    : list B * list Sol * Sol :=
  (fst (fst acc) ++ [base pt], snd (fst acc) ++ [solve pt (snd acc)],
   solve pt (snd acc)).

(** The solutions of the import loop as a chain of seeds. *)
Definition importSolutions (dh : DHParameterConfig) (jointAngles : list R)
    (config : Pose.RobotGlobalConfig Parser.number)
    (points : list (Pose.PoseData Parser.number)) : list (option (list R)) :=
  chainOf
    (fun p s =>
       FileImport.solveFrom dh (FileImport.flangeTarget config p) s)
    (Some jointAngles) points.

(** A number that is not NaN; a pose and a configuration of such
    numbers. *)
Definition isNumber (n : Parser.number) : bool :=
  match n with
  | Parser.Num _ => true
  | Parser.NaN => false
  end.

Definition finitePose (p : Pose.PoseData Parser.number) : bool :=
  isNumber (Pose.x p) && isNumber (Pose.y p) && isNumber (Pose.z p)
  && isNumber (Pose.a p) && isNumber (Pose.b p) && isNumber (Pose.c p).

Definition finiteConfig (config : Pose.RobotGlobalConfig Parser.number)
    : bool :=
  finitePose (Pose.world config) && finitePose (Pose.tool config).

(** [n] frames of playback, each with the same [delta]. *)
Fixpoint ticks (n : nat) (delta : R) (st : App.PlayerState)
    : App.PlayerState :=
  match n with
  | O => st
  | S n' => ticks n' delta (fst (App.tick delta st))
  end.

(** What the trail effect keeps: at most 3000 points, the last of them the
    point the ref holds. *)
Definition trailInvariant (st : Trail.TrailState) : Prop :=
  (List.length (Trail.trajectory st) <= 3000)%nat /\
  (Trail.trajectory st = [] \/
   exists front p, Trail.trajectory st = front ++ [p] /\
                   Trail.lastPointRef st = Some p).

End Notions.

Module TextNotions.
Import Parser.
Local Open Scope string_scope.

(** The decimal digits of a natural number. *)
Definition showNat (n : nat) : string :=
  DecimalString.NilEmpty.string_of_uint (Nat.to_uint n).

(** The decimal text of an integer. *)
Definition showZ (v : Z) : string :=
  if (v <? 0)%Z then String "-" (showNat (Z.abs_nat v))
  else showNat (Z.abs_nat v).

(** The text with its letters a to z in upper case. *)
Fixpoint upperString (s : string) : string :=
  match s with
  | EmptyString => EmptyString
  | String ch rest => String (upper ch) (upperString rest)
  end.

(** A pose with whole numbers as a line of a file writes it. *)
Definition showPose (p : Pose.PoseData Z) : string :=
  "x := " ++ showZ (Pose.x p) ++ ", y := " ++ showZ (Pose.y p)
  ++ ", z := " ++ showZ (Pose.z p) ++ ", a := " ++ showZ (Pose.a p)
  ++ ", b := " ++ showZ (Pose.b p) ++ ", c := " ++ showZ (Pose.c p).

(** The same pose as the parser returns it. *)
Definition numPose (p : Pose.PoseData Z) : Pose.PoseData number :=
  Pose.mkPose (Num (Pose.x p # 1)) (Num (Pose.y p # 1)) (Num (Pose.z p # 1))
              (Num (Pose.a p # 1)) (Num (Pose.b p # 1)) (Num (Pose.c p # 1)).

(** What follows a number in a text: nothing, or a character that cannot
    continue it. *)
Definition endsNumber (rest : string) : bool :=
  match rest with
  | EmptyString => true
  | String ch _ => negb (isNumChar ch)
  end.

(** A key letter followed by [rest] starts no assignment: [rest] begins
    with a character that is neither white space nor a colon. *)
Definition blocksKey (rest : string) : bool :=
  match rest with
  | EmptyString => false
  | String ch _ => negb (isWhiteSpace ch) && negb (Ascii.eqb ":" ch)
  end.

(** No assignment to the key [k] starts inside [s]: each occurrence of the
    letter, in either case, is followed in [s] by a blocking character. *)
Fixpoint safeFor (k : ascii) (s : string) : bool :=
  match s with
  | EmptyString => true
  | String ch rest =>
      (negb (Ascii.eqb (upper k) (upper ch)) || blocksKey rest)
      && safeFor k rest
  end.

(** No assignment to one of the six keys starts inside [s]. *)
Definition keyFree (s : string) : bool :=
  safeFor "x" s && safeFor "y" s && safeFor "z" s
  && safeFor "a" s && safeFor "b" s && safeFor "c" s.

Definition notNewline (ch : ascii) : bool := negb (Ascii.eqb ch "010").

(** [lines.join('\n')] *)
Fixpoint joinLines (lines : list string) : string :=
  match lines with
  | [] => EmptyString
  | [l] => l
  | l :: rest => l ++ String "010" (joinLines rest)
  end.











(** A file of global variables: a world1 line and a tool1 line. *)
Definition writeGlobalVars (world tool : Pose.PoseData Z) : string :=
  "world1 " ++ showPose world ++ String "010" ("tool1 " ++ showPose tool).

End TextNotions.

(** * Theorems *)

(** ** Real numbers and matrices *)

Module MatrixFacts.
Import Three.
Local Open Scope R_scope.

Lemma Rltb_true (u v : R) : u < v -> Rltb u v = true.
Proof.
  intros H. unfold Rltb. destruct (Rlt_dec u v); [reflexivity|contradiction].
Qed.

Lemma Rltb_false (u v : R) : v <= u -> Rltb u v = false.
Proof. intros H. unfold Rltb. destruct (Rlt_dec u v); [lra|reflexivity]. Qed.

Lemma Reqb_false (u v : R) : u <> v -> Reqb u v = false.
Proof.
  intros H. unfold Reqb. destruct (Req_dec_T u v); [contradiction|reflexivity].
Qed.

Lemma Matrix4_ext (p q : Matrix4) :
  n11 p = n11 q -> n12 p = n12 q -> n13 p = n13 q -> n14 p = n14 q ->
  n21 p = n21 q -> n22 p = n22 q -> n23 p = n23 q -> n24 p = n24 q ->
  n31 p = n31 q -> n32 p = n32 q -> n33 p = n33 q -> n34 p = n34 q ->
  n41 p = n41 q -> n42 p = n42 q -> n43 p = n43 q -> n44 p = n44 q ->
  p = q.
Proof. destruct p, q; cbn; intros; subst; reflexivity. Qed.

(** Equality of two matrices entry by entry, each entry by [tac]. *)
Tactic Notation "matrix_eq" tactic(tac) :=
  apply Matrix4_ext;
  cbn [multiply identity n11 n12 n13 n14 n21 n22 n23 n24
       n31 n32 n33 n34 n41 n42 n43 n44];
  tac.

Lemma multiply_identity_l (m : Matrix4) : multiply identity m = m.
Proof. destruct m. matrix_eq ring. Qed.

Lemma multiply_assoc (p q r : Matrix4) :
  multiply (multiply p q) r = multiply p (multiply q r).
Proof. destruct p, q, r. matrix_eq ring. Qed.

(** [Matrix4.invert] gives the inverse on both sides whenever the
    determinant it computes is not 0. *)
Lemma invert_right (m : Matrix4) :
  invert_det m <> 0 -> multiply m (invert m) = identity.
Proof.
  intros Hd. unfold invert. rewrite (Reqb_false _ _ Hd).
  destruct m.
  unfold invert_det, invert_t11, invert_t12, invert_t13, invert_t14 in *.
  cbn [n11 n12 n13 n14 n21 n22 n23 n24 n31 n32 n33 n34 n41 n42 n43 n44] in *.
  matrix_eq (field; exact Hd).
Qed.

Lemma invert_left (m : Matrix4) :
  invert_det m <> 0 -> multiply (invert m) m = identity.
Proof.
  intros Hd. unfold invert. rewrite (Reqb_false _ _ Hd).
  destruct m.
  unfold invert_det, invert_t11, invert_t12, invert_t13, invert_t14 in *.
  cbn [n11 n12 n13 n14 n21 n22 n23 n24 n31 n32 n33 n34 n41 n42 n43 n44] in *.
  matrix_eq (field; exact Hd).
Qed.


Lemma length_zeroVector : length Spec.zeroVector = 0.
Proof.
  unfold length, Spec.zeroVector; cbn [vx vy vz].
  replace (0 * 0 + 0 * 0 + 0 * 0) with 0 by ring. apply sqrt_0.
Qed.

End MatrixFacts.

(** ** The kinematics service *)

Module KinematicsFacts.
Import Three.
Import Kinematics.
Import MatrixFacts.
Local Open Scope R_scope.

(** *** Pose matrices and the flange target *)

Lemma poseToMatrix_spec (p : Pose.PoseData R) :
  poseToMatrix p = Spec.poseMatrix p.
Proof.
  unfold poseToMatrix, Spec.poseMatrix, Spec.translate, Spec.rotate.
  rewrite multiply_identity_l. now rewrite !multiply_assoc.
Qed.

(** A pose matrix is a rigid transform: its determinant is 1. *)
Lemma poseToMatrix_det (p : Pose.PoseData R) : invert_det (poseToMatrix p) = 1.
Proof.
  unfold poseToMatrix. rewrite multiply_identity_l.
  unfold makeTranslation, makeRotationX, makeRotationY, makeRotationZ.
  generalize (sin2_cos2 (getRad (Pose.a p))) (sin2_cos2 (getRad (Pose.b p)))
             (sin2_cos2 (getRad (Pose.c p))).
  generalize (sin (getRad (Pose.a p))) (cos (getRad (Pose.a p)))
             (sin (getRad (Pose.b p))) (cos (getRad (Pose.b p)))
             (sin (getRad (Pose.c p))) (cos (getRad (Pose.c p))).
  intros sa ca sb cb sc cc Ha Hb Hc. unfold Rsqr in *.
  unfold invert_det, invert_t11, invert_t12, invert_t13, invert_t14.
  cbn [multiply n11 n12 n13 n14 n21 n22 n23 n24
       n31 n32 n33 n34 n41 n42 n43 n44].
  transitivity ((sa * sa + ca * ca) * (sb * sb + cb * cb) * (sc * sc + cc * cc)).
  - ring.
  - rewrite Ha, Hb, Hc. ring.
Qed.

(** C6.  For all poses, [calculateFlangeTarget] returns the matrix
    M(world) . M(waypoint) . M(tool)^-1, with M(p) = Translate(x,y,z) .
    Rz(a) . Ry(b) . Rx(c) and M(tool)^-1 the inverse of M(tool) on both
    sides, and as position the translation part of that matrix. *)
Theorem calculateFlangeTarget_spec
    (point worldOffset toolOffset : Pose.PoseData R) :
  exists toolInverse : Matrix4,
    multiply (Spec.poseMatrix toolOffset) toolInverse = identity /\
    multiply toolInverse (Spec.poseMatrix toolOffset) = identity /\
    ft_matrix (calculateFlangeTarget point worldOffset toolOffset)
    = multiply
        (multiply (Spec.poseMatrix worldOffset) (Spec.poseMatrix point))
        toolInverse /\
    ft_position (calculateFlangeTarget point worldOffset toolOffset)
    = mkVector3
        (n14 (ft_matrix (calculateFlangeTarget point worldOffset toolOffset)))
        (n24 (ft_matrix (calculateFlangeTarget point worldOffset toolOffset)))
        (n34 (ft_matrix (calculateFlangeTarget point worldOffset toolOffset))).
Proof.
  assert (Hd : invert_det (poseToMatrix toolOffset) <> 0)
    by (rewrite poseToMatrix_det; lra).
  exists (invert (poseToMatrix toolOffset)).
  rewrite <- !poseToMatrix_spec.
  split; [now apply invert_right|].
  split; [now apply invert_left|].
  split; reflexivity.
Qed.

(** *** Forward kinematics *)

Lemma commandedAngle_jVars (jointAngles : list R) (i : nat) :
  get (0 :: jointAngles) i = Spec.commandedAngle jointAngles i.
Proof. destruct i; reflexivity. Qed.

Lemma applyTransforms_unfold (m : Matrix4) (tx ty tz deg : R) (ax : Axis) :
  applyTransforms m (mkVector3 tx ty tz) deg ax
  = multiply (multiply m (Spec.translate tx ty tz)) (Spec.rotate ax deg).
Proof. destruct ax; reflexivity. Qed.

Lemma stage_applyTransforms dh jointAngles running (i : nat) :
  Spec.stage dh jointAngles running i
  = applyTransforms
      (applyTransforms running (mkVector3 0 0 (get (d dh) i))
         (get (0 :: jointAngles) i + get (offsets dh) i)
         (Spec.rotationAxis i))
      (mkVector3 (get (a dh) i) 0 0) (get (alpha dh) i) AxisX.
Proof.
  unfold Spec.stage. rewrite !applyTransforms_unfold.
  now rewrite commandedAngle_jVars.
Qed.

Lemma forwardKinematicsChain_spec dh (jointAngles : list R) :
  forwardKinematicsChain dh jointAngles = Spec.forwardKinematics dh jointAngles.
Proof.
  unfold Spec.forwardKinematics. cbn [seq Spec.stageFrames].
  rewrite !stage_applyTransforms.
  unfold Spec.correct. cbn [Spec.correctiveRotations fold_left fst snd].
  cbn [nth app Spec.rotationAxis Nat.eqb].
  unfold forwardKinematicsChain.
  reflexivity.
Qed.

Lemma forwardKinematicsChain_length dh (jointAngles : list R) :
  List.length (forwardKinematicsChain dh jointAngles) = 8%nat.
Proof. unfold forwardKinematicsChain. reflexivity. Qed.

Lemma forwardKinematicsChain_tool dh (jointAngles : list R) :
  nth 7 (forwardKinematicsChain dh jointAngles) identity
  = multiply
      (multiply (nth 6 (forwardKinematicsChain dh jointAngles) identity)
                (makeTranslation 0 0 386.63))
      (makeTranslation (-124) 0 0).
Proof. unfold forwardKinematicsChain. cbn [nth]. reflexivity. Qed.

(** C1.  For a six-element joint angle vector and a DH configuration of
    seven-element sequences, [forwardKinematicsChain] returns exactly the 8
    frames of the specification's algorithm: a running transform from the
    identity; per stage translate (0,0,d[i]), rotate the commanded angle plus
    the joint offset about Z (about X at stage 4), translate (a[i],0,0),
    rotate alpha[i] about X, the commanded angle being 0 at stage 0 and
    jointAngles[i-1] otherwise; each frame recorded before the corrective
    rotations after stages 1, 3, 4 and 5; and frame 7 is frame 6 translated
    by 386.63 along Z and then by -124 along X. *)
Theorem forwardKinematicsChain_reference
    (dh : DHParameterConfig) (jointAngles : list R) :
  Spec.DHParameterSet dh -> Spec.JointAngleVector jointAngles ->
  forwardKinematicsChain dh jointAngles = Spec.forwardKinematics dh jointAngles
  /\ List.length (forwardKinematicsChain dh jointAngles) = 8%nat
  /\ nth 7 (forwardKinematicsChain dh jointAngles) identity
     = multiply
         (multiply (nth 6 (forwardKinematicsChain dh jointAngles) identity)
                   (makeTranslation 0 0 386.63))
         (makeTranslation (-124) 0 0).
Proof.
  intros _ _. split; [apply forwardKinematicsChain_spec|].
  split; [apply forwardKinematicsChain_length|].
  apply forwardKinematicsChain_tool.
Qed.

Lemma defaultConfig_DHParameterSet : Spec.DHParameterSet defaultConfig.
Proof. unfold Spec.DHParameterSet. cbn. auto. Qed.

Lemma forwardKinematicsChain_reference_witness :
  Spec.DHParameterSet defaultConfig /\
  Spec.JointAngleVector [0; 0; 0; 0; 0; 0] /\
  forwardKinematicsChain defaultConfig [0; 0; 0; 0; 0; 0]
  = Spec.forwardKinematics defaultConfig [0; 0; 0; 0; 0; 0].
Proof.
  assert (H1 : Spec.DHParameterSet defaultConfig)
    by exact defaultConfig_DHParameterSet.
  assert (H2 : Spec.JointAngleVector [0; 0; 0; 0; 0; 0]) by reflexivity.
  split; [exact H1|]. split; [exact H2|].
  exact (proj1 (forwardKinematicsChain_reference defaultConfig
                  [0; 0; 0; 0; 0; 0] H1 H2)).
Defined.

(** *** The remainder and the normalisation of angles *)

Lemma trunc_bounds (r : R) :
  (0 <= r -> IZR (trunc r) <= r < IZR (trunc r) + 1) /\
  (r < 0 -> IZR (trunc r) - 1 < r <= IZR (trunc r)).
Proof.
  unfold trunc. destruct (Rle_dec 0 r) as [Hr|Hr]; split; intros H; try lra.
  - destruct (base_Int_part r). lra.
  - destruct (base_Int_part (- r)). rewrite opp_IZR. lra.
Qed.

Lemma fmod_360_nonneg (u : R) : 0 <= u -> 0 <= fmod u 360 < 360.
Proof.
  intros Hu. unfold fmod.
  assert (H : 0 <= u / 360) by (apply Rmult_le_pos; lra).
  destruct (proj1 (trunc_bounds (u / 360)) H) as [H1 H2].
  split; lra.
Qed.

Lemma fmod_360_neg (u : R) : u < 0 -> -360 < fmod u 360 <= 0.
Proof.
  intros Hu. unfold fmod.
  assert (H : u / 360 < 0) by lra.
  destruct (proj2 (trunc_bounds (u / 360)) H) as [H1 H2].
  split; lra.
Qed.

Lemma normalizeAngle_range (u : R) : -180 <= normalizeAngle u <= 180.
Proof.
  unfold normalizeAngle, Rltb.
  destruct (Rle_dec 0 u) as [Hu|Hu].
  - pose proof (fmod_360_nonneg u Hu).
    destruct (Rlt_dec 180 (fmod u 360)); destruct (Rlt_dec _ (-180)); lra.
  - pose proof (fmod_360_neg u ltac:(lra)).
    destruct (Rlt_dec 180 (fmod u 360)); destruct (Rlt_dec _ (-180)); lra.
Qed.

(** The normalised angle differs from the angle by whole turns. *)
Lemma normalizeAngle_turns (u : R) :
  exists k : Z, normalizeAngle u = u + 360 * IZR k.
Proof.
  unfold normalizeAngle, Rltb, fmod.
  set (t := trunc (u / 360)).
  destruct (Rlt_dec 180 _); destruct (Rlt_dec _ (-180)).
  - exists (- t)%Z. rewrite opp_IZR. lra.
  - exists (- t - 1)%Z. rewrite minus_IZR, opp_IZR. lra.
  - exists (- t + 1)%Z. rewrite plus_IZR, opp_IZR. lra.
  - exists (- t)%Z. rewrite opp_IZR. lra.
Qed.

Lemma trunc_small (r : R) : -1 < r < 1 -> trunc r = 0%Z.
Proof.
  intros Hr. destruct (trunc_bounds r) as [Hpos Hneg].
  destruct (Rle_dec 0 r) as [H|H].
  - destruct (Hpos H) as [H1 H2].
    assert (trunc r < 1)%Z by (apply lt_IZR; lra).
    assert (-1 < trunc r)%Z by (apply lt_IZR; lra).
    lia.
  - destruct (Hneg ltac:(lra)) as [H1 H2].
    assert (-1 < trunc r)%Z by (apply lt_IZR; lra).
    assert (trunc r < 1)%Z by (apply lt_IZR; lra).
    lia.
Qed.

(** An angle already within [-180, 180] is left as it is. *)
Lemma normalizeAngle_fixed (u : R) : -180 <= u <= 180 -> normalizeAngle u = u.
Proof.
  intros Hu. unfold normalizeAngle, fmod.
  rewrite trunc_small by lra.
  replace (u - 360 * 0) with u by ring.
  rewrite (Rltb_false 180 u) by lra. rewrite (Rltb_false u (-180)) by lra.
  reflexivity.
Qed.

Lemma normalizeAngle_0 : normalizeAngle 0 = 0.
Proof. apply normalizeAngle_fixed. lra. Qed.

(** *** Whole turns do not change a rotation *)

Lemma cos_turns (t : R) (k : Z) : cos (t + 2 * IZR k * PI) = cos t.
Proof.
  destruct (Z_le_gt_dec 0 k) as [Hk|Hk].
  - rewrite <- (Z2Nat.id k Hk), <- INR_IZR_INZ. apply cos_period.
  - rewrite <- (cos_period (t + 2 * IZR k * PI) (Z.to_nat (- k))).
    rewrite INR_IZR_INZ, Z2Nat.id by lia. rewrite opp_IZR.
    f_equal. ring.
Qed.

Lemma sin_turns (t : R) (k : Z) : sin (t + 2 * IZR k * PI) = sin t.
Proof.
  destruct (Z_le_gt_dec 0 k) as [Hk|Hk].
  - rewrite <- (Z2Nat.id k Hk), <- INR_IZR_INZ. apply sin_period.
  - rewrite <- (sin_period (t + 2 * IZR k * PI) (Z.to_nat (- k))).
    rewrite INR_IZR_INZ, Z2Nat.id by lia. rewrite opp_IZR.
    f_equal. ring.
Qed.

Lemma getRad_turns (u o : R) (k : Z) :
  getRad (u + 360 * IZR k + o) = getRad (u + o) + 2 * IZR k * PI.
Proof. unfold getRad. field. Qed.

Lemma applyTransforms_normalizeAngle m t (u o : R) ax :
  applyTransforms m t (normalizeAngle u + o) ax
  = applyTransforms m t (u + o) ax.
Proof.
  destruct (normalizeAngle_turns u) as [k ->].
  unfold applyTransforms. rewrite getRad_turns.
  unfold makeRotationX, makeRotationY, makeRotationZ.
  now rewrite cos_turns, sin_turns.
Qed.

Lemma get_jVars_normalizeAngle (angles : list R) (i : nat) :
  get (0 :: map normalizeAngle angles) i
  = normalizeAngle (get (0 :: angles) i).
Proof.
  destruct i as [|i]; cbn [get nth].
  - now rewrite normalizeAngle_0.
  - rewrite <- normalizeAngle_0 at 1. apply map_nth.
Qed.

(** The chain of the normalised angles is the chain of the angles. *)
Lemma forwardKinematicsChain_normalizeAngle dh (angles : list R) :
  forwardKinematicsChain dh (map normalizeAngle angles)
  = forwardKinematicsChain dh angles.
Proof.
  unfold forwardKinematicsChain.
  rewrite !get_jVars_normalizeAngle.
  rewrite !applyTransforms_normalizeAngle.
  reflexivity.
Qed.

(** *** The solver *)

(** Against its own decomposition a matrix has no error: the position
    difference is zero, and a quaternion times its conjugate has no vector
    part. *)
Lemma errorVectors_same (m : Matrix4) :
  errorVectors (position (decompose m)) (quaternion (decompose m)) m
  = (Spec.zeroVector, Spec.zeroVector).
Proof.
  unfold errorVectors.
  generalize (position (decompose m)) (quaternion (decompose m)).
  intros [px py pz] [qx0 qy0 qz0 qw0]. unfold Spec.zeroVector.
  f_equal.
  - unfold subVectors; cbn [vx vy vz]. f_equal; ring.
  - unfold qmultiply, qinvert, multiplyScalar; cbn [qx qy qz qw].
    destruct (Rltb _ 0); cbn [vx vy vz]; f_equal; ring.
Qed.

Lemma converged_zero : converged Spec.zeroVector Spec.zeroVector = true.
Proof.
  unfold converged. rewrite length_zeroVector.
  unfold posThreshold, rotThreshold.
  rewrite !Rltb_true by lra. reflexivity.
Qed.

Lemma ikLoop_converged dh tp tq n iter angles :
  errorVectors tp tq (lastFrame (forwardKinematicsChain dh angles))
  = (Spec.zeroVector, Spec.zeroVector) ->
  ikLoop dh tp tq (S n) iter angles = mkIKRun angles (S iter) true.
Proof. intros H. cbn [ikLoop]. rewrite H, converged_zero. reflexivity. Qed.

Lemma inverseKinematicsRun_same dh (angles : list R) :
  inverseKinematicsRun dh (lastFrame (forwardKinematicsChain dh angles)) angles
  = mkIKRun angles 1 true.
Proof.
  unfold inverseKinematicsRun. apply ikLoop_converged, errorVectors_same.
Qed.

Lemma ikLoop_iterations dh tp tq remaining iter angles :
  (ik_iterations (ikLoop dh tp tq remaining iter angles)
   <= iter + remaining)%nat.
Proof.
  revert iter angles.
  induction remaining as [|n IH]; intros iter angles; cbn [ikLoop].
  - cbn [ik_iterations]. lia.
  - destruct (errorVectors _ _ _) as [errPos errRot].
    destruct (converged errPos errRot); cbn [ik_iterations]; [lia|].
    etransitivity; [apply IH|lia].
Qed.

Lemma ikLoop_exhausted dh tp tq remaining iter angles :
  ik_break (ikLoop dh tp tq remaining iter angles) = false ->
  ik_iterations (ikLoop dh tp tq remaining iter angles)
  = (iter + remaining)%nat.
Proof.
  revert iter angles.
  induction remaining as [|n IH]; intros iter angles; cbn [ikLoop].
  - cbn [ik_iterations]. lia.
  - destruct (errorVectors _ _ _) as [errPos errRot].
    destruct (converged errPos errRot); cbn [ik_break ik_iterations].
    + discriminate.
    + intros H. rewrite (IH _ _ H). lia.
Qed.

Lemma addAt_length arr j v : List.length (addAt arr j v) = List.length arr.
Proof.
  revert j; induction arr as [|h t IH]; intros [|j]; cbn [addAt List.length];
    auto.
Qed.

Lemma jacobianStep_length chain cp ep er angles :
  List.length (jacobianStep chain cp ep er angles) = List.length angles.
Proof.
  unfold jacobianStep. generalize (seq 0 6). intros js. revert angles.
  induction js as [|j js IH]; intros angles; cbn [fold_left]; [reflexivity|].
  rewrite IH. apply addAt_length.
Qed.

Lemma ikLoop_length dh tp tq remaining iter angles :
  List.length (ik_angles (ikLoop dh tp tq remaining iter angles))
  = List.length angles.
Proof.
  revert iter angles.
  induction remaining as [|n IH]; intros iter angles; cbn [ikLoop].
  - reflexivity.
  - destruct (errorVectors _ _ _) as [errPos errRot].
    destruct (converged errPos errRot); cbn [ik_angles]; [reflexivity|].
    rewrite IH. apply jacobianStep_length.
Qed.

(** C2.  For a six-element joint angle vector, the solver run on the end
    frame of its own chain, seeded with the vector itself, passes the
    convergence check in its first pass and updates no angle; the chain of
    the vector it returns ends within 0.1 mm and 0.001 rad of the target (it
    ends in the target frame itself). *)
Theorem inverseKinematics_round_trip dh (angles : list R) :
  Spec.DHParameterSet dh -> Spec.JointAngleVector angles ->
  let target := lastFrame (forwardKinematicsChain dh angles) in
  let run := inverseKinematicsRun dh target angles in
  let solution := inverseKinematics dh target angles in
  let reached := lastFrame (forwardKinematicsChain dh solution) in
  let err :=
    errorVectors (position (decompose target)) (quaternion (decompose target))
                 reached in
  ik_break run = true /\ ik_iterations run = 1%nat /\ ik_angles run = angles /\
  reached = target /\
  length (fst err) < 0.1 /\ length (snd err) < 0.001.
Proof.
  intros _ _ target run solution reached err.
  assert (Hrun : run = mkIKRun angles 1 true)
    by apply inverseKinematicsRun_same.
  assert (Hreached : reached = target).
  { subst reached solution. unfold inverseKinematics. fold run.
    rewrite Hrun. cbn [ik_angles].
    now rewrite forwardKinematicsChain_normalizeAngle. }
  assert (Herr : err = (Spec.zeroVector, Spec.zeroVector)).
  { subst err. rewrite Hreached. apply errorVectors_same. }
  clearbody run reached err target. subst run err.
  cbn [ik_break ik_iterations ik_angles fst snd].
  rewrite length_zeroVector.
  repeat split; try assumption; lra.
Qed.

Lemma inverseKinematics_round_trip_witness :
  Spec.DHParameterSet defaultConfig /\
  Spec.JointAngleVector [10; 20; 30; 40; 50; 60] /\
  ik_iterations
    (inverseKinematicsRun defaultConfig
       (lastFrame (forwardKinematicsChain defaultConfig
                     [10; 20; 30; 40; 50; 60]))
       [10; 20; 30; 40; 50; 60]) = 1%nat.
Proof.
  assert (H1 : Spec.DHParameterSet defaultConfig)
    by exact defaultConfig_DHParameterSet.
  assert (H2 : Spec.JointAngleVector [10; 20; 30; 40; 50; 60]) by reflexivity.
  split; [exact H1|]. split; [exact H2|].
  exact (proj1 (proj2 (inverseKinematics_round_trip defaultConfig
                         [10; 20; 30; 40; 50; 60] H1 H2))).
Defined.

(** A vector with an entry that is not 0 has a length that is not 0. *)
Lemma length_nonzero (x y z : R) :
  x <> 0 \/ y <> 0 \/ z <> 0 -> length (mkVector3 x y z) <> 0.
Proof.
  intros H E. unfold length in E. cbn [vx vy vz] in E.
  pose proof (Rle_0_sqr x) as Hx. pose proof (Rle_0_sqr y) as Hy.
  pose proof (Rle_0_sqr z) as Hz. unfold Rsqr in Hx, Hy, Hz.
  apply sqrt_eq_0 in E; [|lra].
  destruct H as [H|[H|H]]; apply Rsqr_pos_lt in H; unfold Rsqr in H; lra.
Qed.

(** For a regular target [decompose] divides by scales that are not 0. *)
Lemma regularTarget_scale (m : Matrix4) :
  Spec.regularTarget m ->
  vx (scale (decompose m)) <> 0 /\ vy (scale (decompose m)) <> 0 /\
  vz (scale (decompose m)) <> 0.
Proof.
  intros (H1 & H2 & H3). unfold decompose. cbn [scale vx vy vz].
  pose proof (length_nonzero _ _ _ H1) as L1.
  split; [|split; apply length_nonzero; assumption].
  destruct (Rltb (determinant m) 0); lra.
Qed.

(** C3, as amended.  For a target matrix of finite numbers that is regular
    (no column of its rotation block is zero, so that its decomposition
    divides by no zero scale) and a seed of six finite angles, every entry
    of the vector [inverseKinematics] returns lies in the closed interval
    from -180 to 180 degrees. *)
Theorem inverseKinematics_angle_range dh target (seed : list R) :
  Spec.DHParameterSet dh -> Spec.JointAngleVector seed ->
  Spec.regularTarget target ->
  (vx (scale (decompose target)) <> 0 /\
   vy (scale (decompose target)) <> 0 /\
   vz (scale (decompose target)) <> 0) /\
  Forall (fun angle => -180 <= angle <= 180)
         (inverseKinematics dh target seed).
Proof.
  intros _ _ Hreg. split; [now apply regularTarget_scale|].
  unfold inverseKinematics. apply Forall_map, Forall_forall.
  intros u _. apply normalizeAngle_range.
Qed.

Lemma inverseKinematics_angle_range_witness :
  Spec.DHParameterSet defaultConfig /\
  Spec.JointAngleVector [0; 0; 0; 0; 0; 0] /\
  Spec.regularTarget identity /\
  Forall (fun angle => -180 <= angle <= 180)
         (inverseKinematics defaultConfig identity [0; 0; 0; 0; 0; 0]).
Proof.
  assert (H1 : Spec.DHParameterSet defaultConfig)
    by exact defaultConfig_DHParameterSet.
  assert (H2 : Spec.JointAngleVector [0; 0; 0; 0; 0; 0]) by reflexivity.
  assert (H3 : Spec.regularTarget identity).
  { unfold Spec.regularTarget, identity.
    cbn [n11 n12 n13 n21 n22 n23 n31 n32 n33].
    split; [left; lra|split; [right; left; lra|right; right; lra]]. }
  split; [exact H1|]. split; [exact H2|]. split; [exact H3|].
  exact (proj2 (inverseKinematics_angle_range defaultConfig identity
                  [0; 0; 0; 0; 0; 0] H1 H2 H3)).
Defined.

(** C3 as stated fails: seeded with -180 on the first joint and asked for
    the pose of that very seed, the solver returns -180 on the first joint,
    which is outside the half-open interval (-180, 180]. *)
Lemma inverseKinematics_minus_180 :
  let seed := [-180; 0; 0; 0; 0; 0] in
  let target := lastFrame (forwardKinematicsChain defaultConfig seed) in
  inverseKinematics defaultConfig target seed = [-180; 0; 0; 0; 0; 0] /\
  In (-180) (inverseKinematics defaultConfig target seed) /\
  ~ (-180 < -180 <= 180).
Proof.
  cbv zeta.
  assert (E : inverseKinematics defaultConfig
                (lastFrame (forwardKinematicsChain defaultConfig
                              [-180; 0; 0; 0; 0; 0]))
                [-180; 0; 0; 0; 0; 0]
              = [-180; 0; 0; 0; 0; 0]).
  { unfold inverseKinematics. rewrite inverseKinematicsRun_same.
    cbn [ik_angles map].
    rewrite normalizeAngle_0, (normalizeAngle_fixed (-180)) by lra.
    reflexivity. }
  rewrite E. split; [reflexivity|]. split; [now left|lra].
Qed.

(** C4.  For a six-element seed, the loop of [inverseKinematics] is entered
    at most 200 times and the function returns a six-element vector whether
    or not the convergence check ever passed; a run that never passed it
    was entered exactly 200 times and returns the normalised angles it then
    holds. *)
Theorem inverseKinematics_iteration_cap dh target (seed : list R) :
  Spec.DHParameterSet dh -> Spec.JointAngleVector seed ->
  let run := inverseKinematicsRun dh target seed in
  (ik_iterations run <= 200)%nat /\
  Spec.JointAngleVector (inverseKinematics dh target seed) /\
  inverseKinematics dh target seed = map normalizeAngle (ik_angles run) /\
  (ik_break run = false -> ik_iterations run = 200%nat).
Proof.
  intros _ Hs run. subst run.
  unfold inverseKinematics, inverseKinematicsRun, Spec.JointAngleVector in *.
  split; [apply (ikLoop_iterations dh _ _ maxIterations 0)|].
  split; [now rewrite length_map, ikLoop_length|].
  split; [reflexivity|].
  apply (ikLoop_exhausted dh _ _ maxIterations 0).
Qed.

Lemma inverseKinematics_iteration_cap_witness :
  Spec.DHParameterSet defaultConfig /\
  Spec.JointAngleVector [0; 0; 0; 0; 0; 0] /\
  (ik_iterations
     (inverseKinematicsRun defaultConfig identity [0; 0; 0; 0; 0; 0]%R)
   <= 200)%nat.
Proof.
  assert (H1 : Spec.DHParameterSet defaultConfig)
    by exact defaultConfig_DHParameterSet.
  assert (H2 : Spec.JointAngleVector [0; 0; 0; 0; 0; 0]) by reflexivity.
  split; [exact H1|]. split; [exact H2|].
  exact (proj1 (inverseKinematics_iteration_cap defaultConfig identity
                  [0; 0; 0; 0; 0; 0] H1 H2)).
Defined.

End KinematicsFacts.

(** ** Playback *)

Module PlayerFacts.
Import Three.
Import Kinematics.
Import App.
Import MatrixFacts.
Local Open Scope R_scope.

(** Case analysis on the comparisons of reals behind [sign], [Rmin] and
    [Rabs], each case closed by linear arithmetic. *)
Ltac real_cases :=
  unfold Spec.inBand, sign, Rltb, Rmin, Rabs in *;
  repeat match goal with
         | |- context [Rcase_abs ?u] => destruct (Rcase_abs u)
         | |- context [Rle_dec ?u ?v] => destruct (Rle_dec u v)
         | |- context [Rlt_dec ?u ?v] => destruct (Rlt_dec u v)
         end;
  try lra.

Lemma stepJoint_snap target speed reached curr i :
  Spec.inBand (get target i) curr ->
  stepJoint target speed reached curr i = (get target i, reached).
Proof. intros H. unfold stepJoint. now rewrite Rltb_false. Qed.

Lemma stepJoint_move target speed reached curr i :
  ~ Spec.inBand (get target i) curr ->
  stepJoint target speed reached curr i
  = (curr + sign (get target i - curr)
            * Rmin (Rabs (get target i - curr)) speed, false).
Proof.
  intros H. unfold stepJoint. rewrite Rltb_true; [reflexivity|].
  unfold Spec.inBand in H. lra.
Qed.

(** A joint outside the band moves by at most [speed], straight towards
    its target and never past it. *)
Lemma move_toward (t c speed : R) :
  0 <= speed -> ~ Spec.inBand t c ->
  let n := c + sign (t - c) * Rmin (Rabs (t - c)) speed in
  Rabs (n - c) <= speed /\ Rabs (t - n) = Rabs (t - c) - Rabs (n - c).
Proof.
  intros Hs Hb n. subst n. unfold Spec.inBand in Hb. revert Hb.
  unfold sign, Rltb, Rmin, Rabs.
  repeat match goal with
         | |- context [Rcase_abs ?u] => destruct (Rcase_abs u)
         | |- context [Rle_dec ?u ?v] => destruct (Rle_dec u v)
         | |- context [Rlt_dec ?u ?v] => destruct (Rlt_dec u v)
         end; intros; split; try lra.
Qed.

Lemma mapJoints_length target speed i reached angles :
  List.length (fst (mapJoints target speed i reached angles))
  = List.length angles.
Proof.
  revert i reached.
  induction angles as [|c rest IH]; intros i reached; cbn [mapJoints].
  - reflexivity.
  - destruct (stepJoint target speed reached c i) as [n r1].
    specialize (IH (S i) r1).
    destruct (mapJoints target speed (S i) r1 rest) as [ns r2].
    cbn [fst List.length] in *. now rewrite IH.
Qed.

Lemma mapJoints_nth target speed i reached angles k :
  (k < List.length angles)%nat ->
  get (fst (mapJoints target speed i reached angles)) k
  = fst (stepJoint target speed true (get angles k) (i + k)).
Proof.
  revert i reached k.
  induction angles as [|c rest IH]; intros i reached k Hk; cbn [mapJoints].
  - cbn [List.length] in Hk. lia.
  - pose proof (IH (S i)) as IH'.
    assert (E : fst (stepJoint target speed reached c i)
                = fst (stepJoint target speed true c i)).
    { unfold stepJoint. now destruct (Rltb _ _). }
    destruct (stepJoint target speed reached c i) as [n r1].
    specialize (IH' r1).
    destruct (mapJoints target speed (S i) r1 rest) as [ns r2].
    destruct k as [|k]; cbn [fst get nth] in *.
    + now rewrite Nat.add_0_r.
    + unfold get in IH'. rewrite IH' by (cbn [List.length] in Hk; lia).
      now replace (S i + k)%nat with (i + S k)%nat by lia.
Qed.

(** [reached] stays true exactly when every joint was within the band
    before the step. *)
Lemma mapJoints_reached target speed i reached angles :
  snd (mapJoints target speed i reached angles) = true <->
  reached = true /\
  forall k, (k < List.length angles)%nat ->
            Spec.inBand (get target (i + k)) (get angles k).
Proof.
  revert i reached.
  induction angles as [|c rest IH]; intros i reached; cbn [mapJoints].
  - cbn [snd List.length].
    split; [intros ->; split; [reflexivity|intros; lia]|tauto].
  - destruct (Rle_dec (Rabs (get target i - c)) 0.1) as [Hb|Hb].
    + rewrite (stepJoint_snap _ _ _ _ _ Hb).
      specialize (IH (S i) reached).
      destruct (mapJoints target speed (S i) reached rest) as [ns r2].
      cbn [snd] in *. rewrite IH. split; intros [Hr Hk]; split; auto.
      * intros [|k] Hlt; cbn [get nth].
        -- now rewrite Nat.add_0_r.
        -- replace (i + S k)%nat with (S i + k)%nat by lia.
           apply Hk. cbn [List.length] in Hlt. lia.
      * intros k Hlt. replace (S i + k)%nat with (i + S k)%nat by lia.
        apply (Hk (S k)). cbn [List.length]. lia.
    + rewrite (stepJoint_move _ _ _ _ _ Hb).
      specialize (IH (S i) false).
      destruct (mapJoints target speed (S i) false rest) as [ns r2].
      cbn [snd] in *. rewrite IH. split.
      * intros [Hf _]. discriminate.
      * intros [_ Hk]. exfalso. apply Hb.
        specialize (Hk 0%nat ltac:(cbn [List.length]; lia)).
        now rewrite Nat.add_0_r in Hk.
Qed.

(** C5, as amended.  On a tick with elapsed time [delta >= 0]: with an
    empty queue nothing changes and nothing is signalled; otherwise, with
    front target T, each joint further than 0.1 degrees from T[j] moves
    straight towards T[j] by at most 120 * delta degrees, and each joint
    within 0.1 degrees is set to T[j]; the front entry is popped exactly when
    all six joints were within the band before this step (no joint moved);
    and completion is signalled exactly when that pop leaves the queue
    empty. *)
Theorem tick_playback (delta : R) (target : list R) (rest : list (list R))
    (current : list R) :
  0 <= delta ->
  Spec.JointAngleVector target -> Spec.JointAngleVector current ->
  let result := tick delta (mkPlayerState (target :: rest) current) in
  let next := currentAngles (fst result) in
  tick delta (mkPlayerState [] current) = (mkPlayerState [] current, false) /\
  Spec.JointAngleVector next /\
  (forall j, (j < 6)%nat ->
     (~ Spec.inBand (get target j) (get current j) ->
        Rabs (get next j - get current j) <= 120 * delta /\
        Rabs (get target j - get next j)
        = Rabs (get target j - get current j)
          - Rabs (get next j - get current j)) /\
     (Spec.inBand (get target j) (get current j) ->
        get next j = get target j)) /\
  ((forall j, (j < 6)%nat -> Spec.inBand (get target j) (get current j)) ->
     queue (fst result) = rest /\ (snd result = true <-> rest = [])) /\
  ((exists j, (j < 6)%nat /\ ~ Spec.inBand (get target j) (get current j)) ->
     queue (fst result) = target :: rest /\ snd result = false).
Proof.
  intros Hd Ht Hc result next. unfold Spec.JointAngleVector in *.
  assert (Hs : 0 <= 120.0 * delta) by lra.
  pose proof (mapJoints_length target (120.0 * delta) 0 true current) as Hlen.
  pose proof (mapJoints_nth target (120.0 * delta) 0 true current) as Hnth.
  pose proof (mapJoints_reached target (120.0 * delta) 0 true current)
    as Hreached.
  assert (Hnext : next = fst (mapJoints target (120.0 * delta) 0 true current)).
  { subst next result. unfold tick. cbn [queue currentAngles].
    destruct (mapJoints target (120.0 * delta) 0 true current) as [ns r].
    now destruct r. }
  assert (Hres :
    (snd (mapJoints target (120.0 * delta) 0 true current) = true ->
     queue (fst result) = rest /\ (snd result = true <-> rest = [])) /\
    (snd (mapJoints target (120.0 * delta) 0 true current) = false ->
     queue (fst result) = target :: rest /\ snd result = false)).
  { subst next result. unfold tick. cbn [queue currentAngles].
    destruct (mapJoints target (120.0 * delta) 0 true current) as [ns r].
    cbn [snd]. split; intros ->; cbn [fst snd queue].
    - split; [reflexivity|]. destruct rest; split; intros; congruence.
    - split; reflexivity. }
  clearbody next result. subst next.
  split; [reflexivity|]. split; [congruence|]. split; [|split].
  - intros j Hj. rewrite Hnth by lia. cbn [Nat.add]. split; intros Hb.
    + rewrite (stepJoint_move _ _ _ _ _ Hb). cbn [fst].
      destruct (move_toward _ _ _ Hs Hb) as [H1 H2]. split; [lra|exact H2].
    + now rewrite (stepJoint_snap _ _ _ _ _ Hb).
  - intros Hall. apply (proj1 Hres). apply Hreached. split; [reflexivity|].
    intros k Hk. apply Hall. lia.
  - intros [j [Hj Hb]]. apply (proj2 Hres).
    destruct (snd (mapJoints target (120.0 * delta) 0 true current)) eqn:E;
      [|reflexivity].
    exfalso. apply Hb. destruct (proj1 Hreached eq_refl) as [_ Hall].
    apply (Hall j). lia.
Qed.

Lemma tick_playback_witness :
  0 <= 1 / 60 /\
  Spec.JointAngleVector [10; 0; 0; 0; 0; 0] /\
  Spec.JointAngleVector [0; 0; 0; 0; 0; 0] /\
  let result :=
    tick (1 / 60) (mkPlayerState [[10; 0; 0; 0; 0; 0]] [0; 0; 0; 0; 0; 0]) in
  queue (fst result) = [[10; 0; 0; 0; 0; 0]] /\ snd result = false /\
  Rabs (get (currentAngles (fst result)) 0 - 0) <= 120 * (1 / 60).
Proof.
  assert (H1 : 0 <= 1 / 60) by lra.
  assert (H2 : Spec.JointAngleVector [10; 0; 0; 0; 0; 0]) by reflexivity.
  assert (H3 : Spec.JointAngleVector [0; 0; 0; 0; 0; 0]) by reflexivity.
  assert (H4 : ~ Spec.inBand (get [10; 0; 0; 0; 0; 0] 0)
                             (get [0; 0; 0; 0; 0; 0] 0)).
  { unfold get; cbn [nth]. real_cases. }
  destruct (tick_playback (1 / 60) [10; 0; 0; 0; 0; 0] [] [0; 0; 0; 0; 0; 0]
              H1 H2 H3) as (_ & _ & Hmove & _ & Hkeep).
  split; [exact H1|]. split; [exact H2|]. split; [exact H3|].
  cbv zeta. split; [|split].
  - apply Hkeep. exists 0%nat. split; [lia|exact H4].
  - apply Hkeep. exists 0%nat. split; [lia|exact H4].
  - apply (Hmove 0%nat ltac:(lia)). exact H4.
Defined.

Lemma stepJoint_example_move :
  stepJoint [1; 0; 0; 0; 0; 0] (120.0 * 1) true 0 0 = (1, false).
Proof.
  unfold stepJoint, get. cbn [nth].
  assert (E : Rltb 0.1 (Rabs (1 - 0)) = true)
    by (apply Rltb_true; real_cases).
  rewrite E. f_equal. real_cases.
Qed.

Lemma stepJoint_example_snap reached i :
  (1 <= i < 6)%nat ->
  stepJoint [1; 0; 0; 0; 0; 0] (120.0 * 1) reached 0 i = (0, reached).
Proof.
  intros Hi. unfold stepJoint, get.
  assert (E : nth i [1; 0; 0; 0; 0; 0] 0 = 0).
  { do 6 (destruct i as [|i]; [cbn [nth]; (reflexivity || lia)|]). lia. }
  rewrite E.
  assert (E' : Rltb 0.1 (Rabs (0 - 0)) = false)
    by (apply Rltb_false; real_cases).
  now rewrite E'.
Qed.

Lemma tick_example :
  tick 1 (mkPlayerState [[1; 0; 0; 0; 0; 0]] [0; 0; 0; 0; 0; 0])
  = (mkPlayerState [[1; 0; 0; 0; 0; 0]] [1; 0; 0; 0; 0; 0], false).
Proof.
  unfold tick. cbn [queue currentAngles mapJoints].
  rewrite stepJoint_example_move.
  rewrite !stepJoint_example_snap by lia.
  reflexivity.
Qed.

(** C5 as stated fails: from all zeros towards (1,0,0,0,0,0) with one
    second elapsed, every joint is within the band (on the target) after
    the step, and yet the front entry is not popped and nothing is
    signalled. *)
Lemma tick_pop_counterexample :
  let target := [1; 0; 0; 0; 0; 0] in
  let result := tick 1 (mkPlayerState [target] [0; 0; 0; 0; 0; 0]) in
  (forall j, (j < 6)%nat ->
     Spec.inBand (get target j) (get (currentAngles (fst result)) j)) /\
  queue (fst result) = [target] /\ snd result = false.
Proof.
  cbv zeta. rewrite tick_example. cbn [fst snd queue currentAngles].
  split; [|split; reflexivity]. intros j Hj. unfold get.
  do 6 (destruct j as [|j]; [cbn [nth]; real_cases|]). lia.
Qed.

End PlayerFacts.

(** ** Path generators *)

Module PathFacts.
Import Three.
Import Kinematics.
Import App.
Import KinematicsFacts.
Local Open Scope R_scope.

(** Seed chaining for an arbitrary solver. *)
Section SeedChain.

Variable solve : Vector3 -> list R -> list R.

Lemma fold_chainStep (point : nat -> Vector3) (indices : list nat)
    (solutions : list (list R)) (seed : list R) :
  fst (fold_left (fun acc i => Spec.chainStep solve acc (point i)) indices
         (solutions, seed))
  = solutions ++ Spec.seedChain solve seed (map point indices).
Proof.
  revert solutions seed.
  induction indices as [|i rest IH]; intros solutions seed;
    cbn [fold_left map Spec.seedChain].
  - cbn [fst]. now rewrite app_nil_r.
  - unfold Spec.chainStep at 2. cbn [fst snd].
    rewrite IH, <- app_assoc. reflexivity.
Qed.

Lemma seedChain_length seed points :
  List.length (Spec.seedChain solve seed points) = List.length points.
Proof.
  revert seed.
  induction points as [|p rest IH]; intros seed;
    cbn [Spec.seedChain List.length]; [reflexivity|].
  now rewrite IH.
Qed.

(** Solution k is solved from solution k-1, solution 0 from the seed. *)
Lemma seedChain_nth seed points (k : nat) (p0 : Vector3) :
  (k < List.length points)%nat ->
  nth k (Spec.seedChain solve seed points) []
  = solve (nth k points p0)
      (match k with
       | O => seed
       | S k' => nth k' (Spec.seedChain solve seed points) []
       end).
Proof.
  revert seed k. induction points as [|p rest IH]; intros seed k Hk.
  - cbn [List.length] in Hk. lia.
  - destruct k as [|k]; cbn [Spec.seedChain nth]; [reflexivity|].
    rewrite (IH _ k) by (cbn [List.length] in Hk; lia).
    destruct k; reflexivity.
Qed.

End SeedChain.

Lemma fold_left_ext {A B : Type} (f g : A -> B -> A) (l : list B) (i : A) :
  (forall u v, f u v = g u v) -> fold_left f l i = fold_left g l i.
Proof.
  intros H. revert i. induction l as [|v l IH]; intros i; cbn [fold_left].
  - reflexivity.
  - now rewrite H, IH.
Qed.

Lemma addPt_chainStep dh q (acc : list (list R) * list R) (pos : Vector3) :
  addPt dh q acc pos
  = Spec.chainStep
      (fun p s => inverseKinematics dh (compose p q (mkVector3 1 1 1)) s)
      acc pos.
Proof. destruct acc as [solutions seed]. reflexivity. Qed.

(** Every generator is a seed chain over its points. *)
Lemma generateTrajectoryPoints_chain dh jointAngles type :
  generateTrajectoryPoints dh jointAngles type
  = Spec.seedChain
      (fun p s =>
         inverseKinematics dh
           (compose p
              (setFromEuler (ee_rotation (getEndEffectorPose dh jointAngles)))
              (mkVector3 1 1 1)) s)
      jointAngles
      (map (pathPoint type (ee_position (getEndEffectorPose dh jointAngles)))
           (seq 0 (S (lastStep type)))).
Proof.
  unfold generateTrajectoryPoints.
  rewrite (fold_left_ext _ _ _ _
             (fun acc i => addPt_chainStep dh _ acc (pathPoint type _ i))).
  rewrite (fold_chainStep _ (pathPoint type _)). apply app_nil_l.
Qed.

Lemma pathPoint_line startPos (k : nat) :
  pathPoint Line startPos k
  = mkVector3 (vx startPos + 500 * (INR k / 60)) (vy startPos) (vz startPos).
Proof.
  unfold pathPoint, lerpVectors, steps. cbn [vx vy vz].
  replace (INR 60) with 60 by (cbn [INR]; lra).
  f_equal; ring.
Qed.

(** C7.  From the current end effector pose, the line generator returns
    exactly 61 solutions; waypoint k is the linear interpolation at k/60
    between the start position and the start position moved by +500 along
    the X axis of the arm's frame; every target is composed from its
    waypoint and the one quaternion of the start pose's rotation; and each
    target is solved from the solution of the waypoint before it, the first
    from the current joint angles. *)
Theorem generateTrajectoryPoints_line dh (jointAngles : list R) :
  Spec.DHParameterSet dh -> Spec.JointAngleVector jointAngles ->
  let startPose := getEndEffectorPose dh jointAngles in
  let startPos := ee_position startPose in
  let startQuat := setFromEuler (ee_rotation startPose) in
  let endPos := mkVector3 (vx startPos + 500) (vy startPos) (vz startPos) in
  let waypoint (k : nat) := lerpVectors startPos endPos (INR k / 60) in
  let solutions := generateTrajectoryPoints dh jointAngles Line in
  List.length solutions = 61%nat /\
  waypoint 0%nat = startPos /\ waypoint 60%nat = endPos /\
  forall k, (k < 61)%nat ->
    waypoint k
    = mkVector3 (vx startPos + 500 * (INR k / 60)) (vy startPos) (vz startPos)
    /\
    nth k solutions []
    = inverseKinematics dh (compose (waypoint k) startQuat (mkVector3 1 1 1))
        (match k with
         | O => jointAngles
         | S k' => nth k' solutions []
         end).
Proof.
  intros _ _ startPose startPos startQuat endPos waypoint solutions.
  assert (Hs : solutions
               = Spec.seedChain
                   (fun pos s =>
                      inverseKinematics dh
                        (compose pos startQuat (mkVector3 1 1 1)) s)
                   jointAngles (map (pathPoint Line startPos) (seq 0 61))).
  { apply generateTrajectoryPoints_chain. }
  clearbody solutions startQuat startPos. clear startPose. subst solutions.
  assert (Hw : forall k, waypoint k = pathPoint Line startPos k).
  { intros k. subst waypoint endPos. unfold pathPoint, steps.
    now replace (INR 60) with 60 by (cbn [INR]; lra). }
  assert (H60 : INR 60 = 60) by (cbn [INR]; lra).
  clearbody waypoint.
  split; [now rewrite seedChain_length, length_map, length_seq|].
  split; [|split].
  - rewrite Hw, pathPoint_line. destruct startPos as [sx sy sz].
    cbn [vx vy vz INR]. f_equal. lra.
  - rewrite Hw, pathPoint_line. subst endPos. rewrite H60. f_equal. lra.
  - intros k Hk. split; [rewrite Hw; apply pathPoint_line|].
    rewrite (seedChain_nth _ jointAngles _ k (pathPoint Line startPos 0))
      by (now rewrite length_map, length_seq).
    rewrite Hw. f_equal. f_equal.
    rewrite (map_nth (pathPoint Line startPos) (seq 0 61) 0%nat k).
    now rewrite seq_nth.
Qed.

Lemma generateTrajectoryPoints_line_witness :
  Spec.DHParameterSet defaultConfig /\
  Spec.JointAngleVector [0; 0; 0; 0; 0; 0] /\
  List.length (generateTrajectoryPoints defaultConfig [0; 0; 0; 0; 0; 0] Line)
  = 61%nat.
Proof.
  assert (H1 : Spec.DHParameterSet defaultConfig)
    by exact defaultConfig_DHParameterSet.
  assert (H2 : Spec.JointAngleVector [0; 0; 0; 0; 0; 0]) by reflexivity.
  split; [exact H1|]. split; [exact H2|].
  exact (proj1 (generateTrajectoryPoints_line defaultConfig
                  [0; 0; 0; 0; 0; 0] H1 H2)).
Defined.

End PathFacts.

(** ** The parser *)

Module ParserFacts.
Import Pose.
Import Parser.
Import Grammar.
Import TextNotions.
Local Open Scope string_scope.

(** *** Strings *)

Lemma startsWith_spec (s p : string) :
  startsWith s p = true <-> exists post, s = p ++ post.
Proof.
  revert s. induction p as [|ch p IH]; intros s.
  - split; [intros _; now exists s|intros _; now destruct s].
  - destruct s as [|ch' s]; cbn [startsWith].
    + split; [discriminate|intros [post H]; discriminate].
    + rewrite andb_true_iff, Ascii.eqb_eq, IH. split.
      * intros [-> [post ->]]. now exists post.
      * intros [post H]. cbn [append] in H. injection H as -> ->.
        split; [reflexivity|now exists post].
Qed.

Lemma includes_spec (s sub : string) :
  includes s sub = true <-> contains s sub.
Proof.
  unfold contains. induction s as [|ch s IH]; cbn [includes].
  - rewrite orb_false_r, startsWith_spec. split.
    + intros [post H]. now exists "", post.
    + intros [pre [post H]]. destruct pre; [now exists post|discriminate].
  - rewrite orb_true_iff, startsWith_spec, IH. split.
    + intros [[post H]|[pre [post H]]].
      * now exists "", post.
      * exists (String ch pre), post. cbn [append]. now rewrite H.
    + intros [pre [post H]]. destruct pre as [|ch' pre].
      * left. now exists post.
      * right. cbn [append] in H. injection H as -> ->. now exists pre, post.
Qed.

Lemma split_nonempty text : split text <> [].
Proof.
  destruct text as [|ch text]; cbn [split]; [discriminate|].
  destruct (Ascii.eqb ch "010"); [discriminate|].
  destruct (split text); discriminate.
Qed.

(** The lines of a text, joined by line feeds, are the text. *)
Lemma split_concat text : concat (String "010" "") (split text) = text.
Proof.
  induction text as [|ch text IH]; cbn [split]; [reflexivity|].
  pose proof (split_nonempty text) as Hne.
  destruct (split text) as [|l ls]; [contradiction|].
  destruct (Ascii.eqb_spec ch "010") as [->|Hch].
  - rewrite <- IH. reflexivity.
  - rewrite <- IH. destruct ls; reflexivity.
Qed.

(** *** The trajectory grammar *)

Lemma isWaypoint_spec line : isWaypoint line = true <-> waypointLine line.
Proof.
  unfold isWaypoint, waypointLine. now rewrite andb_true_iff, !includes_spec.
Qed.

Lemma parseTrajectory_fold (lines : list string)
    (points : list (PoseData number)) :
  fold_left
    (fun (points : list (PoseData number)) line =>
       if isWaypoint line then (points ++ [parseLineToPose line])%list
       else points)
    lines points
  = (points ++ map parseLineToPose (filter isWaypoint lines))%list.
Proof.
  revert points.
  induction lines as [|line lines IH]; intros points; cbn [fold_left filter].
  - cbn [map]. now rewrite app_nil_r.
  - rewrite IH. destruct (isWaypoint line); cbn [map].
    + now rewrite <- app_assoc.
    + reflexivity.
Qed.

(** *** The lines of a text *)

Lemma split_append t1 t2 :
  split (t1 ++ String "010" t2) = (split t1 ++ split t2)%list.
Proof.
  induction t1 as [|ch t1 IH]; cbn [append].
  - cbn [split]. rewrite Ascii.eqb_refl. reflexivity.
  - cbn [split]. destruct (Ascii.eqb ch "010"); rewrite IH; [reflexivity|].
    pose proof (split_nonempty t1) as Hne.
    destruct (split t1) as [|l ls]; [contradiction|reflexivity].
Qed.

Lemma parseTrajectory_map text :
  parseTrajectory text = map parseLineToPose (filter isWaypoint (split text)).
Proof. unfold parseTrajectory. now rewrite parseTrajectory_fold. Qed.

Lemma split_single l : allOf notNewline l = true -> split l = [l].
Proof.
  induction l as [|ch l IH]; cbn [allOf split]; [reflexivity|].
  intros H. apply andb_true_iff in H as [H1 H2].
  unfold notNewline in H1. apply negb_true_iff in H1.
  now rewrite H1, (IH H2).
Qed.

Lemma split_joinLines ls :
  ls <> [] -> Forall (fun l => allOf notNewline l = true) ls ->
  split (joinLines ls) = ls.
Proof.
  intros Hne H. induction H as [|l ls Hl Hls IH]; [contradiction|].
  destruct ls as [|l2 ls].
  - cbn [joinLines]. now apply split_single.
  - change (joinLines (l :: l2 :: ls))
      with (l ++ String "010" (joinLines (l2 :: ls))).
    rewrite split_append, (split_single _ Hl), IH by discriminate.
    reflexivity.
Qed.

Lemma joinLines_concat lines :
  joinLines lines = concat (String "010" "") lines.
Proof.
  induction lines as [|l lines IH]; [reflexivity|].
  destruct lines as [|l2 lines]; [reflexivity|].
  change (joinLines (l :: l2 :: lines))
    with (l ++ String "010" (joinLines (l2 :: lines))).
  now rewrite IH.
Qed.

Lemma split_notNewline text :
  Forall (fun l => allOf notNewline l = true) (split text).
Proof.
  induction text as [|ch text IH]; cbn [split].
  - now repeat constructor.
  - destruct (Ascii.eqb ch "010") eqn:E.
    + now constructor.
    + assert (Hch : notNewline ch = true) by (unfold notNewline; now rewrite E).
      destruct (split text) as [|l ls].
      * constructor; [|constructor]. cbn [allOf]. now rewrite Hch.
      * inversion IH as [|l' ls' Hl Hls]; subst.
        constructor; [|exact Hls]. cbn [allOf]. now rewrite Hch, Hl.
Qed.

(** C9.  A text is lines joined by line feeds, in exactly one way.  For
    every sequence of lines, the waypoints [parseTrajectory] returns for
    the text of these lines are the poses parsed from the lines it keeps,
    one pose per kept line and in the order of the lines; it keeps a line
    exactly when the line has the substring CARTPOS and the substring
    [x :=].  The line "cp1 CARTPOS x := 10 y := 20 z := 30" gives the
    waypoint (10,20,30,0,0,0), a line without either substring is skipped,
    and a text of three lines with two waypoint records around another
    line gives the two waypoints in the order of the text. *)
Theorem parseTrajectory_waypoints :
  (forall lines,
     Forall (fun l => allOf notNewline l = true) lines ->
     parseTrajectory (joinLines lines)
     = map parseLineToPose (filter isWaypoint lines)) /\
  (forall text, exists lines,
     text = joinLines lines /\
     Forall (fun l => allOf notNewline l = true) lines) /\
  (forall lines lines',
     Forall (fun l => allOf notNewline l = true) lines ->
     Forall (fun l => allOf notNewline l = true) lines' ->
     lines <> [] -> lines' <> [] ->
     joinLines lines = joinLines lines' -> lines = lines') /\
  (forall line, isWaypoint line = true <-> waypointLine line) /\
  (forall text,
     parseTrajectory text
     = map parseLineToPose (filter isWaypoint (split text))) /\
  (forall text, concat (String "010" "") (split text) = text) /\
  parseTrajectory "cp1 CARTPOS x := 10 y := 20 z := 30"
  = [mkPose (Num 10) (Num 20) (Num 30) (Num 0) (Num 0) (Num 0)] /\
  parseTrajectory "cp1 x := 10 y := 20 z := 30" = [] /\
  parseTrajectory "cp1 CARTPOS y := 20 z := 30" = [] /\
  parseTrajectory
    (joinLines ["cp1 CARTPOS x := 10 y := 20 z := 30";
                "speed x := 5";
                "cp2 CARTPOS x := -5 c := 90"])
  = [mkPose (Num 10) (Num 20) (Num 30) (Num 0) (Num 0) (Num 0);
     mkPose (Num (-5)) (Num 0) (Num 0) (Num 0) (Num 0) (Num 90)].
Proof.
  split.
  { intros lines H. rewrite parseTrajectory_map.
    destruct lines as [|l ls]; [reflexivity|].
    now rewrite split_joinLines by (discriminate || assumption). }
  split.
  { intros text. exists (split text). split; [|apply split_notNewline].
    now rewrite joinLines_concat, split_concat. }
  split.
  { intros lines lines' H H' Hne Hne' E.
    rewrite <- (split_joinLines lines Hne H).
    rewrite <- (split_joinLines lines' Hne' H'). now rewrite E. }
  split; [exact isWaypoint_spec|].
  split; [exact parseTrajectory_map|]. split; [exact split_concat|].
  repeat split; vm_compute; reflexivity.
Qed.

(** *** The global variables grammar *)

Lemma world_tool_exclusive line :
  isWorldLine line = true -> isToolLine line = false.
Proof.
  unfold isWorldLine, isToolLine.
  destruct (trim line) as [|ch rest]; cbn [startsWith].
  - discriminate.
  - destruct (Ascii.eqb_spec "w" ch) as [<-|]; [reflexivity|discriminate].
Qed.

Lemma fold_world_unchanged lines config :
  (forall l, In l lines -> isWorldLine l = false) ->
  world (fold_left globalVarsStep lines config) = world config.
Proof.
  revert config.
  induction lines as [|l lines IH]; intros config H; cbn [fold_left].
  - reflexivity.
  - rewrite IH by (intros l' Hl'; apply H; now right).
    unfold globalVarsStep. rewrite (H l) by now left.
    now destruct (isToolLine l).
Qed.

Lemma fold_tool_unchanged lines config :
  (forall l, In l lines -> isToolLine l = true -> isWorldLine l = true) ->
  tool (fold_left globalVarsStep lines config) = tool config.
Proof.
  revert config.
  induction lines as [|l lines IH]; intros config H; cbn [fold_left].
  - reflexivity.
  - rewrite IH by (intros l' Hl'; apply H; now right).
    unfold globalVarsStep. specialize (H l (or_introl eq_refl)).
    destruct (isWorldLine l); [reflexivity|].
    destruct (isToolLine l); [|reflexivity].
    specialize (H eq_refl). discriminate.
Qed.



(** C10.  When the lines of a text are [before], then [line], then
    [after], and [line] starts with world1 once trimmed while no line of
    [after] does, the world pose returned is exactly the pose parsed from
    [line]; likewise for tool1 and the tool pose.  So a key set on an
    earlier matching line and absent on the last one is 0. *)
Theorem parseGlobalVars_last_line :
  (forall text before line after,
     split text = (before ++ line :: after)%list ->
     (isWorldLine line = true ->
      (forall l, In l after -> isWorldLine l = false) ->
      world (parseGlobalVars text) = parseLineToPose line) /\
     (isToolLine line = true ->
      (forall l, In l after -> isToolLine l = false) ->
      tool (parseGlobalVars text) = parseLineToPose line)) /\
  world (parseGlobalVars
           (concat (String "010" "")
              ["world1 x := 5 y := 7"; "tool1 z := 2"; "world1 y := 3"]))
  = mkPose (Num 0) (Num 3) (Num 0) (Num 0) (Num 0) (Num 0).
Proof.
  split; [|vm_compute; reflexivity].
  intros text before line after Hsplit. unfold parseGlobalVars.
  rewrite Hsplit, fold_left_app. cbn [fold_left]. split; intros Hline Hafter.
  - rewrite fold_world_unchanged by exact Hafter.
    unfold globalVarsStep. now rewrite Hline.
  - rewrite fold_tool_unchanged.
    + unfold globalVarsStep.
      destruct (isWorldLine line) eqn:E.
      * apply world_tool_exclusive in E. congruence.
      * now rewrite Hline.
    + intros l Hl Ht. rewrite (Hafter l Hl) in Ht. discriminate.
Qed.

Lemma parseGlobalVars_last_line_witness :
  let text :=
    concat (String "010" "")
      ["tool1 z := 9"; "world1 x := 5 y := 7"; "world1 y := 3"; "end"] in
  split text
  = (["tool1 z := 9"; "world1 x := 5 y := 7"] ++ "world1 y := 3" :: ["end"])%list
  /\ isWorldLine "world1 y := 3" = true
  /\ (forall l, In l ["end"] -> isWorldLine l = false)
  /\ world (parseGlobalVars text) = parseLineToPose "world1 y := 3".
Proof.
  cbv zeta.
  assert (H1 : split (concat (String "010" "")
                        ["tool1 z := 9"; "world1 x := 5 y := 7";
                         "world1 y := 3"; "end"])
               = (["tool1 z := 9"; "world1 x := 5 y := 7"]
                  ++ "world1 y := 3" :: ["end"])%list)
    by reflexivity.
  assert (H2 : isWorldLine "world1 y := 3" = true) by reflexivity.
  assert (H3 : forall l, In l ["end"] -> isWorldLine l = false).
  { intros l [<-|[]]. reflexivity. }
  split; [exact H1|]. split; [exact H2|]. split; [exact H3|].
  exact (proj1 (proj1 parseGlobalVars_last_line _ _ _ _ H1) H2 H3).
Defined.

(** *** The pattern [key\s*:=\s*([-\d.]+)] and its matcher *)


Lemma matchKey_complete key k rest :
  sameLetters key k = true -> matchKey key (k ++ rest) = Some rest.
Proof.
  revert k.
  induction key as [|u key IH]; intros [|v k] H; cbn [sameLetters] in H;
    try discriminate.
  - now destruct rest.
  - apply andb_true_iff in H as [E Hk]. cbn [append matchKey].
    rewrite E. now apply IH.
Qed.


Lemma matchLiteral_complete lit rest :
  matchLiteral lit (lit ++ rest) = Some rest.
Proof.
  induction lit as [|l lit IH]; cbn [append matchLiteral].
  - now destruct rest.
  - now rewrite Ascii.eqb_refl.
Qed.


Lemma skipSpaces_complete ws rest :
  allOf isWhiteSpace ws = true ->
  match rest with
  | EmptyString => True
  | String ch _ => isWhiteSpace ch = false
  end ->
  skipSpaces (ws ++ rest) = rest.
Proof.
  intros Hws Hrest. induction ws as [|ch ws IH]; cbn [append].
  - destruct rest as [|ch rest]; cbn [skipSpaces];
      [reflexivity|now rewrite Hrest].
  - cbn [allOf] in Hws. apply andb_true_iff in Hws as [E Hws].
    cbn [skipSpaces]. rewrite E. now apply IH.
Qed.


Lemma isNumChar_not_space ch : isNumChar ch = true -> isWhiteSpace ch = false.
Proof.
  destruct ch as [[] [] [] [] [] [] [] []]; vm_compute; congruence.
Qed.



Lemma regexMatch_head key text group :
  matchAt key text = Some group -> regexMatch key text = Some group.
Proof. intros H. destruct text; cbn [regexMatch]; now rewrite H. Qed.





(** *** The value of an assigned key *)

Lemma takeNumChars_prefix value rest :
  allOf isNumChar value = true -> endsNumber rest = true ->
  takeNumChars (value ++ rest) = value.
Proof.
  intros Hv Hr. induction value as [|ch value IH]; cbn [append takeNumChars].
  - destruct rest as [|ch rest]; cbn [takeNumChars]; [reflexivity|].
    cbn [endsNumber] in Hr. apply negb_true_iff in Hr. now rewrite Hr.
  - cbn [allOf] in Hv. apply andb_true_iff in Hv as [-> Hv]. now rewrite IH.
Qed.






(** *** [parseFloat] on number characters *)










End ParserFacts.

(** * Further properties of the code *)

(** ** Frames and pose matrices are rigid transforms *)

Module FrameFacts.
Import Three.
Import Kinematics.
Import Notions.
Import MatrixFacts.
Import KinematicsFacts.
Local Open Scope R_scope.

Lemma multiply_identity_r (m : Matrix4) : multiply m identity = m.
Proof. destruct m. matrix_eq ring. Qed.

Lemma rigid_identity : rigid identity.
Proof.
  unfold rigid, affine, orthonormal, determinant, identity; cbn.
  repeat split; ring.
Qed.

Lemma rigid_multiply p q : rigid p -> rigid q -> rigid (multiply p q).
Proof.
  destruct p as [a11 a12 a13 a14 a21 a22 a23 a24
                 a31 a32 a33 a34 a41 a42 a43 a44].
  destruct q as [b11 b12 b13 b14 b21 b22 b23 b24
                 b31 b32 b33 b34 b41 b42 b43 b44].
  unfold rigid, affine, orthonormal, determinant, multiply; cbn.
  intros [(-> & -> & -> & ->) [(A1 & A2 & A3 & A4 & A5 & A6) Da]]
         [(-> & -> & -> & ->) [(B1 & B2 & B3 & B4 & B5 & B6) Db]].
  split; [repeat split; ring|]. split.
  - repeat split.
    + transitivity
        (b11*b11*(a11*a11+a21*a21+a31*a31) + b21*b21*(a12*a12+a22*a22+a32*a32)
         + b31*b31*(a13*a13+a23*a23+a33*a33)
         + 2*b11*b21*(a11*a12+a21*a22+a31*a32)
         + 2*b11*b31*(a11*a13+a21*a23+a31*a33)
         + 2*b21*b31*(a12*a13+a22*a23+a32*a33)); [ring|].
      rewrite A1, A2, A3, A4, A5, A6. lra.
    + transitivity
        (b12*b12*(a11*a11+a21*a21+a31*a31) + b22*b22*(a12*a12+a22*a22+a32*a32)
         + b32*b32*(a13*a13+a23*a23+a33*a33)
         + 2*b12*b22*(a11*a12+a21*a22+a31*a32)
         + 2*b12*b32*(a11*a13+a21*a23+a31*a33)
         + 2*b22*b32*(a12*a13+a22*a23+a32*a33)); [ring|].
      rewrite A1, A2, A3, A4, A5, A6. lra.
    + transitivity
        (b13*b13*(a11*a11+a21*a21+a31*a31) + b23*b23*(a12*a12+a22*a22+a32*a32)
         + b33*b33*(a13*a13+a23*a23+a33*a33)
         + 2*b13*b23*(a11*a12+a21*a22+a31*a32)
         + 2*b13*b33*(a11*a13+a21*a23+a31*a33)
         + 2*b23*b33*(a12*a13+a22*a23+a32*a33)); [ring|].
      rewrite A1, A2, A3, A4, A5, A6. lra.
    + transitivity
        (b11*b12*(a11*a11+a21*a21+a31*a31) + b21*b22*(a12*a12+a22*a22+a32*a32)
         + b31*b32*(a13*a13+a23*a23+a33*a33)
         + (b11*b22+b21*b12)*(a11*a12+a21*a22+a31*a32)
         + (b11*b32+b31*b12)*(a11*a13+a21*a23+a31*a33)
         + (b21*b32+b31*b22)*(a12*a13+a22*a23+a32*a33)); [ring|].
      rewrite A1, A2, A3, A4, A5, A6. lra.
    + transitivity
        (b11*b13*(a11*a11+a21*a21+a31*a31) + b21*b23*(a12*a12+a22*a22+a32*a32)
         + b31*b33*(a13*a13+a23*a23+a33*a33)
         + (b11*b23+b21*b13)*(a11*a12+a21*a22+a31*a32)
         + (b11*b33+b31*b13)*(a11*a13+a21*a23+a31*a33)
         + (b21*b33+b31*b23)*(a12*a13+a22*a23+a32*a33)); [ring|].
      rewrite A1, A2, A3, A4, A5, A6. lra.
    + transitivity
        (b12*b13*(a11*a11+a21*a21+a31*a31) + b22*b23*(a12*a12+a22*a22+a32*a32)
         + b32*b33*(a13*a13+a23*a23+a33*a33)
         + (b12*b23+b22*b13)*(a11*a12+a21*a22+a31*a32)
         + (b12*b33+b32*b13)*(a11*a13+a21*a23+a31*a33)
         + (b22*b33+b32*b23)*(a12*a13+a22*a23+a32*a33)); [ring|].
      rewrite A1, A2, A3, A4, A5, A6. lra.
  - cbn in Da, Db.
    assert (Da' : - a13 * a22 * a31 - a11 * a23 * a32 + a11 * a22 * a33
                  + a13 * a21 * a32 - a12 * a21 * a33 + a12 * a23 * a31 = 1)
      by lra.
    assert (Db' : - b13 * b22 * b31 - b11 * b23 * b32 + b11 * b22 * b33
                  + b13 * b21 * b32 - b12 * b21 * b33 + b12 * b23 * b31 = 1)
      by lra.
    transitivity
      ((- a13 * a22 * a31 - a11 * a23 * a32 + a11 * a22 * a33
        + a13 * a21 * a32 - a12 * a21 * a33 + a12 * a23 * a31)
       * (- b13 * b22 * b31 - b11 * b23 * b32 + b11 * b22 * b33
          + b13 * b21 * b32 - b12 * b21 * b33 + b12 * b23 * b31)); [ring|].
    rewrite Da', Db'. ring.
Qed.

Lemma rigid_makeTranslation tx ty tz : rigid (makeTranslation tx ty tz).
Proof.
  unfold rigid, affine, orthonormal, determinant, makeTranslation; cbn.
  repeat split; ring.
Qed.

Ltac rigid_rotation theta :=
  unfold rigid, affine, orthonormal, determinant; cbn;
  pose proof (sin2_cos2 theta) as Hsc; unfold Rsqr in Hsc;
  repeat split; try ring; try lra.

Lemma rigid_makeRotationX theta : rigid (makeRotationX theta).
Proof. unfold makeRotationX. rigid_rotation theta. Qed.

Lemma rigid_makeRotationY theta : rigid (makeRotationY theta).
Proof. unfold makeRotationY. rigid_rotation theta. Qed.

Lemma rigid_makeRotationZ theta : rigid (makeRotationZ theta).
Proof. unfold makeRotationZ. rigid_rotation theta. Qed.

Lemma rigid_applyTransforms m t deg ax :
  rigid m -> rigid (applyTransforms m t deg ax).
Proof.
  intros H. unfold applyTransforms.
  apply rigid_multiply;
    [apply rigid_multiply; [exact H|apply rigid_makeTranslation]|].
  destruct ax;
    [apply rigid_makeRotationX|apply rigid_makeRotationY
    |apply rigid_makeRotationZ].
Qed.

(** [decompose] of a rigid transform: scale 1 on every axis, and as
    position the translation column. *)
Lemma rigid_decompose (m : Matrix4) :
  rigid m ->
  scale (decompose m) = mkVector3 1 1 1 /\
  position (decompose m) = setFromMatrixPosition m.
Proof.
  intros [_ [(A1 & A2 & A3 & _) Hd]]. unfold decompose. cbn [scale position].
  split; [|reflexivity].
  unfold length. cbn [vx vy vz]. rewrite A1, A2, A3, sqrt_1.
  rewrite Rltb_false by lra. reflexivity.
Qed.

Lemma rigid_poseToMatrix (p : Pose.PoseData R) : rigid (poseToMatrix p).
Proof.
  unfold poseToMatrix.
  repeat first [ apply rigid_multiply | apply rigid_identity
               | apply rigid_makeTranslation | apply rigid_makeRotationX
               | apply rigid_makeRotationY | apply rigid_makeRotationZ ].
Qed.

Lemma poseToMatrix_position (p : Pose.PoseData R) :
  setFromMatrixPosition (poseToMatrix p)
  = mkVector3 (Pose.x p) (Pose.y p) (Pose.z p).
Proof.
  unfold poseToMatrix, setFromMatrixPosition. rewrite multiply_identity_l.
  unfold makeTranslation, makeRotationX, makeRotationY, makeRotationZ.
  cbn [multiply n11 n12 n13 n14 n21 n22 n23 n24
       n31 n32 n33 n34 n41 n42 n43 n44].
  f_equal; ring.
Qed.

Lemma poseToMatrix_zero : poseToMatrix zeroPose = identity.
Proof.
  unfold poseToMatrix, zeroPose.
  cbn [Pose.x Pose.y Pose.z Pose.a Pose.b Pose.c].
  unfold getRad. replace (0 * (PI / 180)) with 0 by ring.
  unfold makeTranslation, makeRotationX, makeRotationY, makeRotationZ.
  rewrite cos_0, sin_0. unfold identity.
  apply Matrix4_ext; cbn; ring.
Qed.

Lemma invert_identity : invert identity = identity.
Proof.
  rewrite <- (multiply_identity_l (invert identity)).
  apply invert_right.
  unfold invert_det, invert_t11, invert_t12, invert_t13, invert_t14, identity;
    cbn. lra.
Qed.






(** X1.  Every frame that [forwardKinematicsChain] returns is a rigid
    transform, whatever the DH parameters and the joint angles: its last row
    is 0 0 0 1, the columns of its rotation block are orthonormal and its
    determinant is 1.  So [decompose] of a frame gives scale (1, 1, 1) and
    the frame's translation column as position. *)
Theorem forwardKinematicsChain_rigid dh (jointAngles : list R) :
  Spec.DHParameterSet dh -> Spec.JointAngleVector jointAngles ->
  Forall (fun frame =>
            rigid frame /\
            scale (decompose frame) = mkVector3 1 1 1 /\
            position (decompose frame) = setFromMatrixPosition frame)
         (forwardKinematicsChain dh jointAngles).
Proof.
  intros _ _.
  assert (H : Forall rigid (forwardKinematicsChain dh jointAngles)).
  { unfold forwardKinematicsChain.
    repeat apply Forall_cons; try apply Forall_nil;
      repeat first [ apply rigid_applyTransforms
                   | apply rigid_multiply
                   | apply rigid_identity
                   | apply rigid_makeTranslation
                   | apply rigid_makeRotationX
                   | apply rigid_makeRotationY
                   | apply rigid_makeRotationZ ]. }
  apply (Forall_impl _ (fun frame Hr => conj Hr (rigid_decompose frame Hr)) H).
Qed.

Lemma forwardKinematicsChain_rigid_witness :
  Spec.DHParameterSet defaultConfig /\
  Spec.JointAngleVector [10; 20; 30; 40; 50; 60] /\
  Forall (fun frame =>
            rigid frame /\
            scale (decompose frame) = mkVector3 1 1 1 /\
            position (decompose frame) = setFromMatrixPosition frame)
         (forwardKinematicsChain defaultConfig [10; 20; 30; 40; 50; 60]).
Proof.
  assert (H1 : Spec.DHParameterSet defaultConfig)
    by exact defaultConfig_DHParameterSet.
  assert (H2 : Spec.JointAngleVector [10; 20; 30; 40; 50; 60]) by reflexivity.
  split; [exact H1|]. split; [exact H2|].
  exact (forwardKinematicsChain_rigid defaultConfig [10; 20; 30; 40; 50; 60]
           H1 H2).
Defined.

(** X2.  The matrix [poseToMatrix] builds from a pose is a rigid transform
    whose translation column is the pose's (x, y, z); the pose with all six
    components 0 gives the identity. *)
Theorem poseToMatrix_rigid (p : Pose.PoseData R) :
  rigid (poseToMatrix p) /\
  setFromMatrixPosition (poseToMatrix p)
  = mkVector3 (Pose.x p) (Pose.y p) (Pose.z p) /\
  poseToMatrix zeroPose = identity.
Proof.
  split; [apply rigid_poseToMatrix|].
  split; [apply poseToMatrix_position|apply poseToMatrix_zero].
Qed.

(** X3.  Without a tool offset the flange target is the world offset
    applied to the waypoint; without world and tool offsets it is the
    waypoint itself, matrix and position. *)
Theorem calculateFlangeTarget_no_offsets (point worldOffset : Pose.PoseData R) :
  ft_matrix (calculateFlangeTarget point worldOffset zeroPose)
  = multiply (poseToMatrix worldOffset) (poseToMatrix point) /\
  ft_matrix (calculateFlangeTarget point zeroPose zeroPose)
  = poseToMatrix point /\
  ft_position (calculateFlangeTarget point zeroPose zeroPose)
  = mkVector3 (Pose.x point) (Pose.y point) (Pose.z point).
Proof.
  assert (E : forall w, ft_matrix (calculateFlangeTarget point w zeroPose)
                        = multiply (poseToMatrix w) (poseToMatrix point)).
  { intros w. unfold calculateFlangeTarget. cbn [ft_matrix].
    rewrite poseToMatrix_zero, invert_identity.
    apply multiply_identity_r. }
  split; [apply E|].
  assert (E0 : ft_matrix (calculateFlangeTarget point zeroPose zeroPose)
               = poseToMatrix point).
  { rewrite E, poseToMatrix_zero. apply multiply_identity_l. }
  split; [exact E0|].
  change (ft_position (calculateFlangeTarget point zeroPose zeroPose))
    with (setFromMatrixPosition
            (ft_matrix (calculateFlangeTarget point zeroPose zeroPose))).
  rewrite E0. apply poseToMatrix_position.
Qed.

(** X4.  The flange target undoes the tool: the flange matrix followed by
    the tool's pose matrix is the world offset followed by the waypoint,
    for every tool offset. *)
Theorem calculateFlangeTarget_tool_attached
    (point worldOffset toolOffset : Pose.PoseData R) :
  multiply (ft_matrix (calculateFlangeTarget point worldOffset toolOffset))
           (poseToMatrix toolOffset)
  = multiply (poseToMatrix worldOffset) (poseToMatrix point).
Proof.
  unfold calculateFlangeTarget. cbn [ft_matrix].
  rewrite multiply_assoc, invert_left, multiply_identity_r;
    [reflexivity|].
  rewrite poseToMatrix_det. lra.
Qed.

(** X5.  A frame depends only on the joints before it: when two joint
    angle vectors agree on their first [k] angles, the chains agree on the
    frames 0 to [k] (frame 0 is the base, frame [i] follows joint [i]). *)
Theorem forwardKinematicsChain_prefix dh (angles angles' : list R) (k : nat) :
  Spec.DHParameterSet dh ->
  Spec.JointAngleVector angles -> Spec.JointAngleVector angles' ->
  (forall j, (j < k)%nat -> get angles j = get angles' j) ->
  forall i, (i <= k)%nat ->
    nth i (forwardKinematicsChain dh angles) identity
    = nth i (forwardKinematicsChain dh angles') identity.
Proof.
  intros _ _ _ H i Hi.
  assert (J : forall j, (j <= i)%nat ->
                        get (0 :: angles) j = get (0 :: angles') j).
  { intros [|j] Hj; [reflexivity|]. cbn [get nth]. apply H. lia. }
  unfold forwardKinematicsChain.
  do 7 (destruct i as [|i];
        [cbn [nth]; rewrite ?(J 0%nat), ?(J 1%nat), ?(J 2%nat), ?(J 3%nat),
                            ?(J 4%nat), ?(J 5%nat), ?(J 6%nat) by lia;
         reflexivity|]).
  destruct i as [|i].
  - cbn [nth]. rewrite ?(J 0%nat), ?(J 1%nat), ?(J 2%nat), ?(J 3%nat),
                       ?(J 4%nat), ?(J 5%nat), ?(J 6%nat) by lia.
    reflexivity.
  - cbn [nth]. now destruct i.
Qed.

Lemma forwardKinematicsChain_prefix_witness :
  Spec.DHParameterSet defaultConfig /\
  Spec.JointAngleVector [10; 20; 30; 40; 50; 60] /\
  Spec.JointAngleVector [10; 20; 30; 0; 0; 0] /\
  nth 3 (forwardKinematicsChain defaultConfig [10; 20; 30; 40; 50; 60])
      identity
  = nth 3 (forwardKinematicsChain defaultConfig [10; 20; 30; 0; 0; 0])
      identity.
Proof.
  assert (H1 : Spec.DHParameterSet defaultConfig)
    by exact defaultConfig_DHParameterSet.
  assert (H2 : Spec.JointAngleVector [10; 20; 30; 40; 50; 60]) by reflexivity.
  assert (H3 : Spec.JointAngleVector [10; 20; 30; 0; 0; 0]) by reflexivity.
  assert (H4 : forall j, (j < 3)%nat ->
            get [10; 20; 30; 40; 50; 60] j = get [10; 20; 30; 0; 0; 0] j).
  { intros j Hj. do 3 (destruct j as [|j]; [reflexivity|]). lia. }
  split; [exact H1|]. split; [exact H2|]. split; [exact H3|].
  exact (forwardKinematicsChain_prefix defaultConfig
           [10; 20; 30; 40; 50; 60] [10; 20; 30; 0; 0; 0] 3 H1 H2 H3 H4
           3%nat (le_n 3)).
Defined.

Lemma applyTransforms_turns m t (u o : R) (k : Z) ax :
  applyTransforms m t (u + 360 * IZR k + o) ax
  = applyTransforms m t (u + o) ax.
Proof.
  unfold applyTransforms. rewrite getRad_turns.
  unfold makeRotationX, makeRotationY, makeRotationZ.
  now rewrite cos_turns, sin_turns.
Qed.

(** X6.  Whole turns do not move the arm: joint angle vectors that differ
    by multiples of 360 degrees on each joint have the same chain of
    frames. *)
Theorem forwardKinematicsChain_whole_turns dh (angles angles' : list R) :
  Spec.DHParameterSet dh ->
  Spec.JointAngleVector angles -> Spec.JointAngleVector angles' ->
  (forall j, (j < 6)%nat ->
     exists k : Z, get angles' j = get angles j + 360 * IZR k) ->
  forwardKinematicsChain dh angles' = forwardKinematicsChain dh angles.
Proof.
  intros _ Ha Ha' H.
  assert (J : forall j, (j < 7)%nat -> exists k : Z,
             get (0 :: angles') j = get (0 :: angles) j + 360 * IZR k).
  { intros [|j] Hj; [exists 0%Z; cbn [get nth]; ring|]. apply H. lia. }
  unfold forwardKinematicsChain.
  destruct (J 0%nat ltac:(lia)) as [k0 ->].
  destruct (J 1%nat ltac:(lia)) as [k1 ->].
  destruct (J 2%nat ltac:(lia)) as [k2 ->].
  destruct (J 3%nat ltac:(lia)) as [k3 ->].
  destruct (J 4%nat ltac:(lia)) as [k4 ->].
  destruct (J 5%nat ltac:(lia)) as [k5 ->].
  destruct (J 6%nat ltac:(lia)) as [k6 ->].
  rewrite !applyTransforms_turns. reflexivity.
Qed.

Lemma forwardKinematicsChain_whole_turns_witness :
  Spec.DHParameterSet defaultConfig /\
  Spec.JointAngleVector [10; 20; 30; 40; 50; 60] /\
  Spec.JointAngleVector [370; 20; 30; 40; 50; -300] /\
  forwardKinematicsChain defaultConfig [370; 20; 30; 40; 50; -300]
  = forwardKinematicsChain defaultConfig [10; 20; 30; 40; 50; 60].
Proof.
  assert (H1 : Spec.DHParameterSet defaultConfig)
    by exact defaultConfig_DHParameterSet.
  assert (H2 : Spec.JointAngleVector [10; 20; 30; 40; 50; 60]) by reflexivity.
  assert (H3 : Spec.JointAngleVector [370; 20; 30; 40; 50; -300])
    by reflexivity.
  assert (H4 : forall j, (j < 6)%nat -> exists k : Z,
            get [370; 20; 30; 40; 50; -300] j
            = get [10; 20; 30; 40; 50; 60] j + 360 * IZR k).
  { intros j Hj.
    destruct j as [|j]; [exists 1%Z; unfold get; cbn [nth]; lra|].
    do 4 (destruct j as [|j]; [exists 0%Z; unfold get; cbn [nth]; lra|]).
    destruct j as [|j]; [exists (-1)%Z; unfold get; cbn [nth]; lra|]. lia. }
  split; [exact H1|]. split; [exact H2|]. split; [exact H3|].
  exact (forwardKinematicsChain_whole_turns defaultConfig
           [10; 20; 30; 40; 50; 60] [370; 20; 30; 40; 50; -300] H1 H2 H3 H4).
Defined.

End FrameFacts.

(** ** The solver: fixed points, normalised output, tolerance *)

Module SolverFacts.
Import Three.
Import Kinematics.
Import MatrixFacts.
Import KinematicsFacts.
Local Open Scope R_scope.

Lemma normalizeAngle_idempotent (u : R) :
  normalizeAngle (normalizeAngle u) = normalizeAngle u.
Proof. apply normalizeAngle_fixed, normalizeAngle_range. Qed.

Lemma map_normalizeAngle_fixed (angles : list R) :
  Forall (fun u => -180 <= u <= 180) angles ->
  map normalizeAngle angles = angles.
Proof.
  induction 1 as [|u l Hu _ IH]; cbn [map]; [reflexivity|].
  now rewrite IH, normalizeAngle_fixed.
Qed.

Lemma inverseKinematicsRun_unfold dh target seed :
  inverseKinematicsRun dh target seed
  = ikLoop dh (position (decompose target)) (quaternion (decompose target))
      maxIterations 0 seed.
Proof. reflexivity. Qed.

Lemma inverseKinematics_length dh target (seed : list R) :
  List.length (inverseKinematics dh target seed) = List.length seed.
Proof.
  unfold inverseKinematics. rewrite length_map, inverseKinematicsRun_unfold.
  apply ikLoop_length.
Qed.

Lemma ikLoop_break_converged dh tp tq remaining iter angles :
  ik_break (ikLoop dh tp tq remaining iter angles) = true ->
  let final := ik_angles (ikLoop dh tp tq remaining iter angles) in
  let err := errorVectors tp tq (lastFrame (forwardKinematicsChain dh final)) in
  converged (fst err) (snd err) = true.
Proof.
  revert iter angles.
  induction remaining as [|n IH]; intros iter angles; cbn [ikLoop].
  - cbn [ik_break]. discriminate.
  - destruct (errorVectors tp tq (lastFrame (forwardKinematicsChain dh angles)))
      as [errPos errRot] eqn:E.
    destruct (converged errPos errRot) eqn:C.
    + intros _. cbn [ik_angles]. cbv zeta. now rewrite E.
    + apply IH.
Qed.

Lemma Rltb_lt u v : Rltb u v = true -> u < v.
Proof. unfold Rltb. destruct (Rlt_dec u v); [auto|discriminate]. Qed.

(** X7.  A pose the arm is already in is solved by staying put: asked for
    the pose of joint angles that lie between -180 and 180 degrees, and
    seeded with these angles, [inverseKinematics] returns them unchanged. *)
Theorem inverseKinematics_fixed_point dh (angles : list R) :
  Spec.DHParameterSet dh -> Spec.JointAngleVector angles ->
  Forall (fun u => -180 <= u <= 180) angles ->
  inverseKinematics dh (lastFrame (forwardKinematicsChain dh angles)) angles
  = angles.
Proof.
  intros _ _ H. unfold inverseKinematics.
  rewrite inverseKinematicsRun_same. cbn [ik_angles].
  now apply map_normalizeAngle_fixed.
Qed.

Lemma inverseKinematics_fixed_point_witness :
  Spec.DHParameterSet defaultConfig /\
  Spec.JointAngleVector [10; -20; 30; -40; 50; 180] /\
  Forall (fun u => -180 <= u <= 180) [10; -20; 30; -40; 50; 180] /\
  inverseKinematics defaultConfig
    (lastFrame (forwardKinematicsChain defaultConfig
                  [10; -20; 30; -40; 50; 180]))
    [10; -20; 30; -40; 50; 180]
  = [10; -20; 30; -40; 50; 180].
Proof.
  assert (H1 : Spec.DHParameterSet defaultConfig)
    by exact defaultConfig_DHParameterSet.
  assert (H2 : Spec.JointAngleVector [10; -20; 30; -40; 50; 180])
    by reflexivity.
  assert (H3 : Forall (fun u => -180 <= u <= 180)
                 [10; -20; 30; -40; 50; 180])
    by (repeat constructor; lra).
  split; [exact H1|]. split; [exact H2|]. split; [exact H3|].
  exact (inverseKinematics_fixed_point defaultConfig
           [10; -20; 30; -40; 50; 180] H1 H2 H3).
Defined.

(** X8.  The solver's answer is normalised and keeps the arm's shape: it
    has as many angles as the seed, normalising it again changes nothing,
    and the normalisation moved no frame (the chain of the returned angles
    is the chain of the angles the iteration ended with). *)
Theorem inverseKinematics_normalized dh target (seed : list R) :
  Spec.DHParameterSet dh -> Spec.JointAngleVector seed ->
  Spec.JointAngleVector (inverseKinematics dh target seed) /\
  map normalizeAngle (inverseKinematics dh target seed)
  = inverseKinematics dh target seed /\
  forwardKinematicsChain dh (inverseKinematics dh target seed)
  = forwardKinematicsChain dh
      (ik_angles (inverseKinematicsRun dh target seed)).
Proof.
  intros _ Hs. split; [|split].
  - unfold Spec.JointAngleVector. now rewrite inverseKinematics_length.
  - unfold inverseKinematics. rewrite map_map.
    apply map_ext. intros u. apply normalizeAngle_idempotent.
  - unfold inverseKinematics. apply forwardKinematicsChain_normalizeAngle.
Qed.

Lemma inverseKinematics_normalized_witness :
  Spec.DHParameterSet defaultConfig /\
  Spec.JointAngleVector [0; 0; 0; 0; 0; 0] /\
  map normalizeAngle (inverseKinematics defaultConfig identity
                        [0; 0; 0; 0; 0; 0])
  = inverseKinematics defaultConfig identity [0; 0; 0; 0; 0; 0].
Proof.
  assert (H1 : Spec.DHParameterSet defaultConfig)
    by exact defaultConfig_DHParameterSet.
  assert (H2 : Spec.JointAngleVector [0; 0; 0; 0; 0; 0]) by reflexivity.
  split; [exact H1|]. split; [exact H2|].
  exact (proj1 (proj2 (inverseKinematics_normalized defaultConfig identity
                         [0; 0; 0; 0; 0; 0] H1 H2))).
Defined.

(** X9.  When the iteration ends by its convergence test (and not by
    running out of iterations), the returned angles put the end effector
    within the tolerances of the target: the position error is below 0.1
    and the orientation error vector is shorter than 0.001. *)
Theorem inverseKinematics_break_within_tolerance dh target (seed : list R) :
  Spec.DHParameterSet dh -> Spec.JointAngleVector seed ->
  ik_break (inverseKinematicsRun dh target seed) = true ->
  let solution := inverseKinematics dh target seed in
  let err :=
    errorVectors (position (decompose target)) (quaternion (decompose target))
      (lastFrame (forwardKinematicsChain dh solution)) in
  length (fst err) < 0.1 /\ length (snd err) < 0.001.
Proof.
  intros _ _ Hb solution err. subst err solution.
  unfold inverseKinematics. rewrite forwardKinematicsChain_normalizeAngle.
  rewrite inverseKinematicsRun_unfold in *.
  generalize (ikLoop_break_converged dh (position (decompose target))
                (quaternion (decompose target)) maxIterations 0 seed Hb).
  generalize (ikLoop dh (position (decompose target))
                (quaternion (decompose target)) maxIterations 0 seed).
  intros run Hc. unfold converged in Hc.
  apply andb_true_iff in Hc as [H1 H2].
  split; [apply (Rltb_lt _ _ H1)|apply (Rltb_lt _ _ H2)].
Qed.

Lemma inverseKinematics_break_within_tolerance_witness :
  let seed := [10; 20; 30; 40; 50; 60] in
  let target := lastFrame (forwardKinematicsChain defaultConfig seed) in
  Spec.DHParameterSet defaultConfig /\
  Spec.JointAngleVector seed /\
  ik_break (inverseKinematicsRun defaultConfig target seed) = true /\
  let solution := inverseKinematics defaultConfig target seed in
  let err :=
    errorVectors (position (decompose target)) (quaternion (decompose target))
      (lastFrame (forwardKinematicsChain defaultConfig solution)) in
  length (fst err) < 0.1 /\ length (snd err) < 0.001.
Proof.
  intros seed target.
  assert (H1 : Spec.DHParameterSet defaultConfig)
    by exact defaultConfig_DHParameterSet.
  assert (H2 : Spec.JointAngleVector seed) by reflexivity.
  assert (H3 : ik_break (inverseKinematicsRun defaultConfig target seed)
               = true).
  { unfold target. rewrite inverseKinematicsRun_same. reflexivity. }
  split; [exact H1|]. split; [exact H2|]. split; [exact H3|].
  exact (inverseKinematics_break_within_tolerance defaultConfig target seed
           H1 H2 H3).
Defined.

End SolverFacts.

(** ** Texts that are written and read back *)

Module TextFacts.
Import Parser.
Import Grammar.
Import TextNotions.
Import ParserFacts.
Local Open Scope string_scope.

Lemma append_assoc (s t u : string) : (s ++ t) ++ u = s ++ t ++ u.
Proof.
  induction s as [|ch s IH]; cbn [append]; [reflexivity|now rewrite IH].
Qed.

Lemma append_nil_r (s : string) : s ++ EmptyString = s.
Proof.
  induction s as [|ch s IH]; cbn [append]; [reflexivity|now rewrite IH].
Qed.

Lemma allOf_app p (s t : string) :
  allOf p (s ++ t) = allOf p s && allOf p t.
Proof.
  induction s as [|ch s IH]; cbn [append allOf]; [reflexivity|].
  now rewrite IH, andb_assoc.
Qed.

(** *** Decimal digits *)

Lemma string_of_uint_digits u :
  allOf isDigit (DecimalString.NilEmpty.string_of_uint u) = true.
Proof.
  induction u; cbn [DecimalString.NilEmpty.string_of_uint allOf];
    try reflexivity; now rewrite IHu.
Qed.

Lemma digitsValue_uint u (acc : nat) :
  digitsValue (Z.of_nat acc) (DecimalString.NilEmpty.string_of_uint u)
  = Z.of_nat (Nat.of_uint_acc u acc).
Proof.
  revert acc. induction u; intros acc;
    cbn [DecimalString.NilEmpty.string_of_uint digitsValue Nat.of_uint_acc];
    [reflexivity|..];
    rewrite <- IHu; f_equal; rewrite Nat.tail_mul_spec;
    rewrite ?Nat2Z.inj_succ, Nat2Z.inj_mul;
    match goal with |- context [nat_of_ascii ?ch] =>
      let v := eval vm_compute in (Z.of_nat (nat_of_ascii ch)) in
      change (Z.of_nat (nat_of_ascii ch)) with v end;
    try match goal with |- context [Z.of_nat ?t] =>
          is_ground t; change (Z.of_nat t) with 10%Z end;
    lia.
Qed.

Lemma digitsValue_showNat n : digitsValue 0 (showNat n) = Z.of_nat n.
Proof.
  unfold showNat. rewrite (digitsValue_uint _ 0).
  change (Nat.of_uint_acc (Nat.to_uint n) 0) with (Nat.of_uint (Nat.to_uint n)).
  now rewrite DecimalNat.Unsigned.of_to.
Qed.

Lemma revapp_nonnil u u' :
  u' <> Decimal.Nil -> Decimal.revapp u u' <> Decimal.Nil.
Proof.
  revert u'. induction u; intros u' H; cbn [Decimal.revapp]; auto;
    apply IHu; discriminate.
Qed.

Lemma little_succ_nonnil u : Decimal.Little.succ u <> Decimal.Nil.
Proof. destruct u; cbn; discriminate. Qed.

Lemma to_little_uint_nonnil n acc :
  acc <> Decimal.Nil -> Nat.to_little_uint n acc <> Decimal.Nil.
Proof.
  revert acc. induction n as [|n IH]; intros acc H; cbn [Nat.to_little_uint].
  - exact H.
  - apply IH, little_succ_nonnil.
Qed.

Lemma to_uint_nonnil n : Nat.to_uint n <> Decimal.Nil.
Proof.
  unfold Nat.to_uint, Decimal.rev.
  pose proof (to_little_uint_nonnil n Decimal.zero ltac:(discriminate)) as H.
  destruct (Nat.to_little_uint n Decimal.zero); try contradiction;
    cbn [Decimal.revapp]; apply revapp_nonnil; discriminate.
Qed.

Lemma showNat_nonempty n : showNat n <> EmptyString.
Proof.
  unfold showNat. pose proof (to_uint_nonnil n) as H.
  destruct (Nat.to_uint n); try contradiction; discriminate.
Qed.

Lemma Qred_integer (v : Z) : Qred (v # 1) = v # 1.
Proof.
  unfold Qred.
  pose proof (Z.ggcd_gcd v 1) as Hg.
  pose proof (Z.ggcd_correct_divisors v 1) as Hd.
  destruct (Z.ggcd v 1) as [g [aa bb]]. cbn [fst snd] in *.
  rewrite Z.gcd_1_r in Hg. subst g. destruct Hd as [Ha Hb].
  rewrite Z.mul_1_l in Ha, Hb. subst aa bb. reflexivity.
Qed.

Lemma takeDigits_all s : allOf isDigit s = true -> takeDigits s = s.
Proof.
  induction s as [|ch s IH]; cbn [allOf takeDigits]; [reflexivity|].
  intros H. apply andb_true_iff in H as [-> H]. now rewrite IH.
Qed.

Lemma dropDigits_all s : allOf isDigit s = true -> dropDigits s = EmptyString.
Proof.
  induction s as [|ch s IH]; cbn [allOf dropDigits]; [reflexivity|].
  intros H. apply andb_true_iff in H as [-> H]. now apply IH.
Qed.

Lemma isDigit_numChar ch : isDigit ch = true -> isNumChar ch = true.
Proof. unfold isNumChar. intros ->. now rewrite orb_true_r. Qed.

Lemma allOf_digit_numChar s :
  allOf isDigit s = true -> allOf isNumChar s = true.
Proof.
  induction s as [|ch s IH]; cbn [allOf]; [reflexivity|].
  intros H. apply andb_true_iff in H as [H1 H2].
  now rewrite (isDigit_numChar _ H1), IH.
Qed.

(** [parseFloat] on a run of digits. *)
Lemma parseFloat_digits s :
  s <> EmptyString -> allOf isDigit s = true ->
  parseFloat s = Num (digitsValue 0 s # 1).
Proof.
  intros Hne Hd. destruct s as [|ch s]; [contradiction|].
  assert (Hch : isDigit ch = true)
    by (cbn [allOf] in Hd; now apply andb_true_iff in Hd).
  assert (E : parseFloat (String ch s)
              = match takeDigits (String ch s),
                      match dropDigits (String ch s) with
                      | String "." rest => takeDigits rest
                      | _ => EmptyString
                      end with
                | EmptyString, EmptyString => NaN
                | whole, frac => Num (decimalValue whole frac)
                end).
  { destruct ch as [[] [] [] [] [] [] [] []]; try discriminate Hch;
      reflexivity. }
  rewrite E, takeDigits_all, dropDigits_all by exact Hd.
  unfold decimalValue. rewrite append_nil_r. cbn [String.length pow10].
  now rewrite Qred_integer.
Qed.

(** [parseFloat] on a minus sign and a run of digits. *)
Lemma parseFloat_minus_digits s :
  s <> EmptyString -> allOf isDigit s = true ->
  parseFloat (String "-" s) = Num (- digitsValue 0 s # 1).
Proof.
  intros Hne Hd. unfold parseFloat. cbv beta iota zeta.
  rewrite takeDigits_all, dropDigits_all by exact Hd.
  destruct s as [|ch s]; [contradiction|]. cbv beta iota.
  unfold decimalValue. rewrite append_nil_r. cbn [String.length pow10].
  rewrite Qred_integer. f_equal. apply Qred_integer.
Qed.

Lemma parseFloat_showZ (v : Z) : parseFloat (showZ v) = Num (v # 1).
Proof.
  unfold showZ. destruct (Z.ltb_spec v 0).
  - rewrite parseFloat_minus_digits
      by (apply showNat_nonempty || apply string_of_uint_digits).
    rewrite digitsValue_showNat. do 2 f_equal. lia.
  - rewrite parseFloat_digits
      by (apply showNat_nonempty || apply string_of_uint_digits).
    rewrite digitsValue_showNat. do 2 f_equal. lia.
Qed.

Lemma showZ_numChars v :
  allOf isNumChar (showZ v) = true /\ showZ v <> EmptyString.
Proof.
  unfold showZ. destruct (v <? 0)%Z.
  - split; [|discriminate]. cbn [allOf].
    rewrite allOf_digit_numChar by apply string_of_uint_digits. reflexivity.
  - split; [apply allOf_digit_numChar, string_of_uint_digits
           |apply showNat_nonempty].
Qed.

(** *** One assignment *)

Lemma sameLetters_refl key : sameLetters key key = true.
Proof.
  induction key as [|ch key IH]; cbn [sameLetters]; [reflexivity|].
  now rewrite Ascii.eqb_refl.
Qed.

(** An integer written in decimal after [key :=] is what the pattern
    captures. *)
Lemma regexMatch_showZ (key rest : string) (v : Z) :
  endsNumber rest = true ->
  regexMatch key (key ++ " := " ++ showZ v ++ rest) = Some (showZ v).
Proof.
  intros Hrest. destruct (showZ_numChars v) as [Hn Hne].
  apply regexMatch_head.
  unfold matchAt. rewrite (matchKey_complete _ _ _ (sameLetters_refl key)).
  change (" := " ++ showZ v ++ rest) with (" " ++ ":=" ++ " " ++ showZ v ++ rest).
  rewrite (skipSpaces_complete " " _ eq_refl) by reflexivity.
  rewrite matchLiteral_complete.
  destruct (showZ v) as [|c0 sv] eqn:Es; [contradiction|].
  assert (Hc0 : isWhiteSpace c0 = false).
  { apply isNumChar_not_space. cbn [allOf] in Hn.
    now apply andb_true_iff in Hn. }
  rewrite (skipSpaces_complete " " _ eq_refl) by exact Hc0.
  rewrite (takeNumChars_prefix _ _ Hn Hrest). reflexivity.
Qed.

(** *** Text that starts no assignment is passed over *)

Lemma blocksKey_app rest text :
  blocksKey rest = true -> blocksKey (rest ++ text) = true.
Proof. destruct rest; [discriminate|intros H; exact H]. Qed.

Lemma matchAt_blocked k ch rest :
  negb (Ascii.eqb (upper k) (upper ch)) || blocksKey rest = true ->
  matchAt (String k EmptyString) (String ch rest) = None.
Proof.
  unfold matchAt. cbn [matchKey].
  destruct (Ascii.eqb (upper k) (upper ch)); cbn [negb orb]; [|reflexivity].
  intros H. destruct rest as [|c2 rest]; [discriminate|].
  cbn [blocksKey] in H. apply andb_true_iff in H as [H1 H2].
  apply negb_true_iff in H1, H2.
  cbn [skipSpaces]. rewrite H1. cbn [matchLiteral]. now rewrite H2.
Qed.

Lemma regexMatch_skip k pre text :
  safeFor k pre = true ->
  regexMatch (String k EmptyString) (pre ++ text)
  = regexMatch (String k EmptyString) text.
Proof.
  induction pre as [|ch pre IH]; cbn [append safeFor]; [reflexivity|].
  intros H. apply andb_true_iff in H as [H1 H2].
  cbn [regexMatch]. rewrite matchAt_blocked; [now apply IH|].
  apply orb_true_iff in H1 as [H1|H1]; apply orb_true_iff;
    [now left|right; now apply blocksKey_app].
Qed.

Lemma safeFor_app k s t :
  safeFor k s = true -> safeFor k t = true -> safeFor k (s ++ t) = true.
Proof.
  intros Hs Ht. induction s as [|ch s IH]; cbn [append safeFor] in *;
    [exact Ht|].
  apply andb_true_iff in Hs as [H1 H2]. rewrite (IH H2), andb_true_r.
  apply orb_true_iff in H1 as [H1|H1]; apply orb_true_iff;
    [now left|right; now apply blocksKey_app].
Qed.

Lemma numChar_not_key ch k :
  isNumChar ch = true ->
  In k ["x"; "y"; "z"; "a"; "b"; "c"]%char ->
  Ascii.eqb (upper k) (upper ch) = false.
Proof.
  destruct ch as [[] [] [] [] [] [] [] []]; intros H;
    try (vm_compute in H; discriminate H);
    intros Hk; cbn [In] in Hk;
    repeat (destruct Hk as [<-|Hk]; [reflexivity|]); contradiction.
Qed.

Lemma safeFor_numChars k s :
  In k ["x"; "y"; "z"; "a"; "b"; "c"]%char ->
  allOf isNumChar s = true -> safeFor k s = true.
Proof.
  intros Hk. induction s as [|ch s IH]; cbn [allOf safeFor]; [reflexivity|].
  intros H. apply andb_true_iff in H as [H1 H2].
  now rewrite (numChar_not_key ch k H1 Hk), IH.
Qed.

Lemma safeFor_showZ k v :
  In k ["x"; "y"; "z"; "a"; "b"; "c"]%char -> safeFor k (showZ v) = true.
Proof. intros Hk. apply safeFor_numChars; [exact Hk|apply showZ_numChars]. Qed.

(** The value of a key: the integer written after the first place where
    the key is assigned. *)
Lemma parseKeyValue_at k pre v rest :
  safeFor k pre = true -> endsNumber rest = true ->
  parseKeyValue (pre ++ String k EmptyString ++ " := " ++ showZ v ++ rest)
                (String k EmptyString)
  = Some (Num (v # 1)).
Proof.
  intros Hp Hr. unfold parseKeyValue.
  rewrite (regexMatch_skip _ _ _ Hp), (regexMatch_showZ _ _ _ Hr).
  now rewrite parseFloat_showZ.
Qed.

Ltac safe_text :=
  repeat first [ assumption
               | apply safeFor_app
               | apply safeFor_showZ; cbn [In]; tauto
               | reflexivity ].

Lemma parseLineToPose_written pre post (p : Pose.PoseData Z) :
  keyFree pre = true -> endsNumber post = true ->
  parseLineToPose (pre ++ showPose p ++ post) = numPose p.
Proof.
  intros Hpre Hpost. destruct p as [x y z a b c].
  unfold keyFree in Hpre.
  repeat (apply andb_true_iff in Hpre as [Hpre ?]).
  unfold parseLineToPose, numPose, showPose.
  cbn [Pose.x Pose.y Pose.z Pose.a Pose.b Pose.c].
  set (line := pre ++ _).
  assert (Ex : parseKeyValue line "x" = Some (Num (x # 1))).
  { subst line.
    rewrite <- (parseKeyValue_at "x" pre x
                  (", y := " ++ showZ y ++ ", z := " ++ showZ z
                   ++ ", a := " ++ showZ a ++ ", b := " ++ showZ b
                   ++ ", c := " ++ showZ c ++ post)) by safe_text.
    f_equal. rewrite ?append_assoc. reflexivity. }
  assert (Ey : parseKeyValue line "y" = Some (Num (y # 1))).
  { subst line.
    rewrite <- (parseKeyValue_at "y" (pre ++ "x := " ++ showZ x ++ ", ") y
                  (", z := " ++ showZ z
                   ++ ", a := " ++ showZ a ++ ", b := " ++ showZ b
                   ++ ", c := " ++ showZ c ++ post)) by safe_text.
    f_equal. rewrite ?append_assoc. reflexivity. }
  assert (Ez : parseKeyValue line "z" = Some (Num (z # 1))).
  { subst line.
    rewrite <- (parseKeyValue_at "z"
                  (pre ++ "x := " ++ showZ x ++ ", y := " ++ showZ y ++ ", ")
                  z
                  (", a := " ++ showZ a ++ ", b := " ++ showZ b
                   ++ ", c := " ++ showZ c ++ post)) by safe_text.
    f_equal. rewrite ?append_assoc. reflexivity. }
  assert (Ea : parseKeyValue line "a" = Some (Num (a # 1))).
  { subst line.
    rewrite <- (parseKeyValue_at "a"
                  (pre ++ "x := " ++ showZ x ++ ", y := " ++ showZ y
                   ++ ", z := " ++ showZ z ++ ", ")
                  a
                  (", b := " ++ showZ b ++ ", c := " ++ showZ c ++ post))
      by safe_text.
    f_equal. rewrite ?append_assoc. reflexivity. }
  assert (Eb : parseKeyValue line "b" = Some (Num (b # 1))).
  { subst line.
    rewrite <- (parseKeyValue_at "b"
                  (pre ++ "x := " ++ showZ x ++ ", y := " ++ showZ y
                   ++ ", z := " ++ showZ z ++ ", a := " ++ showZ a ++ ", ")
                  b
                  (", c := " ++ showZ c ++ post)) by safe_text.
    f_equal. rewrite ?append_assoc. reflexivity. }
  assert (Ec : parseKeyValue line "c" = Some (Num (c # 1))).
  { subst line.
    rewrite <- (parseKeyValue_at "c"
                  (pre ++ "x := " ++ showZ x ++ ", y := " ++ showZ y
                   ++ ", z := " ++ showZ z ++ ", a := " ++ showZ a
                   ++ ", b := " ++ showZ b ++ ", ")
                  c post) by safe_text.
    f_equal. rewrite ?append_assoc. reflexivity. }
  now rewrite Ex, Ey, Ez, Ea, Eb, Ec.
Qed.

(** X10.  A pose line written with whole numbers is read back exactly:
    after any header that starts no assignment to a key, and before any
    text that cannot continue a number, the text
    [x := X, y := Y, z := Z, a := A, b := B, c := C] parses to the pose
    (X, Y, Z, A, B, C). *)
Theorem parseLineToPose_round_trip pre post (p : Pose.PoseData Z) :
  keyFree pre = true -> endsNumber post = true ->
  parseLineToPose (pre ++ showPose p ++ post) = numPose p.
Proof. apply parseLineToPose_written. Qed.

Lemma parseLineToPose_round_trip_witness :
  keyFree "cp1 : CARTPOS := (" = true /\
  endsNumber ")" = true /\
  parseLineToPose
    ("cp1 : CARTPOS := ("
     ++ showPose (Pose.mkPose 100 (-50) 0 0 0 90)%Z ++ ")")
  = numPose (Pose.mkPose 100 (-50) 0 0 0 90)%Z.
Proof.
  assert (H1 : keyFree "cp1 : CARTPOS := (" = true) by reflexivity.
  assert (H2 : endsNumber ")" = true) by reflexivity.
  split; [exact H1|]. split; [exact H2|].
  exact (parseLineToPose_round_trip "cp1 : CARTPOS := (" ")"
           (Pose.mkPose 100 (-50) 0 0 0 90)%Z H1 H2).
Defined.

(** *** Keys in either case *)

Ltac by_cases_on ch :=
  destruct ch as [[] [] [] [] [] [] [] []]; vm_compute; reflexivity.

Lemma upper_upper ch : upper (upper ch) = upper ch.
Proof. by_cases_on ch. Qed.

Lemma isWhiteSpace_upper ch : isWhiteSpace (upper ch) = isWhiteSpace ch.
Proof. by_cases_on ch. Qed.

Lemma isNumChar_upper ch : isNumChar (upper ch) = isNumChar ch.
Proof. by_cases_on ch. Qed.

Lemma upper_numChar ch : isNumChar ch = true -> upper ch = ch.
Proof. destruct ch as [[] [] [] [] [] [] [] []]; vm_compute; congruence. Qed.

Lemma eqb_colon_upper ch : Ascii.eqb ":" (upper ch) = Ascii.eqb ":" ch.
Proof. by_cases_on ch. Qed.

Lemma eqb_equals_upper ch : Ascii.eqb "=" (upper ch) = Ascii.eqb "=" ch.
Proof. by_cases_on ch. Qed.

Lemma matchKey_upper key text :
  matchKey key (upperString text) = option_map upperString (matchKey key text).
Proof.
  revert text. induction key as [|k key IH]; intros text.
  - destruct text; reflexivity.
  - destruct text as [|ch text]; cbn [matchKey upperString]; [reflexivity|].
    rewrite upper_upper.
    destruct (Ascii.eqb (upper k) (upper ch)); [apply IH|reflexivity].
Qed.

Lemma skipSpaces_upper text :
  skipSpaces (upperString text) = upperString (skipSpaces text).
Proof.
  induction text as [|ch text IH]; cbn [skipSpaces upperString]; [reflexivity|].
  rewrite isWhiteSpace_upper. destruct (isWhiteSpace ch); [exact IH|reflexivity].
Qed.

Lemma matchLiteral_op_upper text :
  matchLiteral ":=" (upperString text)
  = option_map upperString (matchLiteral ":=" text).
Proof.
  destruct text as [|c1 text]; [reflexivity|].
  cbn [matchLiteral upperString]. rewrite eqb_colon_upper.
  destruct (Ascii.eqb ":" c1); [|reflexivity].
  destruct text as [|c2 text]; [reflexivity|].
  cbn [matchLiteral upperString]. rewrite eqb_equals_upper.
  destruct (Ascii.eqb "=" c2); [|reflexivity].
  destruct text; reflexivity.
Qed.

Lemma takeNumChars_upper text :
  takeNumChars (upperString text) = takeNumChars text.
Proof.
  induction text as [|ch text IH]; cbn [takeNumChars upperString];
    [reflexivity|].
  rewrite isNumChar_upper. destruct (isNumChar ch) eqn:E; [|reflexivity].
  now rewrite IH, (upper_numChar _ E).
Qed.

Lemma matchAt_upper key text :
  matchAt key (upperString text) = matchAt key text.
Proof.
  unfold matchAt. rewrite matchKey_upper.
  destruct (matchKey key text) as [afterKey|]; cbn [option_map]; [|reflexivity].
  rewrite skipSpaces_upper, matchLiteral_op_upper.
  destruct (matchLiteral ":=" (skipSpaces afterKey)) as [afterOp|];
    cbn [option_map]; [|reflexivity].
  now rewrite skipSpaces_upper, takeNumChars_upper.
Qed.

Lemma regexMatch_upper key text :
  regexMatch key (upperString text) = regexMatch key text.
Proof.
  induction text as [|ch text IH].
  - reflexivity.
  - change (upperString (String ch text))
      with (String (upper ch) (upperString text)).
    cbn [regexMatch].
    change (String (upper ch) (upperString text))
      with (upperString (String ch text)).
    rewrite matchAt_upper. now rewrite IH.
Qed.

(** X11.  The case of the letters of a line does not matter to the pose
    read from it: the line with its letters a to z in upper case parses
    to the same pose. *)
Theorem parseLineToPose_upper line :
  parseLineToPose (upperString line) = parseLineToPose line.
Proof.
  unfold parseLineToPose, parseKeyValue. now rewrite !regexMatch_upper.
Qed.

End TextFacts.

(** ** Records of a file *)

Module RecordFacts.
Import Parser.
Import Grammar.
Import TextNotions.
Import ParserFacts.
Import TextFacts.
Local Open Scope string_scope.

(** *** Trimming and the line prefixes *)

Lemma trimStart_sound s :
  exists ws, s = ws ++ trimStart s /\ allOf isWhiteSpace ws = true.
Proof.
  induction s as [|ch s [ws [IH Hws]]]; cbn [trimStart].
  - now exists EmptyString.
  - destruct (isWhiteSpace ch) eqn:E.
    + exists (String ch ws). cbn [append allOf]. now rewrite E, Hws, <- IH.
    + now exists EmptyString.
Qed.

Lemma trimStart_complete ws rest :
  allOf isWhiteSpace ws = true ->
  match rest with
  | EmptyString => True
  | String ch _ => isWhiteSpace ch = false
  end ->
  trimStart (ws ++ rest) = rest.
Proof.
  intros Hws Hrest. induction ws as [|ch ws IH]; cbn [append].
  - destruct rest as [|ch rest]; cbn [trimStart]; [reflexivity|now rewrite Hrest].
  - cbn [allOf] in Hws. apply andb_true_iff in Hws as [E Hws].
    cbn [trimStart]. rewrite E. now apply IH.
Qed.

(** [trimEnd] keeps a character that is not white space. *)
Lemma trimEnd_cons ch s :
  isWhiteSpace ch = false -> trimEnd (String ch s) = String ch (trimEnd s).
Proof. intros H. cbn [trimEnd]. rewrite H. now destruct (trimEnd s). Qed.

(** What [trimEnd] returns is a prefix of its argument. *)
Lemma trimEnd_prefix s : exists tail, s = trimEnd s ++ tail.
Proof.
  induction s as [|ch s [tail IH]]; cbn [trimEnd].
  - now exists EmptyString.
  - destruct (trimEnd s) as [|k kept] eqn:E.
    + destruct (isWhiteSpace ch).
      * now exists (String ch s).
      * exists tail. cbn [append] in *. now rewrite <- IH.
    + exists tail. cbn [append] in *. now rewrite <- IH.
Qed.

(** A prefix without white space survives [trimEnd]. *)
Lemma startsWith_trimEnd s p :
  allOf (fun ch => negb (isWhiteSpace ch)) p = true ->
  startsWith (trimEnd s) p = startsWith s p.
Proof.
  revert s. induction p as [|k p IH]; intros s Hp.
  - now destruct (trimEnd s), s.
  - cbn [allOf] in Hp. apply andb_true_iff in Hp as [Hk Hp].
    apply negb_true_iff in Hk.
    destruct s as [|ch s]; [reflexivity|].
    destruct (Ascii.eqb_spec k ch) as [<-|Hne].
    + rewrite (trimEnd_cons _ _ Hk). cbn [startsWith].
      rewrite Ascii.eqb_refl. cbn [andb]. now apply IH.
    + assert (E : startsWith (String ch s) (String k p) = false).
      { cbn [startsWith].
        destruct (Ascii.eqb_spec k ch); [contradiction|reflexivity]. }
      rewrite E.
      destruct (trimEnd (String ch s)) as [|c0 t0] eqn:Et; [reflexivity|].
      destruct (trimEnd_prefix (String ch s)) as [tail Ht]. rewrite Et in Ht.
      cbn [append] in Ht. injection Ht as <- _.
      cbn [startsWith].
      destruct (Ascii.eqb_spec k ch); [contradiction|reflexivity].
Qed.

Lemma startsWith_trim line p :
  allOf (fun ch => negb (isWhiteSpace ch)) p = true ->
  p <> EmptyString ->
  (startsWith (trim line) p = true <->
   exists ws rest, line = ws ++ p ++ rest /\ allOf isWhiteSpace ws = true).
Proof.
  intros Hp Hne. unfold trim.
  rewrite (startsWith_trimEnd _ _ Hp), startsWith_spec.
  split.
  - intros [rest Hr]. destruct (trimStart_sound line) as [ws [E Hws]].
    exists ws, rest. now rewrite <- Hr.
  - intros (ws & rest & -> & Hws). exists rest.
    apply trimStart_complete; [exact Hws|].
    destruct p as [|k p]; [contradiction|]. cbn [append allOf] in *.
    apply andb_true_iff in Hp as [Hk _]. now apply negb_true_iff in Hk.
Qed.

(** X12.  Which lines are records of global variables: a line is a world1
    record exactly when it is white space, then the word world1, then
    anything (world10 and world1x included); the same for tool1.  White
    space before the word is allowed, other text is not. *)
Theorem line_prefixes line :
  (isWorldLine line = true <->
   exists ws rest,
     line = ws ++ "world1" ++ rest /\ allOf isWhiteSpace ws = true) /\
  (isToolLine line = true <->
   exists ws rest,
     line = ws ++ "tool1" ++ rest /\ allOf isWhiteSpace ws = true).
Proof.
  split; apply startsWith_trim; (reflexivity || discriminate).
Qed.

(** X13.  A text without world1 lines leaves the world offset at the
    default pose, all zero; a text without tool1 lines leaves the tool
    offset at the default pose. *)
Theorem parseGlobalVars_no_record text :
  ((forall l, In l (split text) -> isWorldLine l = false) ->
   Pose.world (parseGlobalVars text) = defaultPose) /\
  ((forall l, In l (split text) -> isToolLine l = false) ->
   Pose.tool (parseGlobalVars text) = defaultPose).
Proof.
  unfold parseGlobalVars. split; intros H.
  - now rewrite fold_world_unchanged.
  - rewrite fold_tool_unchanged; [reflexivity|].
    intros l Hl Ht. rewrite (H l Hl) in Ht. discriminate.
Qed.

Lemma parseGlobalVars_no_record_witness :
  (forall l, In l (split "tool1 x := 5") -> isWorldLine l = false) /\
  Pose.world (parseGlobalVars "tool1 x := 5") = defaultPose.
Proof.
  assert (H : forall l, In l (split "tool1 x := 5") -> isWorldLine l = false).
  { intros l [<-|[]]. reflexivity. }
  split; [exact H|].
  exact (proj1 (parseGlobalVars_no_record "tool1 x := 5") H).
Defined.

(** *** Lines of a text in two parts *)

(** X14.  Files in sequence: the waypoints of two texts joined by a line
    feed are the waypoints of the first followed by those of the second;
    a text has no more waypoints than lines, and none when no line is a
    waypoint record. *)
Theorem parseTrajectory_append t1 t2 :
  parseTrajectory (t1 ++ String "010" t2)
  = (parseTrajectory t1 ++ parseTrajectory t2)%list /\
  (List.length (parseTrajectory t1) <= List.length (split t1))%nat /\
  ((forall l, In l (split t1) -> isWaypoint l = false) ->
   parseTrajectory t1 = []).
Proof.
  split; [|split].
  - rewrite !parseTrajectory_map, split_append, filter_app. apply map_app.
  - rewrite parseTrajectory_map, length_map. apply filter_length_le.
  - intros H. rewrite parseTrajectory_map.
    induction (split t1) as [|l ls IH]; [reflexivity|].
    cbn [filter]. rewrite (H l) by now left.
    apply IH. intros l' Hl'. apply H. now right.
Qed.

(** *** Files that are written and read back *)

Lemma showZ_notNewline v : allOf notNewline (showZ v) = true.
Proof.
  destruct (showZ_numChars v) as [H _]. revert H.
  induction (showZ v) as [|ch s IH]; cbn [allOf]; [reflexivity|].
  intros H. apply andb_true_iff in H as [H1 H2]. rewrite (IH H2), andb_true_r.
  revert H1. destruct ch as [[] [] [] [] [] [] [] []]; vm_compute; congruence.
Qed.

Lemma showPose_notNewline p : allOf notNewline (showPose p) = true.
Proof.
  unfold showPose. rewrite !allOf_app, !showZ_notNewline. reflexivity.
Qed.





Lemma isWorldLine_written rest : isWorldLine ("world1 " ++ rest) = true.
Proof.
  apply (startsWith_trim _ "world1" eq_refl ltac:(discriminate)).
  now exists EmptyString, (" " ++ rest).
Qed.

Lemma isToolLine_written rest :
  isToolLine ("tool1 " ++ rest) = true /\
  isWorldLine ("tool1 " ++ rest) = false.
Proof.
  split.
  - apply (startsWith_trim _ "tool1" eq_refl ltac:(discriminate)).
    now exists EmptyString, (" " ++ rest).
  - unfold isWorldLine, trim.
    rewrite (startsWith_trimEnd _ "world1" eq_refl). reflexivity.
Qed.

(** X16.  A file of global variables is read back exactly: from a world1
    line and a tool1 line, each with a pose with whole numbers,
    [parseGlobalVars] returns these two poses. *)
Theorem parseGlobalVars_round_trip (world tool : Pose.PoseData Z) :
  parseGlobalVars (writeGlobalVars world tool)
  = Pose.mkGlobalConfig (numPose world) (numPose tool).
Proof.
  unfold parseGlobalVars, writeGlobalVars.
  rewrite <- (append_assoc "world1 " (showPose world)).
  rewrite split_append, !split_single
    by (rewrite allOf_app, showPose_notNewline; reflexivity).
  cbn [app fold_left]. unfold globalVarsStep.
  rewrite isWorldLine_written.
  destruct (isToolLine_written (showPose tool)) as [-> ->].
  cbn [Pose.world Pose.tool]. f_equal.
  - rewrite <- (append_nil_r (showPose world)) at 1.
    now apply parseLineToPose_written.
  - rewrite <- (append_nil_r (showPose tool)) at 1.
    now apply parseLineToPose_written.
Qed.

End RecordFacts.

(** ** Playback to the end *)

Module PlaybackFacts.
Import Three.
Import Kinematics.
Import App.
Import Notions.
Import MatrixFacts.
Import KinematicsFacts.
Import PlayerFacts.
Local Open Scope R_scope.

Lemma tick_all_inBand delta target rest current :
  List.length target = List.length current ->
  (forall j, (j < List.length current)%nat ->
             Spec.inBand (get target j) (get current j)) ->
  tick delta (mkPlayerState (target :: rest) current)
  = (mkPlayerState rest target,
     match rest with [] => true | _ :: _ => false end).
Proof.
  intros Hlen Hall. unfold tick. cbn [queue currentAngles].
  pose proof (mapJoints_length target (120.0 * delta) 0 true current) as Hl.
  pose proof (mapJoints_nth target (120.0 * delta) 0 true current) as Hn.
  pose proof (mapJoints_reached target (120.0 * delta) 0 true current) as Hr.
  destruct (mapJoints target (120.0 * delta) 0 true current) as [next reached].
  cbn [fst snd] in *.
  assert (reached = true) as -> by (apply Hr; split; [reflexivity|exact Hall]).
  assert (next = target) as ->; [|reflexivity].
  apply (nth_ext _ _ 0 0); [congruence|].
  intros j Hj. rewrite Hl in Hj. specialize (Hn j Hj). unfold get in Hn.
  rewrite Hn. cbn [Nat.add]. fold (get current j).
  now rewrite (stepJoint_snap _ _ _ _ _ (Hall j Hj)).
Qed.

Lemma tick_some_outside delta target rest current :
  0 <= delta ->
  (exists j, (j < List.length current)%nat /\
             ~ Spec.inBand (get target j) (get current j)) ->
  exists next,
    tick delta (mkPlayerState (target :: rest) current)
    = (mkPlayerState (target :: rest) next, false) /\
    List.length next = List.length current /\
    forall j, (j < List.length current)%nat ->
      Rabs (get target j - get next j)
      <= Rmax 0 (Rabs (get target j - get current j) - 120 * delta).
Proof.
  intros Hd [j0 [Hj0 Hout]]. unfold tick. cbn [queue currentAngles].
  assert (Hs : 0 <= 120.0 * delta) by lra.
  pose proof (mapJoints_length target (120.0 * delta) 0 true current) as Hl.
  pose proof (mapJoints_nth target (120.0 * delta) 0 true current) as Hn.
  pose proof (mapJoints_reached target (120.0 * delta) 0 true current) as Hr.
  destruct (mapJoints target (120.0 * delta) 0 true current) as [next reached].
  cbn [fst snd] in *.
  assert (reached = false) as ->.
  { destruct reached; [|reflexivity]. exfalso. apply Hout.
    destruct (proj1 Hr eq_refl) as [_ Hall]. apply (Hall j0 Hj0). }
  exists next. split; [reflexivity|]. split; [exact Hl|].
  intros j Hj. rewrite (Hn j Hj). cbn [Nat.add].
  destruct (Rle_dec (Rabs (get target j - get current j)) 0.1) as [Hb|Hb].
  - rewrite (stepJoint_snap _ _ _ _ _ Hb). cbn [fst].
    replace (get target j - get target j) with 0 by ring.
    rewrite Rabs_R0. apply Rmax_l.
  - rewrite (stepJoint_move _ _ _ _ _ Hb). cbn [fst].
    destruct (move_toward _ _ _ Hs Hb) as [H1 H2]. rewrite H2.
    revert H1. generalize (get target j - get current j). intros dlt.
    unfold sign, Rltb, Rmin, Rmax, Rabs.
    repeat match goal with
           | |- context [Rcase_abs ?u] => destruct (Rcase_abs u)
           | |- context [Rle_dec ?u ?v] => destruct (Rle_dec u v)
           | |- context [Rlt_dec ?u ?v] => destruct (Rlt_dec u v)
           end; intros; try lra.
Qed.

Lemma inBand_all_or_not target current :
  (forall j, (j < List.length current)%nat ->
             Spec.inBand (get target j) (get current j)) \/
  (exists j, (j < List.length current)%nat /\
             ~ Spec.inBand (get target j) (get current j)).
Proof.
  generalize (List.length current). intros n. induction n as [|n [IH|IH]].
  - left. intros j Hj. lia.
  - destruct (Rle_dec (Rabs (get target n - get current n)) 0.1) as [Hb|Hb].
    + left. intros j Hj. destruct (Nat.eq_dec j n) as [->|Hne];
        [exact Hb|apply IH; lia].
    + right. exists n. split; [lia|exact Hb].
  - right. destruct IH as [j [Hj Hb]]. exists j. split; [lia|exact Hb].
Qed.

Lemma ticks_last n delta st :
  ticks (S n) delta st = fst (tick delta (ticks n delta st)).
Proof.
  revert st. induction n as [|n IH]; intros st; [reflexivity|].
  change (ticks (S (S n)) delta st)
    with (ticks (S n) delta (fst (tick delta st))).
  now rewrite IH.
Qed.

Lemma ticks_add n m delta st :
  ticks (n + m) delta st = ticks m delta (ticks n delta st).
Proof.
  revert st. induction n as [|n IH]; intros st; cbn [Nat.add ticks];
    [reflexivity|apply IH].
Qed.

(** The frames up to the one that reaches the target. *)
Lemma reaches_target (k : nat) (delta : R) (target : list R)
    (rest : list (list R)) (current : list R) :
  0 < delta ->
  Spec.JointAngleVector target -> Spec.JointAngleVector current ->
  (forall j, (j < 6)%nat ->
     Rabs (get target j - get current j) <= INR k * (120 * delta)) ->
  exists n, (n <= k)%nat /\
    (forall m, (m < n)%nat ->
       snd (tick delta (ticks m delta (mkPlayerState (target :: rest) current)))
       = false) /\
    tick delta (ticks n delta (mkPlayerState (target :: rest) current))
    = (mkPlayerState rest target,
       match rest with [] => true | _ :: _ => false end).
Proof.
  intros Hd Ht. unfold Spec.JointAngleVector in *.
  revert current. induction k as [|k IH]; intros current Hc Hdist.
  - exists 0%nat. split; [lia|]. split; [intros m Hm; lia|]. cbn [ticks].
    apply tick_all_inBand; [congruence|].
    intros j Hj. rewrite Hc in Hj. specialize (Hdist j Hj).
    cbn [INR] in Hdist. unfold Spec.inBand. lra.
  - destruct (inBand_all_or_not target current) as [Hall|Hsome].
    + exists 0%nat. split; [lia|]. split; [intros m Hm; lia|]. cbn [ticks].
      apply tick_all_inBand; [congruence|exact Hall].
    + destruct (tick_some_outside delta target rest current ltac:(lra) Hsome)
        as (next & Htick & Hlen & Hnext).
      destruct (IH next ltac:(congruence)) as (n & Hn & Hbefore & Hticks).
      * intros j Hj. rewrite Hc in Hnext. specialize (Hnext j Hj).
        specialize (Hdist j Hj). rewrite S_INR in Hdist.
        apply Rle_trans with (1 := Hnext). apply Rmax_lub.
        -- apply Rmult_le_pos; [apply pos_INR|lra].
        -- lra.
      * exists (S n). split; [lia|]. split.
        -- intros [|m] Hm; cbn [ticks]; rewrite Htick; cbn [fst snd];
             [reflexivity|apply Hbefore; lia].
        -- cbn [ticks]. now rewrite Htick.
Qed.

(** Every distance is within the travel of some number of frames. *)
Lemma travel_bound (delta : R) (target current : list R) :
  0 < delta ->
  exists k, forall j, (j < 6)%nat ->
    Rabs (get target j - get current j) <= INR k * (120 * delta).
Proof.
  intros Hd.
  set (dist := fun j => Rabs (get target j - get current j)).
  destruct (INR_unbounded
              ((dist 0%nat + dist 1%nat + dist 2%nat + dist 3%nat
                + dist 4%nat + dist 5%nat) / (120 * delta))) as [k Hk].
  exists k. intros j Hj. fold (dist j).
  assert (Hpos : forall i, 0 <= dist i) by (intros i; apply Rabs_pos).
  assert (Hsum : dist j
                 <= dist 0%nat + dist 1%nat + dist 2%nat + dist 3%nat
                    + dist 4%nat + dist 5%nat).
  { pose proof (Hpos 0%nat). pose proof (Hpos 1%nat). pose proof (Hpos 2%nat).
    pose proof (Hpos 3%nat). pose proof (Hpos 4%nat). pose proof (Hpos 5%nat).
    do 6 (destruct j as [|j]; [lra|]). lia. }
  apply Rle_trans with (1 := Hsum).
  assert (Hc : 0 < 120 * delta) by lra.
  apply Rlt_le. apply (Rmult_lt_compat_r _ _ _ Hc) in Hk.
  unfold Rdiv in Hk. rewrite Rmult_assoc, Rinv_l, Rmult_1_r in Hk by lra.
  exact Hk.
Qed.

Lemma last_cons (target next : list R) (rest : list (list R)) :
  last (target :: next :: rest) [] = last (next :: rest) [].
Proof. reflexivity. Qed.

(** X17.  Playback arrives: when every joint is within the travel of [k]
    frames of its target (120 degrees per second times the frame time,
    [k] times), then after at most [k] frames the next frame sets the
    angles to the target exactly, removes the target from the queue, and
    reports the end of the playback exactly when no target is left. *)
Theorem playback_reaches_target (k : nat) (delta : R) (target : list R)
    (rest : list (list R)) (current : list R) :
  0 < delta ->
  Spec.JointAngleVector target -> Spec.JointAngleVector current ->
  (forall j, (j < 6)%nat ->
     Rabs (get target j - get current j) <= INR k * (120 * delta)) ->
  exists n, (n <= k)%nat /\
    tick delta (ticks n delta (mkPlayerState (target :: rest) current))
    = (mkPlayerState rest target,
       match rest with [] => true | _ :: _ => false end).
Proof.
  intros Hd Ht Hc Hdist.
  destruct (reaches_target k delta target rest current Hd Ht Hc Hdist)
    as (n & Hn & _ & Hfinal).
  now exists n.
Qed.

Lemma playback_reaches_target_witness :
  0 < 1 / 60 /\
  Spec.JointAngleVector [10; 0; 0; 0; 0; 0] /\
  Spec.JointAngleVector [0; 0; 0; 0; 0; 0] /\
  exists n, (n <= 5)%nat /\
    tick (1 / 60)
      (ticks n (1 / 60)
         (mkPlayerState [[10; 0; 0; 0; 0; 0]] [0; 0; 0; 0; 0; 0]))
    = (mkPlayerState [] [10; 0; 0; 0; 0; 0], true).
Proof.
  assert (H1 : 0 < 1 / 60) by lra.
  assert (H2 : Spec.JointAngleVector [10; 0; 0; 0; 0; 0]) by reflexivity.
  assert (H3 : Spec.JointAngleVector [0; 0; 0; 0; 0; 0]) by reflexivity.
  assert (H4 : forall j, (j < 6)%nat ->
            Rabs (get [10; 0; 0; 0; 0; 0] j - get [0; 0; 0; 0; 0; 0] j)
            <= INR 5 * (120 * (1 / 60))).
  { intros j Hj. unfold get.
    do 6 (destruct j as [|j]; [cbn [nth INR]; real_cases|]). lia. }
  split; [exact H1|]. split; [exact H2|]. split; [exact H3|].
  exact (playback_reaches_target 5 (1 / 60) [10; 0; 0; 0; 0; 0] []
           [0; 0; 0; 0; 0; 0] H1 H2 H3 H4).
Defined.

(** X18.  Playback ends: with frames of one positive length, a queue of
    joint angle vectors that is not empty is played to its end in finitely
    many frames.  The last of these frames empties the queue, leaves the
    angles at the last target of the queue exactly, and reports the end;
    no frame before it reports the end. *)
Theorem playback_completes (delta : R) (targets : list (list R))
    (current : list R) :
  0 < delta -> targets <> [] ->
  Forall Spec.JointAngleVector targets -> Spec.JointAngleVector current ->
  exists n,
    tick delta (ticks n delta (mkPlayerState targets current))
    = (mkPlayerState [] (last targets []), true) /\
    forall m, (m < n)%nat ->
      snd (tick delta (ticks m delta (mkPlayerState targets current)))
      = false.
Proof.
  intros Hd Hne Hall. revert current.
  induction Hall as [|target rest Ht Hrest IH]; [contradiction|].
  intros current Hc.
  destruct (travel_bound delta target current Hd) as [k Hk].
  destruct (reaches_target k delta target rest current Hd Ht Hc Hk)
    as (n1 & _ & Hbefore & Hfinal).
  destruct rest as [|next rest].
  - exists n1. split; [exact Hfinal|exact Hbefore].
  - destruct (IH ltac:(discriminate) target Ht) as (n2 & Hend & Hnone).
    assert (Hstate : ticks (S n1) delta
                       (mkPlayerState (target :: next :: rest) current)
                     = mkPlayerState (next :: rest) target)
      by (rewrite ticks_last, Hfinal; reflexivity).
    exists (S n1 + n2)%nat. split.
    + rewrite ticks_add, Hstate, last_cons. exact Hend.
    + intros m Hm.
      destruct (Nat.lt_trichotomy m n1) as [Hlt|[->|Hgt]].
      * now apply Hbefore.
      * now rewrite Hfinal.
      * replace m with (S n1 + (m - S n1))%nat by lia.
        rewrite ticks_add, Hstate. apply Hnone. lia.
Qed.

Lemma playback_completes_witness :
  0 < 1 / 60 /\
  [[10; 0; 0; 0; 0; 0]; [0; 0; 0; 0; 0; 0]] <> [] /\
  Forall Spec.JointAngleVector [[10; 0; 0; 0; 0; 0]; [0; 0; 0; 0; 0; 0]] /\
  Spec.JointAngleVector [0; 0; 0; 0; 0; 0] /\
  exists n,
    tick (1 / 60)
      (ticks n (1 / 60)
         (mkPlayerState [[10; 0; 0; 0; 0; 0]; [0; 0; 0; 0; 0; 0]]
            [0; 0; 0; 0; 0; 0]))
    = (mkPlayerState [] [0; 0; 0; 0; 0; 0], true).
Proof.
  assert (H1 : 0 < 1 / 60) by lra.
  assert (H2 : [[10; 0; 0; 0; 0; 0]; [0; 0; 0; 0; 0; 0]] <> [])
    by discriminate.
  assert (H3 : Forall Spec.JointAngleVector
                 [[10; 0; 0; 0; 0; 0]; [0; 0; 0; 0; 0; 0]])
    by (repeat constructor).
  assert (H4 : Spec.JointAngleVector [0; 0; 0; 0; 0; 0]) by reflexivity.
  split; [exact H1|]. split; [exact H2|]. split; [exact H3|].
  split; [exact H4|].
  destruct (playback_completes (1 / 60)
              [[10; 0; 0; 0; 0; 0]; [0; 0; 0; 0; 0; 0]] [0; 0; 0; 0; 0; 0]
              H1 H2 H3 H4) as [n [Hn _]].
  exists n. exact Hn.
Defined.

End PlaybackFacts.

(** ** The S-curve and the spiral *)

Module CurveFacts.
Import Three.
Import Kinematics.
Import App.
Import MatrixFacts.
Import KinematicsFacts.
Import PathFacts.
Local Open Scope R_scope.

Lemma generated_nth dh jointAngles type (k : nat) :
  (k <= lastStep type)%nat ->
  let startPose := getEndEffectorPose dh jointAngles in
  let solutions := generateTrajectoryPoints dh jointAngles type in
  nth k solutions []
  = inverseKinematics dh
      (compose (pathPoint type (ee_position startPose) k)
         (setFromEuler (ee_rotation startPose)) (mkVector3 1 1 1))
      (match k with
       | O => jointAngles
       | S k' => nth k' solutions []
       end).
Proof.
  intros Hk startPose solutions. subst solutions.
  rewrite generateTrajectoryPoints_chain. fold startPose.
  generalize (ee_position startPose) (setFromEuler (ee_rotation startPose)).
  intros startPos startQuat.
  rewrite (seedChain_nth _ jointAngles _ k (pathPoint type startPos 0))
    by (rewrite length_map, length_seq; lia).
  f_equal. f_equal.
  rewrite (map_nth (pathPoint type startPos) (seq 0 (S (lastStep type)))
             0%nat k).
  now rewrite seq_nth by lia.
Qed.

Lemma generated_length dh jointAngles type :
  List.length (generateTrajectoryPoints dh jointAngles type)
  = S (lastStep type).
Proof.
  rewrite generateTrajectoryPoints_chain.
  now rewrite seedChain_length, length_map, length_seq.
Qed.

(** X19.  The S-curve: 121 solutions; waypoint 0 is the start position;
    every waypoint keeps the start height, advances 10 in y per step and
    stays within 200 of the start in x; the orientation is that of the
    start pose; solution k is solved from solution k-1, solution 0 from the
    current joint angles. *)
Theorem generateTrajectoryPoints_scurve dh (jointAngles : list R) :
  Spec.DHParameterSet dh -> Spec.JointAngleVector jointAngles ->
  let startPose := getEndEffectorPose dh jointAngles in
  let startPos := ee_position startPose in
  let startQuat := setFromEuler (ee_rotation startPose) in
  let waypoint (k : nat) := pathPoint SCurve startPos k in
  let solutions := generateTrajectoryPoints dh jointAngles SCurve in
  List.length solutions = 121%nat /\
  waypoint 0%nat = startPos /\
  forall k, (k < 121)%nat ->
    vz (waypoint k) = vz startPos /\
    vy (waypoint k) = vy startPos + 10 * INR k /\
    Rabs (vx (waypoint k) - vx startPos) <= 200 /\
    nth k solutions []
    = inverseKinematics dh (compose (waypoint k) startQuat (mkVector3 1 1 1))
        (match k with
         | O => jointAngles
         | S k' => nth k' solutions []
         end).
Proof.
  intros _ _ startPose startPos startQuat waypoint solutions.
  split; [apply generated_length|]. split.
  - subst waypoint. generalize startPos. intros [sx sy sz].
    unfold pathPoint. cbn [vx vy vz INR].
    replace (0 / 20) with 0 by field. rewrite sin_0. f_equal; ring.
  - intros k Hk. subst waypoint. cbv beta.
    split; [reflexivity|]. split; [unfold pathPoint; cbn [vy]; ring|]. split.
    + unfold pathPoint. cbn [vx].
      replace (vx startPos + sin (INR k / 20) * 200 - vx startPos)
        with (sin (INR k / 20) * 200) by ring.
      pose proof (SIN_bound (INR k / 20)) as [H1 H2].
      unfold Rabs. destruct (Rcase_abs _); lra.
    + apply (generated_nth dh jointAngles SCurve k). cbn. lia.
Qed.

Lemma generateTrajectoryPoints_scurve_witness :
  Spec.DHParameterSet defaultConfig /\
  Spec.JointAngleVector [0; 0; 0; 0; 0; 0] /\
  List.length
    (generateTrajectoryPoints defaultConfig [0; 0; 0; 0; 0; 0] SCurve)
  = 121%nat.
Proof.
  assert (H1 : Spec.DHParameterSet defaultConfig)
    by exact defaultConfig_DHParameterSet.
  assert (H2 : Spec.JointAngleVector [0; 0; 0; 0; 0; 0]) by reflexivity.
  split; [exact H1|]. split; [exact H2|].
  exact (proj1 (generateTrajectoryPoints_scurve defaultConfig
                  [0; 0; 0; 0; 0; 0] H1 H2)).
Defined.

(** X20.  The spiral: 181 solutions; waypoint k is at height 800 + 5k on
    the circle of radius 200 + 2k around the axis x = 1200, y = 0, whatever
    the start position; the orientation is that of the start pose; solution
    k is solved from solution k-1, solution 0 from the current joint
    angles. *)
Theorem generateTrajectoryPoints_spiral dh (jointAngles : list R) :
  Spec.DHParameterSet dh -> Spec.JointAngleVector jointAngles ->
  let startPose := getEndEffectorPose dh jointAngles in
  let startQuat := setFromEuler (ee_rotation startPose) in
  let waypoint (k : nat) :=
    mkVector3 (1200 + cos (INR k * 0.1) * (200 + INR k * 2))
              (sin (INR k * 0.1) * (200 + INR k * 2))
              (800 + INR k * 5) in
  let solutions := generateTrajectoryPoints dh jointAngles Spiral in
  List.length solutions = 181%nat /\
  forall k, (k < 181)%nat ->
    (vx (waypoint k) - 1200) * (vx (waypoint k) - 1200)
    + vy (waypoint k) * vy (waypoint k)
    = (200 + 2 * INR k) * (200 + 2 * INR k) /\
    nth k solutions []
    = inverseKinematics dh (compose (waypoint k) startQuat (mkVector3 1 1 1))
        (match k with
         | O => jointAngles
         | S k' => nth k' solutions []
         end).
Proof.
  intros _ _ startPose startQuat waypoint solutions.
  split; [apply generated_length|].
  intros k Hk. split.
  - subst waypoint. cbn [vx vy].
    pose proof (sin2_cos2 (INR k * 0.1)) as Hsc. unfold Rsqr in Hsc.
    transitivity ((sin (INR k * 0.1) * sin (INR k * 0.1)
                   + cos (INR k * 0.1) * cos (INR k * 0.1))
                  * ((200 + 2 * INR k) * (200 + 2 * INR k))); [ring|].
    rewrite Hsc. ring.
  - subst solutions.
    rewrite (generated_nth dh jointAngles Spiral k) by (cbn; lia).
    fold startPose. fold startQuat. f_equal. f_equal.
    subst waypoint. unfold pathPoint. f_equal; ring.
Qed.

Lemma generateTrajectoryPoints_spiral_witness :
  Spec.DHParameterSet defaultConfig /\
  Spec.JointAngleVector [0; 0; 0; 0; 0; 0] /\
  List.length
    (generateTrajectoryPoints defaultConfig [0; 0; 0; 0; 0; 0] Spiral)
  = 181%nat.
Proof.
  assert (H1 : Spec.DHParameterSet defaultConfig)
    by exact defaultConfig_DHParameterSet.
  assert (H2 : Spec.JointAngleVector [0; 0; 0; 0; 0; 0]) by reflexivity.
  split; [exact H1|]. split; [exact H2|].
  exact (proj1 (generateTrajectoryPoints_spiral defaultConfig
                  [0; 0; 0; 0; 0; 0] H1 H2)).
Defined.

End CurveFacts.

(** ** The waypoints of an imported file *)

Module ImportFacts.
Import Three.
Import Kinematics.
Import FileImport.
Import Notions.
Import MatrixFacts.
Import KinematicsFacts.
Import PathFacts.
Import FrameFacts.
Import SolverFacts.
Local Open Scope R_scope.

Section ChainOf.

Context {A B Sol : Type}.
Variable base : A -> B.
Variable solve : A -> Sol -> Sol.

Lemma fold_genericStep items bs ss seed :
  fst (fold_left (genericStep base solve) items (bs, ss, seed))
  = (bs ++ map base items, ss ++ chainOf solve seed items).
Proof.
  revert bs ss seed.
  induction items as [|p items IH]; intros bs ss seed;
    cbn [fold_left map chainOf].
  - cbn [fst]. now rewrite !app_nil_r.
  - unfold genericStep at 2. cbn [fst snd].
    rewrite IH, <- !app_assoc. reflexivity.
Qed.



End ChainOf.

Lemma solveStep_generic dh config acc pt :
  solveStep dh config acc pt
  = genericStep
      (fun p => option_map ft_position (flangeTarget config p))
      (fun p s => solveFrom dh (flangeTarget config p) s)
      acc pt.
Proof. destruct acc as [[bs ss] seed]. reflexivity. Qed.

Lemma solveImported_chain dh jointAngles config points :
  solveImported dh jointAngles config points
  = (map (fun p => option_map ft_position (flangeTarget config p)) points,
     importSolutions dh jointAngles config points).
Proof.
  unfold solveImported, importSolutions.
  rewrite (fold_left_ext _ _ _ _ (solveStep_generic dh config)).
  now rewrite fold_genericStep.
Qed.


(** *** Numbers and NaN *)



Lemma realPose_nan p : finitePose p = false -> realPose p = None.
Proof.
  unfold finitePose, realPose.
  destruct (Pose.x p), (Pose.y p), (Pose.z p), (Pose.a p), (Pose.b p),
    (Pose.c p); cbn [isNumber andb realNumber]; intros H;
    try discriminate H; reflexivity.
Qed.


Lemma flangeTarget_nan config p :
  finiteConfig config = false \/ finitePose p = false ->
  flangeTarget config p = None.
Proof.
  unfold finiteConfig, flangeTarget. intros [H|H].
  - apply andb_false_iff in H as [H|H]; rewrite (realPose_nan _ H);
      destruct (realPose p); try reflexivity;
      destruct (realPose (Pose.world config)); reflexivity.
  - now rewrite (realPose_nan _ H).
Qed.

Lemma solveFrom_nan dh result : solveFrom dh result None = None.
Proof. now destruct result. Qed.






(** A waypoint whose x is a lone minus sign is read as NaN; its solution
    and the solution of the waypoint after it are NaN. *)
Lemma solveImported_nan_example dh (jointAngles : list R) :
  let config := Pose.mkGlobalConfig Parser.defaultPose Parser.defaultPose in
  let points :=
    Parser.parseTrajectory
      (TextNotions.joinLines
         ["cp1 CARTPOS x := -"; "cp2 CARTPOS x := 5"]%string) in
  List.length points = 2%nat /\
  snd (solveImported dh jointAngles config points) = [None; None].
Proof.
  intros config points.
  assert (E : points
              = [Pose.mkPose Parser.NaN (Parser.Num 0) (Parser.Num 0)
                   (Parser.Num 0) (Parser.Num 0) (Parser.Num 0);
                 Pose.mkPose (Parser.Num 5) (Parser.Num 0) (Parser.Num 0)
                   (Parser.Num 0) (Parser.Num 0) (Parser.Num 0)])
    by (vm_compute; reflexivity).
  split; [now rewrite E|].
  rewrite solveImported_chain. cbn [snd]. rewrite E.
  unfold importSolutions. cbn [chainOf].
  rewrite (flangeTarget_nan config
             (Pose.mkPose Parser.NaN (Parser.Num 0) (Parser.Num 0)
                (Parser.Num 0) (Parser.Num 0) (Parser.Num 0)))
    by (right; reflexivity).
  cbn [solveFrom]. now rewrite solveFrom_nan.
Qed.

End ImportFacts.

(** ** The trail of the end effector *)

Module TrailFacts.
Import Three.
Import Trail.
Import Notions.
Local Open Scope R_scope.

Lemma tl_snoc (front : list Vector3) (p : Vector3) :
  (1 <= List.length front)%nat -> tl (front ++ [p]) = tl front ++ [p].
Proof. destruct front; cbn; [lia|reflexivity]. Qed.

(** X22.  The trail never holds more than 3000 points and always ends in
    the last point recorded: both are kept by every run of the effect;
    hiding the trail empties it; and a full trail either stays as it is or
    loses its oldest point for the new one. *)
Theorem trailEffect_invariant (showTrail : bool) (st : TrailState)
    (currentPos : Vector3) :
  trailInvariant st ->
  trailInvariant (trailEffect showTrail st currentPos) /\
  (showTrail = false -> trajectory (trailEffect showTrail st currentPos) = []) /\
  (showTrail = true -> List.length (trajectory st) = 3000%nat ->
   trajectory (trailEffect showTrail st currentPos) = trajectory st \/
   trajectory (trailEffect showTrail st currentPos)
   = tl (trajectory st) ++ [currentPos]).
Proof.
  intros [Hlen Hlast]. unfold trailEffect.
  destruct showTrail; cbn [negb].
  - destruct (match lastPointRef st with
              | None => true
              | Some lastPoint => Rltb 5 (distanceTo lastPoint currentPos)
              end) eqn:E.
    + cbv zeta. rewrite length_app. cbn [List.length].
      destruct (Nat.ltb_spec 3000 (List.length (trajectory st) + 1))
        as [Hfull|Hroom].
      * assert (Hl : List.length (trajectory st) = 3000%nat) by lia.
        rewrite tl_snoc by lia. split; [|split; [discriminate|]].
        -- split; cbn [trajectory lastPointRef].
           ++ rewrite length_app. cbn [List.length].
              destruct (trajectory st); cbn [tl List.length] in *; lia.
           ++ right. now exists (tl (trajectory st)), currentPos.
        -- intros _ _. now right.
      * split; [|split; [discriminate|intros _ Hl; lia]].
        split; cbn [trajectory lastPointRef].
        -- rewrite length_app. cbn [List.length]. lia.
        -- right. now exists (trajectory st), currentPos.
    + split; [now split|]. split; [discriminate|]. intros _ _. now left.
  - split; [|split; [|discriminate]].
    + split; cbn [trajectory lastPointRef].
      * destruct (0 <? List.length (trajectory st))%nat; cbn [List.length];
          lia.
      * destruct (Nat.ltb_spec 0 (List.length (trajectory st))); [now left|].
        left. destruct (trajectory st);
          [reflexivity|cbn [List.length] in *; lia].
    + intros _. cbn [trajectory].
      destruct (Nat.ltb_spec 0 (List.length (trajectory st))); [reflexivity|].
      destruct (trajectory st); [reflexivity|cbn [List.length] in *; lia].
Qed.

Lemma trailEffect_invariant_witness :
  trailInvariant (mkTrailState [] None) /\
  trailInvariant
    (trailEffect true (mkTrailState [] None) (mkVector3 1 2 3)).
Proof.
  assert (H : trailInvariant (mkTrailState [] None)).
  { split; cbn [trajectory List.length]; [lia|now left]. }
  split; [exact H|].
  exact (proj1 (trailEffect_invariant true (mkTrailState [] None)
                  (mkVector3 1 2 3) H)).
Defined.

End TrailFacts.

(** ** The DH fields of the control panel *)

Module PanelFacts.
Import Kinematics.
Import Panel.
Import KinematicsFacts.
Local Open Scope R_scope.

Lemma setAt_length arr i v : List.length (setAt arr i v) = List.length arr.
Proof.
  revert i. induction arr as [|h t IH]; intros [|i];
    cbn [setAt List.length]; auto.
Qed.

Lemma get_setAt_same arr i v :
  (i < List.length arr)%nat -> get (setAt arr i v) i = v.
Proof.
  revert i. induction arr as [|h t IH]; intros [|i] H; cbn [List.length] in H;
    try lia; cbn [setAt get nth]; [reflexivity|].
  apply IH. lia.
Qed.

Lemma get_setAt_other arr i j v : i <> j -> get (setAt arr i v) j = get arr j.
Proof.
  revert i j. induction arr as [|h t IH]; intros [|i] [|j] H;
    cbn [setAt get nth]; try reflexivity; try congruence.
  apply IH. congruence.
Qed.

(** X23.  Editing one DH field changes that entry and nothing else: the
    edited configuration is again a DH parameter set, holds the number at
    the edited place and the old values at every other place of the four
    sequences; text that is no number leaves the configuration as it
    was. *)
Theorem updateDH_spec (dhParams : DHParameterConfig) (arrayName : DHArrayName)
    (index : nat) (num : R) :
  Spec.DHParameterSet dhParams -> (index < 7)%nat ->
  let updated := updateDH dhParams arrayName index (Some num) in
  Spec.DHParameterSet updated /\
  get (dhArray updated arrayName) index = num /\
  (forall name j, (name <> arrayName \/ j <> index) ->
     get (dhArray updated name) j = get (dhArray dhParams name) j) /\
  updateDH dhParams arrayName index None = dhParams.
Proof.
  intros (H1 & H2 & H3 & H4) Hi updated. subst updated.
  unfold Spec.DHParameterSet.
  destruct arrayName; cbn [updateDH dhArray d a alpha offsets];
    rewrite ?setAt_length;
    (split; [auto|]); (split; [apply get_setAt_same; lia|]);
    (split; [|reflexivity]);
    intros name j Hne; destruct name; cbn [dhArray d a alpha offsets];
    try reflexivity;
    (destruct Hne as [Hne|Hne]; [congruence|]);
    apply get_setAt_other; congruence.
Qed.

Lemma updateDH_spec_witness :
  Spec.DHParameterSet defaultConfig /\ (1 < 7)%nat /\
  get (dhArray (updateDH defaultConfig ArrayD 1 (Some 600)) ArrayD) 1 = 600.
Proof.
  assert (H1 : Spec.DHParameterSet defaultConfig)
    by exact defaultConfig_DHParameterSet.
  assert (H2 : (1 < 7)%nat) by lia.
  split; [exact H1|]. split; [exact H2|].
  exact (proj1 (proj2 (updateDH_spec defaultConfig ArrayD 1 600 H1 H2))).
Defined.

End PanelFacts.
